(** * REAP relighting and geometric-transform estimation

    A shallow embedding of the relighting code of
    [adv_patch_bench/transforms/lighting_tf.py], of the method table of
    [hparams.py] and of the affine branch of
    [scripts/run_realism_test_main.py].

    Conventions of the embedding.
    - Python exceptions are values of [exn]; a function that can raise
      returns a [result].
    - Python [str] is [string]; [x in s] is [contains], [s.split(c)] is
      [split].
    - The Python scalar [percentile] is an IEEE binary64 number and its
      arithmetic ([1 - percentile], [* 100], [round]) is modelled bit for
      bit on [spec_float] at precision 53.
    - Tensor entries are idealised: exact rationals where the code only adds,
      multiplies and compares, exact reals where it takes square roots,
      logarithms or exponentials.  The one non-number the idealised
      arithmetic still produces, the [0/0] of a mean over no element or of a
      sample deviation over fewer than two, is [NaN] ([None]).
    - Where a property is about NaN or infinite entries, as the range of
      what the relighting functions return is, tensor entries are IEEE
      binary32 numbers ([FloatTensor], [FloatApply]).
    - Functions of Kornia, NumPy and OpenCV that the code calls but does not
      define are parameters of the definitions that call them. *)

From Stdlib Require Import String Ascii Bool Arith ZArith.
From Stdlib Require Import QArith Qround Qabs Qminmax Qreals.
From Stdlib Require Import Reals Lia Lra Psatz.
From Stdlib Require Import SpecFloat.
From Stdlib Require Import Sorting.Sorted Sorting.Permutation.
From Stdlib Require Import List.
Import ListNotations.

(** ** Exceptions and results *)

Inductive exn : Set :=
| ValueError
| AssertionError
| NotImplementedError
| IndexError
| TypeError
| AttributeError
| RuntimeError
| OverflowError.

Inductive result (A : Type) : Type :=
| Ok (a : A)
| Raise (e : exn).

Arguments Ok {A} a.
Arguments Raise {A} e.

Definition bind {A B} (r : result A) (k : A -> result B) : result B :=
  match r with
  | Ok a => k a
  | Raise e => Raise e
  end.

Notation "x <- r ;; k" := (bind r (fun x => k))
  (at level 61, r at next level, right associativity).
Notation "' p <- r ;; k" := (bind r (fun p => k))
  (at level 61, p pattern, r at next level, right associativity).

(** [xs[i]] on a Python list or along the first axis of a tensor. *)
Definition index {A} (xs : list A) (i : nat) : result A :=
  match nth_error xs i with
  | Some x => Ok x
  | None => Raise IndexError
  end.

(** The loop [for x in xs: acc = f(acc, x)] with an early exit on a raise. *)
Fixpoint for_each {A S} (xs : list A) (f : S -> A -> result S) (s : S)
  : result S :=
  match xs with
  | [] => Ok s
  | x :: rest => s' <- f s x ;; for_each rest f s'
  end.

(** [[f(x) for x in xs]] with an early exit on a raise. *)
Fixpoint map_result {A B} (f : A -> result B) (xs : list A)
  : result (list B) :=
  match xs with
  | [] => Ok []
  | x :: rest => y <- f x ;; ys <- map_result f rest ;; Ok (y :: ys)
  end.

(** [torch.masked_select(values, mask)] on flattened operands of one
    shape. *)
Definition masked_select {A} (values : list A) (mask : list bool)
  : result (list A) :=
  if Nat.eqb (length values) (length mask)
  then Ok (map fst (filter snd (combine values mask)))
  else Raise RuntimeError.

(** [torch.stack(rows, dim=0)]: at least one row, and rows of one
    length. *)
Definition stack {A} (rows : list (list A)) : result (list (list A)) :=
  match rows with
  | [] => Raise RuntimeError
  | r :: rest =>
      if forallb (fun r' => Nat.eqb (length r') (length r)) rest
      then Ok rows
      else Raise RuntimeError
  end.

(** ** Python strings *)

Module PyStr.
Open Scope string_scope.

(** [needle in hay]. *)
Fixpoint contains (needle hay : string) : bool :=
  prefix needle hay ||
  match hay with
  | EmptyString => false
  | String _ rest => contains needle rest
  end.

(** [s.split(sep)] for a one-character separator: never empty. *)
Fixpoint split (sep : ascii) (s : string) : list string :=
  match s with
  | EmptyString => [EmptyString]
  | String c rest =>
      if Ascii.eqb c sep then EmptyString :: split sep rest
      else match split sep rest with
           | piece :: pieces => String c piece :: pieces
           | [] => [String c EmptyString]
           end
  end.

(** [parts[-1]]. *)
Definition last_part (parts : list string) : string := last parts "".

(** [parts[0]]. *)
Definition first_part (parts : list string) : string := hd "" parts.

End PyStr.

(** ** hparams.py *)

Module Hparams.
Open Scope string_scope.

Definition RELIGHT_METHODS : list string :=
  [ "color_transfer";
    "color_transfer_hsv-sv";
    "color_transfer_lab-l";
    "polynomial";
    "polynomial_max";
    "polynomial_mean";
    "polynomial_hsv-sv";
    "polynomial_lab-l";
    "percentile" ].

Definition DATASETS : list string :=
  [ "mtsd-orig";
    "mtsd-no_color";
    "mtsd-color";
    "mapillary-no_color";
    "mapillary-color";
    "reap";
    "synthetic";
    "mtsd-100";
    "reap-100";
    "synthetic-100";
    "realism" ].

Record DatasetIdentifier : Set := mk_id {
  name : string;
  use_shape : bool;
  use_color : bool;
  use_orig_labels : bool;
  ignore_bg_class : bool;
  skip_bg_only : bool;
  num_classes : option Z;
  split : option string
}.

(** [x in xs] on a list of strings. *)
Definition mem (x : string) (xs : list string) : bool :=
  existsb (String.eqb x) xs.

Definition parse_dataset_name (dataset_name : string) : DatasetIdentifier :=
  let base_dataset := PyStr.first_part (PyStr.split "-" dataset_name) in
  let dataset_modifiers :=
    if PyStr.contains "-" dataset_name
    then tl (PyStr.split "-" dataset_name)
    else [] in
  let '(use_color, use_orig_labels, skip_bg_only) :=
    if PyStr.contains "reap" base_dataset
       || PyStr.contains "synthetic" base_dataset
    then (false, false, String.eqb base_dataset "reap")
    else (mem "color" dataset_modifiers,
          mem "orig" dataset_modifiers,
          mem "skipbg" dataset_modifiers) in
  let ignore_bg_class := mem "nobg" dataset_modifiers in
  let num_classes :=
    if mem "100" dataset_modifiers then Some 100%Z else None in
  let split :=
    find (fun split_name => mem split_name dataset_modifiers)
         ["train"; "val"; "test"; "combined"] in
  let use_shape := mem "shape" dataset_modifiers in
  mk_id base_dataset use_shape use_color use_orig_labels ignore_bg_class
        skip_bg_only num_classes split.

(** The subclasses of [BaseMetadata]. *)
Inductive metadata_class : Set :=
| MtsdShapeMetadata
| ReapShapeMetadata
| Mtsd100Metadata
| Reap100Metadata
| RealismMetadata.

(** The class attribute [splits], inherited where a class does not set
    it. *)
Definition splits (m : metadata_class) : list string :=
  match m with
  | MtsdShapeMetadata | Mtsd100Metadata => ["train"; "val"; "test"]
  | ReapShapeMetadata | Reap100Metadata => ["combined"]
  | RealismMetadata => ["real"; "none"; "percentile0.2"]
  end.

(** [self.metadata] once [MetaData.__init__] has run, in insertion
    order. *)
Definition metadata : list (string * metadata_class) :=
  [ ("reap_shape", ReapShapeMetadata);
    ("mtsd_shape", MtsdShapeMetadata);
    ("reap", Reap100Metadata);
    ("mtsd", Mtsd100Metadata);
    ("realism", RealismMetadata);
    ("synthetic", ReapShapeMetadata);
    ("mapillary", Reap100Metadata);
    ("mapillary_shape", ReapShapeMetadata) ].

(** [d[key]] on a dict kept as its list of items, [None] without the
    key. *)
Fixpoint lookup {V} (key : string) (d : list (string * V)) : option V :=
  match d with
  | [] => None
  | (k, v) :: rest => if String.eqb k key then Some v else lookup key rest
  end.

Definition get (dataset_name : string) : result metadata_class :=
  let dataset_id := parse_dataset_name dataset_name in
  let base_dataset := name dataset_id in
  match lookup base_dataset metadata with
  | None => Raise ValueError
  | Some m => Ok m
  end.

(** [d[key] = value] on a dict kept as its list of items: the value is
    replaced where the key is, a new key comes last. *)
Fixpoint dict_set {V} (key : string) (value : V) (d : list (string * V))
  : list (string * V) :=
  match d with
  | [] => [(key, value)]
  | (k, v) :: rest =>
      if String.eqb k key then (k, value) :: rest
      else (k, v) :: dict_set key value rest
  end.

Definition TS_COLOR_DICT : list (string * list string) :=
  [ ("circle", ["white"; "blue"; "red"]);
    ("triangle", ["white"; "yellow"]);
    ("up-triangle", []);
    ("diamond-s", []);
    ("diamond-l", []);
    ("square", []);
    ("rect-s", ["white"; "other"]);
    ("rect-m", []);
    ("rect-l", []);
    ("pentagon", []);
    ("octagon", []);
    ("other", []) ].

(** The loop that fills [TS_COLOR_OFFSET_DICT], on any dict of colors:
    the dict and [idx] when it ends. *)
Definition color_offsets_loop (colors_of : list (string * list string))
  : list (string * nat) * nat :=
  fold_left
    (fun '(offsets, idx) '(shape, colors) =>
       (dict_set shape idx offsets, (idx + Nat.max 1 (length colors))%nat))
    colors_of ([], 0%nat).

(** [f"{shape}-{color}"]. *)
Definition label_name (shape color : string) : string :=
  shape ++ "-" ++ color.

(** The loop that fills [TS_COLOR_LABEL_DICT]. *)
Definition color_labels_loop (colors_of : list (string * list string))
  : list (string * nat) * nat :=
  fold_left
    (fun '(labels, idx) '(shape, colors) =>
       match colors with
       | [] => (dict_set (label_name shape "none") idx labels, S idx)
       | _ =>
           fold_left
             (fun '(labels, idx) color =>
                (dict_set (label_name shape color) idx labels, S idx))
             colors (labels, idx)
       end)
    colors_of ([], 0%nat).

Definition TS_COLOR_OFFSET_DICT : list (string * nat) :=
  fst (color_offsets_loop TS_COLOR_DICT).

Definition TS_COLOR_LABEL_DICT : list (string * nat) :=
  fst (color_labels_loop TS_COLOR_DICT).

(** [list(TS_COLOR_LABEL_DICT.keys())]. *)
Definition TS_COLOR_LABEL_LIST : list string := map fst TS_COLOR_LABEL_DICT.

(** The names the second loop gives the classes of one shape, and of all
    shapes, in the order it meets them. *)
Definition names_of_shape (item : string * list string) : list string :=
  match snd item with
  | [] => [label_name (fst item) "none"]
  | colors => map (label_name (fst item)) colors
  end.

Definition label_names (colors_of : list (string * list string))
  : list string :=
  flat_map names_of_shape colors_of.

End Hparams.

(** ** RelightTransform: construction and dispatch *)

Module RelightTransform.
Import PyStr.
Open Scope string_scope.

(** The three pairs of converters [__init__] can install. *)
Inductive color_tfs : Set :=
| KorniaHsv    (* [kornia.color.RgbToHsv(), kornia.color.HsvToRgb()] *)
| CustomLab    (* [RGBtoLab(), LabtoRGB()] *)
| KorniaLab.   (* [kornia.color.RgbToLab(), kornia.color.LabToRgb()] *)

Record t : Set := mk {
  _method : string;
  _channels : option (list nat);
  _color_tfs : option color_tfs
}.

(** [method.split("_")[-1].split("-")[0]]. *)
Definition color_space (method : string) : string :=
  first_part (split "-" (last_part (split "_" method))).

(** [None] when [method] has no dash, else [method.split("-")[1]]. *)
Definition channels_of (method : string) : option string :=
  let parts := split "-" method in
  if Nat.eqb (length parts) 1 then None else Some (nth 1 parts "").

Definition opt_string_eqb (o : option string) (s : string) : bool :=
  match o with
  | Some x => String.eqb x s
  | None => false
  end.

Definition __init__ (method : string) : result t :=
  let channels := channels_of method in
  let color_space := color_space method in
  let '(tfs, chans) :=
    if String.eqb color_space "hsv" then
      (Some KorniaHsv,
       if opt_string_eqb channels "sv" then Some [1; 2]%nat else None)
    else if String.eqb color_space "lab" then
      (Some (if String.eqb method "color_transfer_lab"
             then CustomLab else KorniaLab),
       if opt_string_eqb channels "l" then Some [0]%nat else None)
    else (None, None) in
  match tfs with
  | None =>
      if contains "color_transfer" method then Raise ValueError
      else Ok (mk method chans tfs)
  | Some _ => Ok (mk method chans tfs)
  end.

(** The function [forward] dispatches to. *)
Inductive relight_func : Set :=
| F_color_transfer
| F_polynomial_match
| F_no_relight.

Definition dispatch (self : t) : result relight_func :=
  let m := _method self in
  if contains "color_transfer" m then Ok F_color_transfer
  else if contains "percentile" m || contains "polynomial" m
       then Ok F_polynomial_match
  else if String.eqb m "none" then Ok F_no_relight
  else Raise NotImplementedError.

End RelightTransform.

(** ** Python floats: IEEE binary64 *)

Module PyFloat.

Definition prec : Z := 53.
Definition emax : Z := 1024.

Definition float : Set := spec_float.

Definition of_Z (z : Z) : float := binary_normalize prec emax z 0 false.

Definition sub : float -> float -> float := SFsub prec emax.
Definition mul : float -> float -> float := SFmul prec emax.
Definition div : float -> float -> float := SFdiv prec emax.
Definition ltb : float -> float -> bool := SFltb.
Definition leb : float -> float -> bool := SFleb.

(** [min(a, b)]: the first argument unless the second is smaller. *)
Definition min (a b : float) : float := if ltb b a then b else a.

(** [round(x)] to an [int]: to nearest, ties to even; [round] of a NaN
    raises ValueError, of an infinity OverflowError. *)
Definition round (x : float) : result Z :=
  match x with
  | S754_zero _ => Ok 0%Z
  | S754_nan => Raise ValueError
  | S754_infinity _ => Raise OverflowError
  | S754_finite s m e =>
      let magnitude :=
        match e with
        | Zneg k =>
            let d := Z.pow_pos 2 k in
            let q := (Zpos m / d)%Z in
            let r := (Zpos m mod d)%Z in
            match (2 * r ?= d)%Z with
            | Lt => q
            | Gt => (q + 1)%Z
            | Eq => if Z.even q then q else (q + 1)%Z
            end
        | _ => (Zpos m * 2 ^ e)%Z
        end in
      Ok (if s then (- magnitude)%Z else magnitude)
  end.

(** The decimal literal [n / 10^k] as Python reads it, correctly rounded,
    for [n] and [10^k] below [2^53]. *)
Definition decimal (n : Z) (k : positive) : float :=
  div (of_Z n) (of_Z (Z.pow_pos 10 k)).

End PyFloat.

(** ** Tensors of rationals *)

Module QTensor.
Open Scope Q_scope.

(** An entry of a float tensor: a number or NaN. *)
Definition num : Set := option Q.
Definition NaN : num := None.
Definition fin (q : Q) : num := Some q.

Definition nsub (a b : num) : num :=
  match a, b with
  | Some x, Some y => Some (x - y)
  | _, _ => None
  end.

(** Two entries hold the same number, or are both NaN. *)
Definition num_equiv (a b : num) : Prop :=
  match a, b with
  | Some x, Some y => x == y
  | None, None => True
  | _, _ => False
  end.

(** Two outcomes of a fitter agree: the same exception, or coefficient
    tensors of one shape whose entries agree. *)
Definition coeffs_equiv (r1 r2 : result (list (num * num))) : Prop :=
  match r1, r2 with
  | Ok c1, Ok c2 =>
      Forall2 (fun x y => num_equiv (fst x) (fst y)
                          /\ num_equiv (snd x) (snd y)) c1 c2
  | Raise e1, Raise e2 => e1 = e2
  | _, _ => False
  end.

Definition qsum (xs : list Q) : Q := fold_right Qplus 0 xs.

Definition of_nat (n : nat) : Q := inject_Z (Z.of_nat n).

(** [xs.mean()]: NaN over no element. *)
Definition mean (xs : list Q) : num :=
  match xs with
  | [] => NaN
  | _ => fin (qsum xs / of_nat (length xs))
  end.

(** Insertion of [x] before the first entry that is not smaller. *)
Fixpoint insert_by {A} (key : A -> Q) (x : A) (l : list A) : list A :=
  match l with
  | [] => [x]
  | y :: rest =>
      if Qle_bool (key x) (key y) then x :: y :: rest
      else y :: insert_by key x rest
  end.

(** Ascending stable sort. *)
Definition sort_by {A} (key : A -> Q) (l : list A) : list A :=
  fold_right (insert_by key) [] l.

Definition enumerate {A} (l : list A) : list (nat * A) :=
  combine (seq 0 (length l)) l.

(** [np.nanpercentile(a, q)] with the default linear interpolation, on a
    sample without NaN: NaN on an empty sample, ValueError for [q] outside
    [0, 100]. *)
Definition nanpercentile (a : list Q) (q : Z) : result num :=
  if negb ((0 <=? q)%Z && (q <=? 100)%Z) then Raise ValueError
  else
    match sort_by (fun x => x) a with
    | [] => Ok NaN
    | (s0 :: _) as sorted =>
        let n := length sorted in
        let virtual := of_nat (n - 1) * (inject_Z q / 100) in
        let lo := Z.to_nat (Qfloor virtual) in
        let hi := Nat.min (lo + 1) (n - 1) in
        let gamma := virtual - of_nat lo in
        let a_lo := nth lo sorted s0 in
        let a_hi := nth hi sorted s0 in
        Ok (fin (a_lo + (a_hi - a_lo) * gamma))
    end.

(** [a - b] on 1-D tensors, a one-element operand being broadcast. *)
Definition broadcast_sub (a b : list Q) : result (list Q) :=
  if Nat.eqb (length a) (length b)
  then Ok (map (fun '(x, y) => x - y) (combine a b))
  else match a, b with
       | [x], _ => Ok (map (fun y => x - y) b)
       | _, [y] => Ok (map (fun x => x - y) a)
       | _, _ => Raise RuntimeError
       end.

(** [torch.topk(values, k, largest=False).indices]: the positions of the
    [k] smallest entries, smallest first, the earlier position first among
    equal entries. *)
Definition topk_smallest (values : list Q) (k : Z) : result (list nat) :=
  if ((k <? 0)%Z || (Z.of_nat (length values) <? k)%Z)%bool
  then Raise RuntimeError
  else Ok (firstn (Z.to_nat k)
                  (map fst (sort_by snd (enumerate values)))).

(** [values[indices]]. *)
Definition gather (values : list Q) (indices : list nat)
  : result (list Q) :=
  map_result (index values) indices.

Definition pointwise (op : Q -> Q -> Q) (a b : list Q) : list Q :=
  map (fun '(x, y) => op x y) (combine a b).

(** [t.max(dim, keepdim=True)[0]] over the channel axis. *)
Definition max_over_channels (chs : list (list Q)) : list (list Q) :=
  match chs with
  | [] => []
  | c :: rest => [fold_left (pointwise Qmax) rest c]
  end.

(** [t.mean(dim, keepdim=True)] over the channel axis. *)
Definition mean_over_channels (chs : list (list Q)) : list (list Q) :=
  match chs with
  | [] => []
  | c :: rest =>
      [map (fun total => total / of_nat (length chs))
           (fold_left (pointwise Qplus) rest c)]
  end.

End QTensor.

(** ** lighting_tf.py: the fitters over rational samples *)

Module Fitters.
Import PyStr QTensor.
Open Scope string_scope.
Open Scope list_scope.

(** *** _simple_percentile *)

(** The values the variable [real_pixels] holds in turn: the list of 1-D
    tensors passed in, the 2-D tensor made of it, and a 1-D tensor once the
    loop has rebound the name. *)
Inductive pixels_value : Type :=
| PyList (channels : list (list Q))
| Tensor2 (rows : list (list Q))
| Tensor1 (values : list Q).

(** [real_pixels[channel].reshape(-1)]. *)
Definition index_reshape (v : pixels_value) (channel : nat)
  : result (list Q) :=
  match v with
  | PyList rows | Tensor2 rows => index rows channel
  | Tensor1 values => x <- index values channel ;; Ok [x]
  end.

(** [0 <= percentile <= 1]. *)
Definition in_unit (percentile : PyFloat.float) : bool :=
  PyFloat.leb (PyFloat.of_Z 0) percentile
  && PyFloat.leb percentile (PyFloat.of_Z 1).

(** [round(min(percentile, 1 - percentile) * 100)]. *)
Definition percentile_fold (percentile : PyFloat.float) : result Z :=
  PyFloat.round
    (PyFloat.mul
       (PyFloat.min percentile (PyFloat.sub (PyFloat.of_Z 1) percentile))
       (PyFloat.of_Z 100)).

(** The channel selection of [_simple_percentile] and the value of
    [real_pixels] when the loop starts. *)
Definition percentile_channels (real_pixels : list (list Q)) (mode : string)
  : result (list nat * pixels_value) :=
  if contains "-sv" mode then Ok ([1; 2]%nat, PyList real_pixels)
  else if contains "-l" mode then Ok ([0]%nat, PyList real_pixels)
  else rows <- stack real_pixels ;; Ok ([0]%nat, Tensor2 [concat rows]).

(** [[max_ - min_, min_]] for the two percentiles of one sample. *)
Definition percentile_pair (sample : list Q) (pct : Z)
  : result (num * num) :=
  min_ <- nanpercentile sample pct ;;
  max_ <- nanpercentile sample (100 - pct) ;;
  Ok (nsub max_ min_, min_).

(** One turn of the loop: it rebinds [real_pixels] and fills one row of
    [coeffs]. *)
Definition percentile_step (pct : Z)
    (state : pixels_value * list (num * num)) (channel : nat)
  : result (pixels_value * list (num * num)) :=
  let '(real_pixels, coeffs) := state in
  real_pixels' <- index_reshape real_pixels channel ;;
  row <- percentile_pair real_pixels' pct ;;
  Ok (Tensor1 real_pixels', coeffs ++ [row]).

Definition _simple_percentile (real_pixels : list (list Q)) (mode : string)
    (percentile : PyFloat.float) : result (list (num * num)) :=
  if negb (in_unit percentile) then Raise AssertionError
  else
    pct <- percentile_fold percentile ;;
    ' (channels, pixels) <- percentile_channels real_pixels mode ;;
    ' (_, coeffs) <- for_each channels (percentile_step pct) (pixels, []) ;;
    Ok coeffs.

(** *** _fit_polynomial *)

(** An image or mask with its batch and spatial axes flattened: one list
    of entries per channel. *)
Definition image : Type := list (list Q).

Section FitPolynomial.
(** Kornia and NumPy. *)
Variable transform : Type.
Variable warp_perspective : image -> transform -> nat -> string -> image.
Variable rgb_to_hsv : image -> image.
Variable rgb_to_lab : image -> image.
Variable polyfit : list Q -> list Q -> nat -> result (list num).

(** The color conversion and the channel reduction chosen by [mode]. *)
Definition convert (mode : string) (syn_obj : image) : image :=
  if contains "hsv" mode then rgb_to_hsv syn_obj
  else if contains "lab" mode then rgb_to_lab syn_obj
  else syn_obj.

Definition reduce (mode : string) (syn_obj real : image)
  : image * image * list nat :=
  if String.eqb mode "max"
  then (max_over_channels syn_obj, max_over_channels real, [0]%nat)
  else if String.eqb mode "mean"
  then (mean_over_channels syn_obj, mean_over_channels real, [0]%nat)
  else if contains "-sv" mode then (syn_obj, real, [1; 2]%nat)
  else if contains "-l" mode then (syn_obj, real, [0]%nat)
  else (syn_obj, real, [0; 1; 2]%nat).

(** [round((1 - percentile) * len(real_pixels))]. *)
Definition num_kept (percentile : PyFloat.float) (n : nat) : result Z :=
  PyFloat.round
    (PyFloat.mul (PyFloat.sub (PyFloat.of_Z 1) percentile)
                 (PyFloat.of_Z (Z.of_nat n))).

(** The pixels left after the pairs with the largest [|syn - real|] are
    dropped. *)
Definition keep (syn_pixels real_pixels : list Q)
    (percentile : PyFloat.float) : result (list Q * list Q) :=
  k <- num_kept percentile (length real_pixels) ;;
  diff <- broadcast_sub syn_pixels real_pixels ;;
  indices <- topk_smallest (map Qabs diff) k ;;
  syn_kept <- gather syn_pixels indices ;;
  real_kept <- gather real_pixels indices ;;
  Ok (syn_kept, real_kept).

(** [torch.zeros(polynomial_degree + 1)] with its last entry set. *)
Definition constant_poly (polynomial_degree : nat) (c : num) : list num :=
  repeat (fin 0) polynomial_degree ++ [c].

(** The polynomial of one channel, from the kept pixels. *)
Definition fit_kept (syn_pixels real_pixels : list Q)
    (polynomial_degree : nat) : result (list num) :=
  if Qeq_bool (qsum syn_pixels) 0
  then Ok (constant_poly polynomial_degree (mean real_pixels))
  else polyfit syn_pixels real_pixels polynomial_degree.

(** [syn_pixels] and [real_pixels] of one channel once the outliers
    are dropped. *)
Definition kept_pixels (syn_obj real : image) (mask : list bool)
    (percentile : PyFloat.float) (channel : nat)
  : result (list Q * list Q) :=
  syn_channel <- index syn_obj channel ;;
  syn_pixels <- masked_select syn_channel mask ;;
  real_pixels <- index real channel ;;
  keep syn_pixels real_pixels percentile.

(** The body of the loop over [channels]. *)
Definition fit_channel (syn_obj real : image) (mask : list bool)
    (polynomial_degree : nat) (percentile : PyFloat.float)
    (channel : nat) : result (list num) :=
  ' (syn_kept, real_kept) <-
      kept_pixels syn_obj real mask percentile channel ;;
  fit_kept syn_kept real_kept polynomial_degree.

(** What precedes the loop: the warped, converted and reduced synthetic
    object, the stacked and reduced real pixels, and [channels]. *)
Definition prepare (real_pixels_by_channel : list (list Q))
    (syn_obj : option image) (warped_obj_mask : list bool)
    (transform_mat : transform) (interp : string) (mode : string)
  : result (image * image * list nat) :=
  match syn_obj with
  | None => Raise ValueError
  | Some syn_obj =>
      let syn_obj :=
        warp_perspective syn_obj transform_mat
                         (length warped_obj_mask) interp in
      let syn_obj := convert mode syn_obj in
      real <- stack real_pixels_by_channel ;;
      Ok (reduce mode syn_obj real)
  end.

Definition _fit_polynomial (real_pixels_by_channel : list (list Q))
    (syn_obj : option image) (warped_obj_mask : list bool)
    (transform_mat : transform) (interp : string)
    (polynomial_degree : nat) (percentile : PyFloat.float)
    (mode : string) : result (list (list num)) :=
  ' (syn_obj, real, channels) <-
      prepare real_pixels_by_channel syn_obj warped_obj_mask
              transform_mat interp mode ;;
  coeffs <- map_result
              (fit_channel syn_obj real warped_obj_mask polynomial_degree
                           percentile)
              channels ;;
  stack coeffs.

End FitPolynomial.

Arguments prepare {transform} _ _ _ _ _ _ _ _ _.
Arguments _fit_polynomial {transform} _ _ _ _ _ _ _ _ _ _ _ _.

End Fitters.

(** ** Tensors of reals *)

Module RTensor.
Open Scope R_scope.

(** An entry of a float tensor: a number or NaN. *)
Definition num : Type := option R.
Definition NaN : num := None.
Definition fin (x : R) : num := Some x.

Definition lift2 (op : R -> R -> R) (a b : num) : num :=
  match a, b with
  | Some x, Some y => Some (op x y)
  | _, _ => None
  end.

Definition nsub : num -> num -> num := lift2 Rminus.
Definition nmul : num -> num -> num := lift2 Rmult.

(** Every divisor in this development is clamped to at least [_EPS]. *)
Definition ndiv : num -> num -> num := lift2 Rdiv.

Definition isnan (a : num) : bool :=
  match a with
  | Some _ => false
  | None => true
  end.

(** [x.clamp_min(lo)]: NaN stays NaN. *)
Definition clamp_min (a : num) (lo : R) : num :=
  match a with
  | Some x => Some (Rmax x lo)
  | None => None
  end.

Definition rsum (xs : list R) : R := fold_right Rplus 0 xs.

(** The mean of a sample that is not empty. *)
Definition average (xs : list R) : R := rsum xs / INR (length xs).

(** [xs.mean()]: NaN over no element. *)
Definition mean (xs : list R) : num :=
  match xs with
  | [] => NaN
  | _ => fin (average xs)
  end.

(** The sample deviation, for a sample of two elements or more. *)
Definition deviation (xs : list R) : R :=
  let m := average xs in
  sqrt (rsum (map (fun x => (x - m) * (x - m)) xs) / INR (length xs - 1)).

(** [xs.std()], with Bessel's correction: NaN under two elements. *)
Definition std (xs : list R) : num :=
  if Nat.ltb (length xs) 2 then NaN else fin (deviation xs).

(** Three channels. *)
Definition triple (A : Type) : Type := (A * A * A)%type.

Definition chan {A} (c : nat) (p : triple A) : result A :=
  let '(x0, x1, x2) := p in
  match c with
  | 0%nat => Ok x0
  | 1%nat => Ok x1
  | 2%nat => Ok x2
  | _ => Raise IndexError
  end.

Definition set_chan {A} (c : nat) (v : A) (p : triple A)
  : result (triple A) :=
  let '(x0, x1, x2) := p in
  match c with
  | 0%nat => Ok (v, x1, x2)
  | 1%nat => Ok (x0, v, x2)
  | 2%nat => Ok (x0, x1, v)
  | _ => Raise IndexError
  end.

Definition map3 {A B} (f : A -> B) (p : triple A) : triple B :=
  let '(x0, x1, x2) := p in (f x0, f x1, f x2).

Definition to_list {A} (p : triple A) : list A :=
  let '(x0, x1, x2) := p in [x0; x1; x2].

Definition vec3 : Type := triple R.
Definition mat3 : Type := triple vec3.

(** [einsum("c,cd->d", v, m)]. *)
Definition vecmat (v : vec3) (m : mat3) : vec3 :=
  let '(v0, v1, v2) := v in
  let '((m00, m01, m02), (m10, m11, m12), (m20, m21, m22)) := m in
  (v0 * m00 + v1 * m10 + v2 * m20,
   v0 * m01 + v1 * m11 + v2 * m21,
   v0 * m02 + v1 * m12 + v2 * m22).

(** [a @ b]. *)
Definition matmul (a b : mat3) : mat3 := map3 (fun row => vecmat row b) a.

(** A pixel, an image flattened over its spatial axes, a batch. *)
Definition pixel : Type := vec3.
Definition image : Type := list pixel.
Definition batch : Type := list image.

(** [x.clamp(lo, hi)]. *)
Definition clamp (lo hi x : R) : R := Rmin (Rmax x lo) hi.

End RTensor.

(** ** lighting_tf.py: the custom Lab converters *)

Module Lab.
Import RTensor.
Open Scope R_scope.

Definition _EPS : R := 1 / 1000000.

Definition scale : mat3 :=
  ((1 / sqrt 3, 0, 0),
   (0, 1 / sqrt 6, 0),
   (0, 0, 1 / sqrt 2)).

Module RGBtoLab.
Definition rgb_to_lms : mat3 :=
  ((3811 / 10000, 5783 / 10000, 402 / 10000),
   (1967 / 10000, 7244 / 10000, 782 / 10000),
   (241 / 10000, 1288 / 10000, 8444 / 10000)).

Definition loglms_to_lab : mat3 :=
  matmul scale ((1, 1, 1), (1, 1, -2), (1, -1, 0)).

Definition forward_pixel (p : pixel) : pixel :=
  let inputs := map3 (clamp _EPS (1 - _EPS)) p in
  let lms := vecmat inputs rgb_to_lms in
  vecmat (map3 ln lms) loglms_to_lab.

Definition forward (inputs : batch) : batch :=
  map (map forward_pixel) inputs.
End RGBtoLab.

Module LabtoRGB.
Definition lab_to_loglms : mat3 :=
  matmul ((1, 1, 1), (1, 1, -1), (1, -2, 0)) scale.

Definition lms_to_rgb : mat3 :=
  ((44679 / 10000, -35873 / 10000, 1193 / 10000),
   (-12186 / 10000, 23809 / 10000, -1624 / 10000),
   (497 / 10000, -2439 / 10000, 12045 / 10000)).

Definition forward_pixel (p : pixel) : pixel :=
  let loglms := vecmat p lab_to_loglms in
  vecmat (map3 exp loglms) lms_to_rgb.

Definition forward (inputs : batch) : batch :=
  map (map forward_pixel) inputs.
End LabtoRGB.

(** An RGB pixel with its three values in [0, 1]. *)
Definition in_unit_cube (p : pixel) : Prop :=
  let '(p0, p1, p2) := p in
  0 <= p0 <= 1 /\ 0 <= p1 <= 1 /\ 0 <= p2 <= 1.

(** Two pixels differ by at most [tol] in every channel. *)
Definition within (tol : R) (p q : pixel) : Prop :=
  let '(p0, p1, p2) := p in
  let '(q0, q1, q2) := q in
  Rabs (q0 - p0) <= tol /\ Rabs (q1 - p1) <= tol /\ Rabs (q2 - p2) <= tol.

End Lab.

(** ** lighting_tf.py: _get_color_transfer_params *)

Module ColorTransferFit.
Import PyStr RTensor.
Open Scope string_scope.
Open Scope list_scope.

Section Fit.
(** [kornia.color.rgb_to_hsv]. *)
Variable rgb_to_hsv : image -> image.

(** The conversion chosen by [mode]; [syn_obj] defaults to [None]. *)
Definition convert (mode : string) (syn_obj : option image)
  : result image :=
  match syn_obj with
  | Some syn_obj =>
      if contains "hsv" mode then Ok (rgb_to_hsv syn_obj)
      else if contains "lab" mode
           then Ok (map Lab.RGBtoLab.forward_pixel syn_obj)
      else Ok syn_obj
  | None =>
      if contains "hsv" mode then Raise TypeError
      else if contains "lab" mode then Raise AttributeError
      else Raise TypeError
  end.

(** [syn_obj[:, channel]]. *)
Definition channel_of (syn_obj : image) (channel : nat)
  : result (list R) :=
  map_result (chan channel) syn_obj.

(** [torch.masked_select(syn_obj[:, channel], obj_mask)]. *)
Definition syn_pixels_of (syn_obj : image) (obj_mask : list bool)
    (channel : nat) : result (list R) :=
  syn_channel <- channel_of syn_obj channel ;;
  masked_select syn_channel obj_mask.

(** The body of the loop: row [channel] of [coeffs]. *)
Definition fit_channel (real_pixels_by_channel : list (list R))
    (syn_obj : image) (obj_mask : list bool) (channel : nat)
  : result (num * num) :=
  syn_pixels <- syn_pixels_of syn_obj obj_mask channel ;;
  real_pixels <- index real_pixels_by_channel channel ;;
  let scale :=
    ndiv (std real_pixels) (clamp_min (std syn_pixels) Lab._EPS) in
  let offset := nsub (mean real_pixels) (nmul (mean syn_pixels) scale) in
  Ok (scale, offset).

(** [coeffs] when the loop ends, before the assertion. *)
Definition fitted_coeffs (real_pixels_by_channel : list (list R))
    (syn_obj : option image) (obj_mask : list bool) (mode : string)
  : result (list (num * num)) :=
  syn_obj <- convert mode syn_obj ;;
  map_result (fit_channel real_pixels_by_channel syn_obj obj_mask)
             [0; 1; 2]%nat.

(** [coeffs.isnan().any()]. *)
Definition any_nan (coeffs : list (num * num)) : bool :=
  existsb (fun '(a, b) => isnan a || isnan b) coeffs.

Definition _get_color_transfer_params
    (real_pixels_by_channel : list (list R)) (syn_obj : option image)
    (obj_mask : list bool) (mode : string)
  : result (list (num * num)) :=
  coeffs <- fitted_coeffs real_pixels_by_channel syn_obj obj_mask mode ;;
  if any_nan coeffs then Raise AssertionError else Ok coeffs.

End Fit.

(** The coefficients as the specification words them: the deviation of
    the real sample over the deviation of the synthetic sample, the latter
    not below [_EPS]; the real mean minus the synthetic mean times that
    scale. *)
Definition transfer_scale (real syn : list R) : R :=
  (deviation real / Rmax (deviation syn) Lab._EPS)%R.

Definition transfer_offset (real syn : list R) : R :=
  (average real - average syn * transfer_scale real syn)%R.

End ColorTransferFit.

(** ** lighting_tf.py: applying fitted coefficients

    Entries are exact reals here: the module carries the algebra of the
    two functions, which polynomial is evaluated and which channels are
    rewritten.  What they do with NaN and infinite entries, and the log
    of [_color_transfer], are in [FloatApply]. *)

Module Apply.
Import RTensor.
Open Scope R_scope.

(** A converter between color spaces; each one [RelightTransform]
    installs maps every pixel on its own. *)
Definition color_tf : Type := pixel -> pixel.

(** What [logger.debug] is called with. *)
Record log_record : Type := mk_log {
  num_oob_pixels : nat;
  numel : nat;
  min_value : R;
  max_value : R
}.

Definition clamp_batch (b : batch) : batch :=
  map (map (map3 (clamp 0 1))) b.

Definition apply_tf (f : color_tf) (b : batch) : batch := map (map f) b.

(** Broadcasting along the batch axis of two tensors. *)
Definition broadcast {A B} (xs : list A) (ys : list B)
  : result (list (A * B)) :=
  if Nat.eqb (length xs) (length ys) then Ok (combine xs ys)
  else match xs, ys with
       | _, [y] => Ok (map (fun x => (x, y)) xs)
       | [x], _ => Ok (map (fun y => (x, y)) ys)
       | _, _ => Raise RuntimeError
       end.

(** Broadcasting the right operand to the batch size of the left one, as
    an assignment into the left one needs. *)
Definition broadcast_to {A B} (xs : list A) (ys : list B)
  : result (list (A * B)) :=
  if Nat.eqb (length xs) (length ys) then Ok (combine xs ys)
  else match ys with
       | [y] => Ok (map (fun x => (x, y)) xs)
       | _ => Raise RuntimeError
       end.

(** *** _no_relight *)

Definition _no_relight (inputs : batch) : batch := inputs.

(** *** _color_transfer *)

(** [ct_coeffs.view(-1, 3, 2, 1, 1)]: per batch entry and channel, a scale
    and an offset. *)
Definition ct_coeffs_t : Type := list (triple (R * R)).

Definition affine (k : R * R) (x : R) : R := x * fst k + snd k.

(** [lab * ct_coeffs[:, :, 0] + ct_coeffs[:, :, 1]]. *)
Definition affine_all (lab : batch) (ct_coeffs : ct_coeffs_t)
  : result batch :=
  pairs <- broadcast lab ct_coeffs ;;
  Ok (map (fun '(img, (k0, k1, k2)) =>
             map (fun '(x0, x1, x2) =>
                    (affine k0 x0, affine k1 x1, affine k2 x2)) img)
          pairs).

(** One pixel of [lab_out] with its entry [channel] taken from the
    rescaled pixel of [lab]. *)
Definition assign_pixel (channel : nat) (k : triple (R * R))
    (px : pixel * pixel) : result pixel :=
  let '(out_px, lab_px) := px in
  kc <- chan channel k ;;
  x <- chan channel lab_px ;;
  set_chan channel (affine kc x) out_px.

(** [lab_out[:, channel] = lab[:, channel] * ct_coeffs[:, channel, 0]
    + ct_coeffs[:, channel, 1]]. *)
Definition assign_channel (lab : batch) (ct_coeffs : ct_coeffs_t)
    (lab_out : batch) (channel : nat) : result batch :=
  if Nat.leb 3 channel then Raise IndexError
  else
    pairs <- broadcast_to (combine lab_out lab) ct_coeffs ;;
    map_result
      (fun '((img_out, img), k) =>
         map_result (assign_pixel channel k) (combine img_out img))
      pairs.

(** [rgb_out] before the out-of-range test. *)
Definition color_transfer_raw (inputs : batch) (ct_coeffs : ct_coeffs_t)
    (channels : option (list nat))
    (color_space_transforms : option (color_tf * color_tf))
  : result batch :=
  match color_space_transforms with
  | None => Raise TypeError
  | Some (to_space, to_rgb) =>
      let lab := apply_tf to_space inputs in
      lab_out <-
        match channels with
        | Some channels =>
            for_each channels (assign_channel lab ct_coeffs) lab
        | None => affine_all lab ct_coeffs
        end ;;
      Ok (apply_tf to_rgb lab_out)
  end.

(** *** _polynomial_match *)

(** [poly_coeffs], of three axes: batch, channel, degree.  The sizes of
    the last two axes are read off the first entries. *)
Definition poly_coeffs_t : Type := list (list (list R)).

Definition num_channels (poly_coeffs : poly_coeffs_t) : nat :=
  length (hd [] poly_coeffs).

Definition num_degrees (poly_coeffs : poly_coeffs_t) : nat :=
  length (hd [] (hd [] poly_coeffs)).

(** [(x.pow(degrees) * row).sum()] with
    [degrees = [deg - 1, ..., 1, 0]]. *)
Definition poly_eval (deg : nat) (row : list R) (x : R) : R :=
  rsum (map (fun i => x ^ (deg - 1 - i) * nth i row 0) (seq 0 deg)).

(** [einsum("bcdhw, bcd -> bchw", outputs, poly_coeffs)] for one batch
    entry, the channel axis of [poly_coeffs] having size 1 or 3. *)
Definition poly_all (deg : nat) (rows : list (list R)) (img : image)
  : image :=
  let row c := match rows with
               | [r] => r
               | _ => nth c rows []
               end in
  map (fun '(x0, x1, x2) =>
         (poly_eval deg (row 0%nat) x0,
          poly_eval deg (row 1%nat) x1,
          poly_eval deg (row 2%nat) x2)) img.

(** [channels.index(channel)]. *)
Fixpoint position (channel : nat) (channels : list nat) : option nat :=
  match channels with
  | [] => None
  | c :: rest =>
      if Nat.eqb c channel then Some 0%nat
      else option_map S (position channel rest)
  end.

(** One channel of the output when [channels] is given: the polynomial of
    the selected channel, the input of the others. *)
Definition poly_channel (deg : nat) (channels : list nat)
    (rows : list (list R)) (channel : nat) (x : R) : result R :=
  match position channel channels with
  | Some i => row <- index rows i ;; Ok (poly_eval deg row x)
  | None => Ok x
  end.

(** Whether [poly_coeffs[:, channels.index(channel)]] is within the
    channel axis, for a [channel] in [channels]. *)
Definition selected_in_range (channels : list nat) (size : nat)
    (channel : nat) : bool :=
  match position channel channels with
  | Some i => Nat.ltb i size
  | None => true
  end.

Definition poly_selected (deg : nat) (channels : list nat)
    (rows : list (list R)) (img : image) : result image :=
  map_result
    (fun '(x0, x1, x2) =>
       y0 <- poly_channel deg channels rows 0 x0 ;;
       y1 <- poly_channel deg channels rows 1 x1 ;;
       y2 <- poly_channel deg channels rows 2 x2 ;;
       Ok (y0, y1, y2))
    img.

(** [outputs] before [outputs.clamp_(0, 1)]. *)
Definition polynomial_raw (inputs : batch) (poly_coeffs : poly_coeffs_t)
    (channels : option (list nat))
    (color_space_transforms : option (color_tf * color_tf))
  : result batch :=
  if negb (Nat.eqb (length poly_coeffs) (length inputs))
     && negb (Nat.eqb (length poly_coeffs) 1)
  then Raise ValueError
  else if match channels with
          | None => negb (Nat.eqb (num_channels poly_coeffs) 1
                          || Nat.eqb (num_channels poly_coeffs) 3)
          | Some _ => false
          end
  then Raise ValueError
  else
    let deg := num_degrees poly_coeffs in
    let inputs :=
      match color_space_transforms with
      | Some (to_space, _) => apply_tf to_space inputs
      | None => inputs
      end in
    pairs <- broadcast_to inputs poly_coeffs ;;
    outputs <-
      match channels with
      | None => Ok (map (fun '(img, rows) => poly_all deg rows img) pairs)
      | Some channels =>
          if forallb (selected_in_range channels
                                        (num_channels poly_coeffs))
                     [0; 1; 2]%nat
          then map_result
                 (fun '(img, rows) => poly_selected deg channels rows img)
                 pairs
          else Raise IndexError
      end ;;
    Ok match color_space_transforms with
       | Some (_, to_rgb) => apply_tf to_rgb outputs
       | None => outputs
       end.

(** The function never calls the logger. *)
Definition _polynomial_match (inputs : batch) (poly_coeffs : poly_coeffs_t)
    (channels : option (list nat))
    (color_space_transforms : option (color_tf * color_tf))
  : result (batch * list log_record) :=
  outputs <- polynomial_raw inputs poly_coeffs channels
                            color_space_transforms ;;
  Ok (clamp_batch outputs, []).

(** *** Shapes the two functions accept *)

(** [ct_coeffs] against [inputs]: one entry per image or a single entry;
    without [channels] a single image is broadcast as well. *)
Definition valid_ct_shape (inputs : batch) (ct_coeffs : ct_coeffs_t)
    (channels : option (list nat)) : Prop :=
  match channels with
  | Some channels =>
      Forall (fun c => (c < 3)%nat) channels
      /\ (length ct_coeffs = length inputs \/ length ct_coeffs = 1%nat)
  | None =>
      length ct_coeffs = length inputs \/ length ct_coeffs = 1%nat
      \/ length inputs = 1%nat
  end.

(** [poly_coeffs] against [inputs]: a rectangular tensor with one entry
    per image or a single entry, and a channel axis of size 1 or 3, or
    wide enough for every selected channel. *)
Definition valid_poly_shape (inputs : batch) (poly_coeffs : poly_coeffs_t)
    (channels : option (list nat)) : Prop :=
  (length poly_coeffs = length inputs \/ length poly_coeffs = 1%nat)
  /\ Forall (fun rows => length rows = num_channels poly_coeffs)
            poly_coeffs
  /\ match channels with
     | None => num_channels poly_coeffs = 1%nat
               \/ num_channels poly_coeffs = 3%nat
     | Some channels =>
         forall c i, (c < 3)%nat -> position c channels = Some i ->
                     (i < num_channels poly_coeffs)%nat
     end.

End Apply.

(** ** run_realism_test_main.py: the matrix of the sign transform *)

Module RealismTest.
Import PyStr.
Open Scope string_scope.
Open Scope list_scope.
Open Scope Q_scope.

Definition IMG_WIDTH : Q := 2048.

Definition point : Type := (Q * Q)%type.

(** A matrix as its list of rows; [sign_tf_matrix] is a batch of them. *)
Definition matrix : Type := list (list Q).

(** The annotated corners [[sign_x1, sign_y1], ...]. *)
Definition corners : Type := list point.

(** [tgt *= IMG_WIDTH / 6036]. *)
Definition rescale (tgt : list point) : list point :=
  map (fun '(x, y) => (x * (IMG_WIDTH / 6036), y * (IMG_WIDTH / 6036))) tgt.

(** [torch.cat((a, b), dim=1)] of two batches of matrices: the batch
    sizes and the row lengths must agree. *)
Definition row_lengths_agree (a b : matrix) : bool :=
  match a ++ b with
  | [] => true
  | r :: rest => forallb (fun r' => Nat.eqb (length r') (length r)) rest
  end.

Definition cat_dim1 (a b : list matrix) : result (list matrix) :=
  if Nat.eqb (length a) (length b)
     && forallb (fun '(x, y) => row_lengths_agree x y) (combine a b)
  then Ok (map (fun '(x, y) => x ++ y) (combine a b))
  else Raise RuntimeError.

(** The six-parameter system [a x + b y + c = u], [d x + e y + f = v]
    through three correspondences, solved exactly by Cramer's rule: the
    matrix [cv.getAffineTransform] computes in floating point when the
    points are not collinear.  It serves to run the definitions below on
    an example. *)
Definition solve_affine (src tgt : list point) : result matrix :=
  match src, tgt with
  | [(x0, y0); (x1, y1); (x2, y2)], [(u0, v0); (u1, v1); (u2, v2)] =>
      let d := x0 * (y1 - y2) - y0 * (x1 - x2) + (x1 * y2 - x2 * y1) in
      let row w0 w1 w2 :=
        [(w0 * (y1 - y2) - y0 * (w1 - w2) + (w1 * y2 - w2 * y1)) / d;
         (x0 * (w1 - w2) - w0 * (x1 - x2) + (x1 * w2 - x2 * w1)) / d;
         (x0 * (y1 * w2 - y2 * w1) - y0 * (x1 * w2 - x2 * w1)
          + w0 * (x1 * y2 - x2 * y1)) / d] in
      if Qeq_bool d 0 then Raise RuntimeError
      else Ok [row u0 u1 u2; row v0 v1 v2]
  | _, _ => Raise RuntimeError
  end.

Section SignTransform.
(** [cv.getAffineTransform] and Kornia's [get_perspective_transform]. *)
Variable getAffineTransform : list point -> list point -> result matrix.
Variable get_perspective_transform :
  list point -> list point -> result (list matrix).

(** Whether the affine branch is the one taken. *)
Definition affine_path (geo_method : string) (src : list point) : bool :=
  (String.eqb geo_method "affine" || String.eqb geo_method "perspective")
  && (Nat.eqb (length src) 3 || String.eqb geo_method "affine").

(** [sign_tf_matrix] after the block
    [if geo_method in ("affine", "perspective")], [None] when the block
    is skipped. *)
Definition sign_tf_matrix (geo_method : string) (src : list point)
    (sign : corners) : result (option (list matrix)) :=
  if String.eqb geo_method "affine" || String.eqb geo_method "perspective"
  then
    if Nat.eqb (length src) 3 || String.eqb geo_method "affine"
    then
      let tgt := rescale (firstn 3 sign) in
      m <- getAffineTransform (firstn 3 src) tgt ;;
      out <- cat_dim1 [m] [[[0; 0; 1]]] ;;
      Ok (Some out)
    else
      let tgt := rescale (firstn 4 sign) in
      out <- get_perspective_transform src tgt ;;
      Ok (Some out)
  else Ok None.

End SignTransform.

End RealismTest.

(** ** lighting_tf.py: compute_relight_params *)

Module RelightParams.
Import PyStr.
Open Scope string_scope.

(** What [compute_relight_params] returns: the pair [1.0, 0.0], or the
    tensor of a fitter. *)
Inductive params (coeffs : Type) : Type :=
| Identity
| Coeffs (c : coeffs).

Arguments Identity {coeffs}.
Arguments Coeffs {coeffs} c.

(** [method.split("_")[-1]]. *)
Definition mode_of (method : string) : string :=
  last_part (split "_" method).

(** The conversion [img] goes through before its pixels are sampled, named
    by the pair of converters of [RelightTransform] it is the first member
    of; [None] when [img] stays in RGB. *)
Definition img_conversion (method : string)
  : option RelightTransform.color_tfs :=
  let mode := mode_of method in
  if contains "hsv" mode then Some RelightTransform.KorniaHsv
  else if contains "lab" mode && contains "color_transfer" method
       then Some RelightTransform.CustomLab
  else if contains "lab" mode then Some RelightTransform.KorniaLab
  else None.

(** The three fitters. *)
Inductive fitter : Set :=
| SimplePercentile
| FitPolynomial
| GetColorTransferParams.

(** The fitter the last [if] of the function calls. *)
Definition selected_fitter (method : string) : result fitter :=
  if contains "percentile" method then Ok SimplePercentile
  else if contains "polynomial" method then Ok FitPolynomial
  else if contains "color_transfer" method then Ok GetColorTransferParams
  else Raise NotImplementedError.

Section ComputeRelightParams.
(** Tensors, keyword arguments, and the functions of Kornia and of the
    other modules of the package. *)
Variables image mask bool_mask matrix points pixels coeffs kwargs : Type.
Variable size : image -> nat.
Variable coerce_rank_image : image -> result image.
Variable coerce_rank_mask : option mask -> result mask.
Variable get_transform_matrix :
  option points -> option points -> string -> result matrix.
Variable warp_mask : mask -> matrix -> image -> mask.
Variable warp_image : image -> matrix -> mask -> string -> image.
Variable convert_by : RelightTransform.color_tfs -> image -> image.
Variable equals_one : mask -> bool_mask.
Variable masked_select_channels : image -> bool_mask -> result (list pixels).
(** The fitters, with the keyword arguments they are passed. *)
Variable _simple_percentile : list pixels -> string -> kwargs -> result coeffs.
Variable _fit_polynomial :
  list pixels -> bool_mask -> option matrix -> string -> string -> kwargs
  -> result coeffs.
Variable _get_color_transfer_params :
  list pixels -> bool_mask -> string -> kwargs -> result coeffs.

(** [transform_mat], computed from the points when it is [None]. *)
Definition matrix_or (transform_mat : option matrix)
    (src tgt : option points) (transform_mode : string) : result matrix :=
  match transform_mat with
  | Some m => Ok m
  | None => get_transform_matrix src tgt transform_mode
  end.

(** The first [if]: the mask is warped onto the image for the percentile
    and polynomial methods, the image onto the mask for color transfer. *)
Definition warp (method : string) (img : image) (obj_mask : mask)
    (transform_mat : option matrix) (src_points tgt_points : option points)
    (transform_mode interp : string)
  : result (image * mask * option matrix) :=
  if contains "percentile" method || contains "polynomial" method then
    m <- matrix_or transform_mat src_points tgt_points transform_mode ;;
    Ok (img, warp_mask obj_mask m img, Some m)
  else if contains "color_transfer" method then
    m <- matrix_or transform_mat tgt_points src_points transform_mode ;;
    Ok (warp_image img m obj_mask interp, obj_mask, Some m)
  else Ok (img, obj_mask, transform_mat).

Definition compute_relight_params (img : image) (method : option string)
    (obj_mask : option mask) (transform_mat : option matrix)
    (src_points tgt_points : option points)
    (transform_mode interp : string) (relight_kwargs : kwargs)
  : result (params coeffs) :=
  match method with
  | None => Ok Identity
  | Some method =>
      if Nat.eqb (size img) 0 || String.eqb method "none" then Ok Identity
      else
        img <- coerce_rank_image img ;;
        obj_mask <- coerce_rank_mask obj_mask ;;
        ' (img, obj_mask, transform_mat) <-
            warp method img obj_mask transform_mat src_points tgt_points
                 transform_mode interp ;;
        let mode := mode_of method in
        let img := match img_conversion method with
                   | Some conversion => convert_by conversion img
                   | None => img
                   end in
        let obj_mask := equals_one obj_mask in
        real_pixels <- masked_select_channels img obj_mask ;;
        coeffs <-
          match selected_fitter method with
          | Ok SimplePercentile =>
              _simple_percentile real_pixels mode relight_kwargs
          | Ok FitPolynomial =>
              _fit_polynomial real_pixels obj_mask transform_mat mode
                              interp relight_kwargs
          | Ok GetColorTransferParams =>
              _get_color_transfer_params real_pixels obj_mask mode
                                         relight_kwargs
          | Raise e => Raise e
          end ;;
        Ok (Coeffs coeffs)
  end.

End ComputeRelightParams.

End RelightParams.

(** ** run_realism_test_main.py: the translate-and-scale branch *)

Module TranslateScale.
Import RTensor.
Open Scope R_scope.

Definition IMG_WIDTH : R := 2048.

Definition point : Type := (R * R)%type.

(** [tgt *= IMG_WIDTH / 6036]. *)
Definition rescale (tgt : list point) : list point :=
  map (fun '(x, y) => (x * (IMG_WIDTH / 6036), y * (IMG_WIDTH / 6036))) tgt.

(** [np.roll(y, 1)]: the last entry comes first. *)
Definition roll (y : list R) : list R :=
  match y with
  | [] => []
  | _ => last y 0 :: removelast y
  end.

(** [np.dot(x, y)] of two vectors of one length. *)
Definition dot (x y : list R) : R :=
  rsum (map (fun '(a, b) => a * b) (combine x y)).

Definition compute_area (x y : list R) : R :=
  0.5 * Rabs (dot x (roll y) - dot y (roll x)).

(** [np.mean(points, axis=0)] of a list of points that is not empty. *)
Definition center (points : list point) : point :=
  (average (map fst points), average (map snd points)).

(** [patch_src_transformed] in the branch taken when [geo_method] is
    neither ["affine"] nor ["perspective"], for a source polygon of
    non-zero area. *)
Definition patch_src_transformed (src sign patch_src : list point)
  : list point :=
  let tgt := firstn (length src) (rescale sign) in
  let tgt_center := center tgt in
  let src_center := center src in
  let tgt_area := compute_area (map fst tgt) (map snd tgt) in
  let src_area := compute_area (map fst src) (map snd src) in
  let scale := sqrt (tgt_area / src_area) in
  map (fun '(x, y) =>
         ((x - fst src_center) * scale + fst tgt_center,
          (y - snd src_center) * scale + snd tgt_center))
      patch_src.

End TranslateScale.

(** ** mapillary.py: the samples of get_mapillary_dict *)

Module Mapillary.
Open Scope Q_scope.

Definition _NUM_KEYPOINTS : nat := 4.

Definition point : Type := (Q * Q)%type.

(** One line of a label file,
    [class_id, xmin, ymin, xmax, ymax, width, height, obj_id], its fields
    already read as numbers. *)
Record label : Set := mk_label {
  label_class_id : Z;
  label_xmin : Q;
  label_ymin : Q;
  label_xmax : Q;
  label_ymax : Q;
  label_width : Q;
  label_height : Q;
  label_obj_id : Z
}.

(** The rows of [anno_df] for one image: an object id and its
    [tgt_points]. *)
Definition img_df_t : Type := list (Z * list point).

(** The fields of an annotation that depend on the labels. *)
Record obj : Type := mk_obj {
  bbox : Q * Q * Q * Q;
  category_id : Z;
  object_id : Z;
  has_reap : bool;
  keypoints : list Q
}.

(** [img_df[img_df["object_id"] == obj_id]]. *)
Definition rows_of (img_df : img_df_t) (obj_id : Z) : img_df_t :=
  filter (fun row => Z.eqb (fst row) obj_id) img_df.

(** [sum(keypoints[i] for i in indices) / 3]. *)
Definition mean_of_three (keypoints : list Q) (i j k : nat) : result Q :=
  a <- index keypoints i ;;
  b <- index keypoints j ;;
  c <- index keypoints k ;;
  Ok ((0 + a + b + c) / 3).

(** The entries one target point adds to [keypoints]. *)
Definition keypoint_of (scales : Q * Q) (padding : Q * Q * Q * Q)
    (tgt : point) : list Q :=
  let '(scale0, scale1) := scales in
  let '(pad0, pad1, _, _) := padding in
  [fst tgt * scale1 + pad0; snd tgt * scale0 + pad1; 2].

(** The block that reads the REAP annotation of an object whose class is
    [class_id], not the background class. *)
Definition reap_keypoints (scales : Q * Q) (padding : Q * Q * Q * Q)
    (class_id bg_class : Z) (tgt_points : list point) : result (list Q) :=
  tgt_points <-
    (if Nat.ltb _NUM_KEYPOINTS (length tgt_points)
     then if Z.eqb class_id bg_class
          then Ok (firstn _NUM_KEYPOINTS tgt_points)
          else Raise AssertionError
     else Ok tgt_points) ;;
  let keypoints := flat_map (keypoint_of scales padding) tgt_points in
  keypoints <-
    (if Nat.eqb (length tgt_points) (_NUM_KEYPOINTS - 1)
     then x <- mean_of_three keypoints 0 3 6 ;;
          y <- mean_of_three keypoints 1 4 7 ;;
          Ok (keypoints ++ [x; y; 2])
     else Ok keypoints) ;;
  if Nat.eqb (length keypoints) (_NUM_KEYPOINTS * 3)
     && forallb (fun i => match nth_error keypoints i with
                          | Some v => Qeq_bool v 2
                          | None => false
                          end)
                [2; 5; 8; 11]%nat
  then Ok keypoints
  else Raise AssertionError.

(** The body of the loop over the lines of a label file: [None] when the
    object is left out. *)
Definition make_obj (scales : Q * Q) (padding : Q * Q * Q * Q)
    (bg_class : Z) (ignore_bg_class : bool) (img_df : option img_df_t)
    (orig_obj : label) : result (option obj) :=
  let '(scale0, scale1) := scales in
  let '(pad0, pad1, _, _) := padding in
  let ymin := label_ymin orig_obj * scale0 + pad1 in
  let ymax := label_ymax orig_obj * scale0 + pad1 in
  let xmin := label_xmin orig_obj * scale1 + pad0 in
  let xmax := label_xmax orig_obj * scale1 + pad0 in
  let obj_id := label_obj_id orig_obj in
  let obj_df := option_map (fun df => rows_of df obj_id) img_df in
  let class_id :=
    match obj_df with
    | Some [] => bg_class
    | _ => label_class_id orig_obj
    end in
  if ignore_bg_class && Z.eqb class_id bg_class then Ok None
  else if negb ((0 <=? class_id)%Z && (class_id <=? bg_class)%Z)
  then Raise AssertionError
  else
    match obj_df with
    | Some ((_, tgt_points) :: _) =>
        if negb (Z.eqb class_id bg_class)
        then
          keypoints <- reap_keypoints scales padding class_id bg_class
                                      tgt_points ;;
          Ok (Some (mk_obj (xmin, ymin, xmax, ymax) class_id obj_id true
                           keypoints))
        else
          Ok (Some (mk_obj (xmin, ymin, xmax, ymax) class_id obj_id false
                           (repeat 0 (_NUM_KEYPOINTS * 3))))
    | _ =>
        Ok (Some (mk_obj (xmin, ymin, xmax, ymax) class_id obj_id false
                         (repeat 0 (_NUM_KEYPOINTS * 3))))
    end.

(** [objs] after the loop. *)
Definition image_objects (scales : Q * Q) (padding : Q * Q * Q * Q)
    (bg_class : Z) (ignore_bg_class : bool) (img_df : option img_df_t)
    (labels : list label) : result (list obj) :=
  made <- map_result (make_obj scales padding bg_class ignore_bg_class
                               img_df) labels ;;
  Ok (flat_map (fun o => match o with
                         | Some o => [o]
                         | None => []
                         end) made).

(** The annotations of the record of one image, [None] when the image is
    skipped. *)
Definition image_annotations (scales : Q * Q) (padding : Q * Q * Q * Q)
    (bg_class : Z) (ignore_bg_class : bool) (img_df : option img_df_t)
    (labels : list label) : result (option (list obj)) :=
  _ <- index labels 0 ;;
  objs <- image_objects scales padding bg_class ignore_bg_class img_df
                        labels ;;
  if Nat.eqb (length objs) 0
     || forallb (fun o => Z.eqb (category_id o) bg_class) objs
  then Ok None
  else Ok (Some objs).

End Mapillary.

(** ** lighting_tf.py: the k-means helpers *)

Module KMean.
Import QTensor.
Open Scope Q_scope.

(** [_best_k], for [n] at least 1 and a positive [loss_2]; losses are
    exact rationals. *)
Definition _best_k (loss_2 loss_3 : Q) (n : Z) : bool :=
  let alpha_2 := 1 - 3 / (4 * inject_Z n) in
  let alpha_3 := alpha_2 + (1 - alpha_2) / 6 in
  let score_2 := loss_2 / alpha_2 in
  let score_3 := loss_3 / (alpha_3 * loss_2) in
  negb (Qle_bool score_3 score_2).





End KMean.

(** ** dpatch_yolof.py: DPatchYolofAttack *)

Module DPatchYolof.
Open Scope Q_scope.

(** The attributes of the model the attack reads and writes.  [train]
    and [eval] act on the model and on the module it may wrap, the
    thresholds are those of the wrapped module; [attack_mode] is [None]
    while the attribute has not been set. *)
Record core_model : Set := mk_model {
  training : bool;
  attack_mode : option bool;
  test_nms_thresh : Q;
  test_score_thresh : Q;
  pos_ignore_thresh : Q
}.

Record attack : Set := mk_attack {
  _nms_thres : Q;
  _min_conf : Q;
  _iou_thres : Q;
  _nms_thres_orig : Q;
  _conf_thres_orig : Q;
  _iou_thres_orig : Q;
  _is_training : option bool
}.

(** [__init__], given what the initializer of the base attack has left in
    [_nms_thres], [_min_conf], [_iou_thres] and [_is_training] ([None]
    for an attribute it has not set). *)
Definition __init__ (nms_thres min_conf iou_thres : option Q)
    (is_training : option bool) (model : core_model) : attack :=
  let nms_thres_orig := test_nms_thresh model in
  let conf_thres_orig := test_score_thresh model in
  let iou_thres_orig := pos_ignore_thresh model in
  mk_attack
    (match nms_thres with Some v => v | None => nms_thres_orig end)
    (match min_conf with Some v => v | None => conf_thres_orig end)
    (match iou_thres with Some v => v | None => iou_thres_orig end)
    nms_thres_orig conf_thres_orig iou_thres_orig is_training.

Definition _on_enter_attack (state : attack * core_model)
  : attack * core_model :=
  let '(self, model) := state in
  (mk_attack (_nms_thres self) (_min_conf self) (_iou_thres self)
             (_nms_thres_orig self) (_conf_thres_orig self)
             (_iou_thres_orig self) (Some (training model)),
   mk_model false (Some true) (_nms_thres self) (_min_conf self)
            (_iou_thres self)).

(** AttributeError when [_is_training] has never been set. *)
Definition _on_exit_attack (state : attack * core_model)
  : result (attack * core_model) :=
  let '(self, model) := state in
  match _is_training self with
  | None => Raise AttributeError
  | Some is_training =>
      Ok (self,
          mk_model is_training (Some false) (_nms_thres_orig self)
                   (_conf_thres_orig self) (_iou_thres_orig self))
  end.

End DPatchYolof.

(** ** prep_mapillary_100.py: crops and pseudo-labels *)

Module PrepMapillary.
Open Scope string_scope.

(** [MTSD100_TO_SHAPE] as the list of its items, in insertion order.
    [label_list] is the list of its keys, so that [label_list[i]] is the
    key of item [i] and [MTSD100_TO_SHAPE[label_list[i]]] its value. *)
Definition class_table : Type := list (string * string).

(** The loop over [label[1:]]: the first alternative whose shape is the
    annotated one. *)
Fixpoint first_alternative (table : class_table) (orig_shape : string)
    (alternatives : list nat) : result (option (string * nat)) :=
  match alternatives with
  | [] => Ok None
  | alt_label :: rest =>
      ' (alt_class, alt_shape) <- index table alt_label ;;
      if String.eqb alt_shape orig_shape
      then Ok (Some (alt_class, alt_label))
      else first_alternative table orig_shape rest
  end.

(** [new_class] and [predicted_labels[i, 0]] at the end of one turn of
    the merging loop of [main], for an object the annotation gives the
    shape [orig_shape]; [label] holds the classes by decreasing
    confidence. *)
Definition corrected_label (table : class_table) (label : list nat)
    (orig_shape : string) : result (string * nat) :=
  label_0 <- index label 0 ;;
  ' (new_class, new_shape) <- index table label_0 ;;
  if negb (String.eqb new_shape orig_shape)
  then
    found <- first_alternative table orig_shape (tl label) ;;
    match found with
    | Some (alt_class, alt_label) => Ok (alt_class, alt_label)
    | None => Ok ("other", (length table - 1)%nat)
    end
  else Ok (new_class, label_0).

(** The square crop of [classify] around a bounding box, in the image
    padded by [pad_size]: [(xmin, ymin, xmax, ymax)].  [int] of a
    quotient truncates towards zero. *)
Definition crop_box (xmin ymin width height pad_size : Z)
  : Z * Z * Z * Z :=
  let size := Z.max width height in
  let xpad := Z.quot (size - width) 2 in
  let ypad := Z.quot (size - height) 2 in
  let xmin := Z.max (xmin + pad_size - xpad) 0 in
  let ymin := Z.max (ymin + pad_size - ypad) 0 in
  (xmin, ymin, (xmin + size)%Z, (ymin + size)%Z).

End PrepMapillary.

(** ** print_results_to_csv.py: _compute_ap_recall *)

Module ApRecall.
Import QTensor.
Open Scope Q_scope.

(** [np.linspace(0.0, 1.00, 101)]. *)
Definition recall_thresholds : list Q :=
  map (fun k => of_nat k / 100) (seq 0 101).

(** [np.argsort(-scores, kind="stable")]. *)
Definition argsort_descending (scores : list Q) : list nat :=
  map fst (sort_by (fun entry => - snd entry) (enumerate scores)).

(** [np.cumsum] of a boolean array, from a running count. *)
Fixpoint cumsum_from (count : nat) (flags : list bool) : list nat :=
  match flags with
  | [] => []
  | flag :: rest =>
      let count := (count + if flag then 1 else 0)%nat in
      count :: cumsum_from count rest
  end.

Definition cumsum (flags : list bool) : list nat := cumsum_from 0 flags.

(** [np.maximum.accumulate], from a running maximum. *)
Fixpoint accumulate_from (highest : Q) (values : list Q) : list Q :=
  match values with
  | [] => []
  | v :: rest =>
      let highest := Qmax highest v in
      highest :: accumulate_from highest rest
  end.

Definition maximum_accumulate (values : list Q) : list Q :=
  match values with
  | [] => []
  | v :: rest => v :: accumulate_from v rest
  end.

(** [np.searchsorted(rc, threshold, side="left")] on an array in
    ascending order: the first position whose entry is not below the
    threshold. *)
Fixpoint searchsorted_left (rc : list Q) (threshold : Q) : nat :=
  match rc with
  | [] => 0
  | r :: rest =>
      if Qle_bool threshold r then 0%nat
      else S (searchsorted_left rest threshold)
  end.

(** The entries of the result that do not depend on [conf_thres]. *)
Record ap_result : Set := mk_result {
  AP : num;
  interpolated_precision : list Q;
  interpolated_recall : list Q;
  total_positives : Q;
  TP : nat;
  FP : nat
}.

(** [_compute_ap_recall] with the default recall thresholds, for a
    positive [NP]; [scores] and [matched] are arrays of one length. *)
Definition _compute_ap_recall (scores : list Q) (matched : list bool)
    (NP : Q) : result ap_result :=
  let inds := argsort_descending scores in
  matched <- map_result (index matched) inds ;;
  let tp := cumsum matched in
  let fp := cumsum (map negb matched) in
  let rc := map (fun t => of_nat t / NP) tp in
  let pr := map (fun '(t, f) => of_nat t / (of_nat t + of_nat f))
                (combine tp fp) in
  let i_pr := rev (maximum_accumulate (rev pr)) in
  let rec_idx := map (searchsorted_left rc) recall_thresholds in
  let i_pr := map (fun r => if Nat.ltb r (length i_pr)
                            then nth r i_pr 0 else 0) rec_idx in
  Ok (mk_result (mean i_pr) i_pr recall_thresholds NP
                (last tp 0%nat) (last fp 0%nat)).

End ApRecall.

(** ** Tensors of floats: IEEE binary32 *)

Module FloatTensor.

Definition prec : Z := 24.
Definition emax : Z := 128.

(** An entry of a [torch.float32] tensor: a finite number, a zero, an
    infinity or NaN. *)
Definition float : Set := spec_float.

Definition NaN : float := S754_nan.

Definition of_Z (z : Z) : float := binary_normalize prec emax z 0 false.

Definition add : float -> float -> float := SFadd prec emax.
Definition mul : float -> float -> float := SFmul prec emax.
Definition div : float -> float -> float := SFdiv prec emax.
Definition ltb : float -> float -> bool := SFltb.
Definition leb : float -> float -> bool := SFleb.

Definition isnan (x : float) : bool :=
  match x with
  | S754_nan => true
  | _ => false
  end.

(** [x.clamp(0, 1)] on one entry: what is below 0 becomes 0, what is above
    1 becomes 1; a NaN is neither and stays. *)
Definition clamp_unit (x : float) : float :=
  if ltb x (of_Z 0) then of_Z 0
  else if ltb (of_Z 1) x then of_Z 1
  else x.

(** [0 <= x <= 1]; false of a NaN. *)
Definition in_unit_range (x : float) : bool :=
  leb (of_Z 0) x && leb x (of_Z 1).

(** [torch.min] and [torch.max] of two entries: a NaN wins. *)
Definition fmin (a b : float) : float :=
  if isnan a then a else if isnan b then b
  else if ltb b a then b else a.

Definition fmax (a b : float) : float :=
  if isnan a then a else if isnan b then b
  else if ltb a b then b else a.

(** A pixel, an image flattened over its spatial axes, a batch. *)
Definition pixel : Type := RTensor.triple float.
Definition image : Type := list pixel.
Definition batch : Type := list image.

End FloatTensor.

(** ** lighting_tf.py: applying fitted coefficients, on float tensors

    The same two functions as in [Apply], their entries being floats:
    a coefficient, an input or a converted color may be NaN or infinite. *)

Module FloatApply.
Import FloatTensor.

(** A converter between color spaces, one pixel at a time; what it
    returns for a pixel is not constrained. *)
Definition color_tf : Type := pixel -> pixel.

(** What [logger.debug] is called with. *)
Record log_record : Type := mk_log {
  num_oob_pixels : nat;
  numel : nat;
  min_value : float;
  max_value : float
}.

Definition entries (b : batch) : list float :=
  concat (map (fun img => concat (map RTensor.to_list img)) b).

(** [(x < 0) | (x > 1)]: both comparisons are false of a NaN. *)
Definition oob (x : float) : bool := ltb x (of_Z 0) || ltb (of_Z 1) x.

(** [t.min()] and [t.max()], of a tensor with an entry. *)
Definition minimum (xs : list float) : float :=
  match xs with
  | [] => of_Z 0
  | x :: rest => fold_left fmin rest x
  end.

Definition maximum (xs : list float) : float :=
  match xs with
  | [] => of_Z 0
  | x :: rest => fold_left fmax rest x
  end.

Definition clamp_batch (b : batch) : batch :=
  map (map (RTensor.map3 clamp_unit)) b.

Definition apply_tf (f : color_tf) (b : batch) : batch := map (map f) b.

(** *** _color_transfer *)

(** [ct_coeffs.view(-1, 3, 2, 1, 1)]: per batch entry and channel, a scale
    and an offset. *)
Definition ct_coeffs_t : Type := list (RTensor.triple (float * float)).

Definition affine (k : float * float) (x : float) : float :=
  add (mul x (fst k)) (snd k).

(** [lab * ct_coeffs[:, :, 0] + ct_coeffs[:, :, 1]]. *)
Definition affine_all (lab : batch) (ct_coeffs : ct_coeffs_t)
  : result batch :=
  pairs <- Apply.broadcast lab ct_coeffs ;;
  Ok (map (fun '(img, (k0, k1, k2)) =>
             map (fun '(x0, x1, x2) =>
                    (affine k0 x0, affine k1 x1, affine k2 x2)) img)
          pairs).

(** One pixel of [lab_out] with its entry [channel] taken from the
    rescaled pixel of [lab]. *)
Definition assign_pixel (channel : nat)
    (k : RTensor.triple (float * float)) (px : pixel * pixel)
  : result pixel :=
  let '(out_px, lab_px) := px in
  kc <- RTensor.chan channel k ;;
  x <- RTensor.chan channel lab_px ;;
  RTensor.set_chan channel (affine kc x) out_px.

(** [lab_out[:, channel] = lab[:, channel] * ct_coeffs[:, channel, 0]
    + ct_coeffs[:, channel, 1]]. *)
Definition assign_channel (lab : batch) (ct_coeffs : ct_coeffs_t)
    (lab_out : batch) (channel : nat) : result batch :=
  if Nat.leb 3 channel then Raise IndexError
  else
    pairs <- Apply.broadcast_to (combine lab_out lab) ct_coeffs ;;
    map_result
      (fun '((img_out, img), k) =>
         map_result (assign_pixel channel k) (combine img_out img))
      pairs.

(** [rgb_out] before the out-of-range test. *)
Definition color_transfer_raw (inputs : batch) (ct_coeffs : ct_coeffs_t)
    (channels : option (list nat))
    (color_space_transforms : option (color_tf * color_tf))
  : result batch :=
  match color_space_transforms with
  | None => Raise TypeError
  | Some (to_space, to_rgb) =>
      let lab := apply_tf to_space inputs in
      lab_out <-
        match channels with
        | Some channels =>
            for_each channels (assign_channel lab ct_coeffs) lab
        | None => affine_all lab ct_coeffs
        end ;;
      Ok (apply_tf to_rgb lab_out)
  end.

(** The images returned and the records logged. *)
Definition _color_transfer (inputs : batch) (ct_coeffs : ct_coeffs_t)
    (channels : option (list nat))
    (color_space_transforms : option (color_tf * color_tf))
  : result (batch * list log_record) :=
  rgb_out <- color_transfer_raw inputs ct_coeffs channels
                                color_space_transforms ;;
  let values := entries rgb_out in
  if existsb oob values
  then Ok (clamp_batch rgb_out,
           [mk_log (length (filter oob values))
                   (length (entries inputs))
                   (minimum values) (maximum values)])
  else Ok (rgb_out, []).

(** *** _polynomial_match *)

(** [poly_coeffs], of three axes: batch, channel, degree. *)
Definition poly_coeffs_t : Type := list (list (list float)).

Definition num_channels (poly_coeffs : poly_coeffs_t) : nat :=
  length (hd [] poly_coeffs).

Definition num_degrees (poly_coeffs : poly_coeffs_t) : nat :=
  length (hd [] (hd [] poly_coeffs)).

Section PolynomialMatch.

(** [x.pow(d)] and the sum over the degree axis, as the tensor library
    computes them. *)
Variable pow : float -> nat -> float.
Variable sum : list float -> float.

(** [(x.pow(degrees) * row).sum()] with
    [degrees = [deg - 1, ..., 1, 0]]. *)
Definition poly_eval (deg : nat) (row : list float) (x : float) : float :=
  sum (map (fun i => mul (pow x (deg - 1 - i)) (nth i row (of_Z 0)))
           (seq 0 deg)).

(** [einsum("bcdhw, bcd -> bchw", outputs, poly_coeffs)] for one batch
    entry, the channel axis of [poly_coeffs] having size 1 or 3. *)
Definition poly_all (deg : nat) (rows : list (list float)) (img : image)
  : image :=
  let row c := match rows with
               | [r] => r
               | _ => nth c rows []
               end in
  map (fun '(x0, x1, x2) =>
         (poly_eval deg (row 0%nat) x0,
          poly_eval deg (row 1%nat) x1,
          poly_eval deg (row 2%nat) x2)) img.

(** One channel of the output when [channels] is given: the polynomial of
    the selected channel, the input of the others. *)
Definition poly_channel (deg : nat) (channels : list nat)
    (rows : list (list float)) (channel : nat) (x : float)
  : result float :=
  match Apply.position channel channels with
  | Some i => row <- index rows i ;; Ok (poly_eval deg row x)
  | None => Ok x
  end.

Definition poly_selected (deg : nat) (channels : list nat)
    (rows : list (list float)) (img : image) : result image :=
  map_result
    (fun '(x0, x1, x2) =>
       y0 <- poly_channel deg channels rows 0 x0 ;;
       y1 <- poly_channel deg channels rows 1 x1 ;;
       y2 <- poly_channel deg channels rows 2 x2 ;;
       Ok (y0, y1, y2))
    img.

(** [outputs] before [outputs.clamp_(0, 1)]. *)
Definition polynomial_raw (inputs : batch) (poly_coeffs : poly_coeffs_t)
    (channels : option (list nat))
    (color_space_transforms : option (color_tf * color_tf))
  : result batch :=
  if negb (Nat.eqb (length poly_coeffs) (length inputs))
     && negb (Nat.eqb (length poly_coeffs) 1)
  then Raise ValueError
  else if match channels with
          | None => negb (Nat.eqb (num_channels poly_coeffs) 1
                          || Nat.eqb (num_channels poly_coeffs) 3)
          | Some _ => false
          end
  then Raise ValueError
  else
    let deg := num_degrees poly_coeffs in
    let inputs :=
      match color_space_transforms with
      | Some (to_space, _) => apply_tf to_space inputs
      | None => inputs
      end in
    pairs <- Apply.broadcast_to inputs poly_coeffs ;;
    outputs <-
      match channels with
      | None => Ok (map (fun '(img, rows) => poly_all deg rows img) pairs)
      | Some channels =>
          if forallb (Apply.selected_in_range channels
                                              (num_channels poly_coeffs))
                     [0; 1; 2]%nat
          then map_result
                 (fun '(img, rows) => poly_selected deg channels rows img)
                 pairs
          else Raise IndexError
      end ;;
    Ok match color_space_transforms with
       | Some (_, to_rgb) => apply_tf to_rgb outputs
       | None => outputs
       end.

(** The function never calls the logger. *)
Definition _polynomial_match (inputs : batch) (poly_coeffs : poly_coeffs_t)
    (channels : option (list nat))
    (color_space_transforms : option (color_tf * color_tf))
  : result (batch * list log_record) :=
  outputs <- polynomial_raw inputs poly_coeffs channels
                            color_space_transforms ;;
  Ok (clamp_batch outputs, []).

End PolynomialMatch.

(** *** Shapes the two functions accept *)

(** [ct_coeffs] against [inputs]: one entry per image or a single entry;
    without [channels] a single image is broadcast as well. *)
Definition valid_ct_shape (inputs : batch) (ct_coeffs : ct_coeffs_t)
    (channels : option (list nat)) : Prop :=
  match channels with
  | Some channels =>
      Forall (fun c => (c < 3)%nat) channels
      /\ (length ct_coeffs = length inputs \/ length ct_coeffs = 1%nat)
  | None =>
      length ct_coeffs = length inputs \/ length ct_coeffs = 1%nat
      \/ length inputs = 1%nat
  end.

(** [poly_coeffs] against [inputs]: a rectangular tensor with one entry
    per image or a single entry, and a channel axis of size 1 or 3, or
    wide enough for every selected channel. *)
Definition valid_poly_shape (inputs : batch) (poly_coeffs : poly_coeffs_t)
    (channels : option (list nat)) : Prop :=
  (length poly_coeffs = length inputs \/ length poly_coeffs = 1%nat)
  /\ Forall (fun rows => length rows = num_channels poly_coeffs)
            poly_coeffs
  /\ match channels with
     | None => num_channels poly_coeffs = 1%nat
               \/ num_channels poly_coeffs = 3%nat
     | Some channels =>
         forall c i, (c < 3)%nat ->
                     Apply.position c channels = Some i ->
                     (i < num_channels poly_coeffs)%nat
     end.

(** An entry as the functions may return it: within [0, 1], or NaN. *)
Definition unit_or_nan (x : float) : Prop :=
  isnan x = true \/ in_unit_range x = true.

End FloatApply.

(** ** Stand-ins for the external functions, to run the definitions *)

Module StandIns.

(** A warp that leaves the synthetic object where it is. *)
Definition no_warp (syn_obj : Fitters.image) (_ : unit) (_ : nat)
    (_ : string) : Fitters.image :=
  syn_obj.

(** A converter that leaves the colors as they are. *)
Definition same_image (syn_obj : Fitters.image) : Fitters.image := syn_obj.

Definition same_colors (img : RTensor.image) : RTensor.image := img.

Definition same_pixel (p : RTensor.pixel) : RTensor.pixel := p.

(** A fit and a perspective solver that are never reached. *)
Definition no_polyfit (_ _ : list Q) (_ : nat)
  : result (list QTensor.num) :=
  Raise RuntimeError.

Definition no_perspective (_ _ : list RealismTest.point)
  : result (list RealismTest.matrix) :=
  Raise RuntimeError.


(** A converter of float pixels that leaves the colors as they are; a
    power by repeated products and a sum from left to right. *)
Definition same_float_pixel (p : FloatTensor.pixel) : FloatTensor.pixel :=
  p.

Fixpoint power (x : FloatTensor.float) (d : nat) : FloatTensor.float :=
  match d with
  | O => FloatTensor.of_Z 1
  | S d' => FloatTensor.mul (power x d') x
  end.

Definition total (xs : list FloatTensor.float) : FloatTensor.float :=
  match xs with
  | [] => FloatTensor.of_Z 0
  | x :: rest => fold_left FloatTensor.add rest x
  end.

End StandIns.

(** * Properties *)

(** ** Results and loops *)

Lemma bind_ok {A B} (r : result A) (k : A -> result B) (b : B) :
  bind r k = Ok b -> exists a, r = Ok a /\ k a = Ok b.
Proof.
  destruct r as [a | e]; simpl; intros H.
  - exists a; split; [reflexivity | exact H].
  - discriminate H.
Qed.

Lemma map_result_ok_length {A B} (f : A -> result B) (xs : list A)
    (ys : list B) :
  map_result f xs = Ok ys -> length ys = length xs.
Proof.
  revert ys; induction xs as [| x rest IH]; simpl; intros ys H.
  - injection H as <-; reflexivity.
  - apply bind_ok in H as (y & _ & H).
    apply bind_ok in H as (ys' & Hrest & H).
    injection H as <-; simpl; f_equal; apply IH; exact Hrest.
Qed.

Lemma map_result_ok_forall2 {A B} (f : A -> result B) (xs : list A)
    (ys : list B) :
  map_result f xs = Ok ys -> Forall2 (fun x y => f x = Ok y) xs ys.
Proof.
  revert ys; induction xs as [| x rest IH]; simpl; intros ys H.
  - injection H as <-; constructor.
  - apply bind_ok in H as (y & Hy & H).
    apply bind_ok in H as (ys' & Hrest & H).
    injection H as <-; constructor; [exact Hy | apply IH; exact Hrest].
Qed.

Lemma map_result_total {A B} (f : A -> result B) (g : A -> B)
    (xs : list A) :
  (forall x, In x xs -> f x = Ok (g x)) -> map_result f xs = Ok (map g xs).
Proof.
  induction xs as [| x rest IH]; simpl; intros H; [reflexivity |].
  rewrite (H x (or_introl eq_refl)); simpl.
  rewrite IH by (intros y Hy; apply H; right; exact Hy).
  reflexivity.
Qed.

Lemma stack_ok {A} (rows stacked : list (list A)) :
  stack rows = Ok stacked -> stacked = rows.
Proof.
  unfold stack; destruct rows as [| r rest]; [discriminate |].
  destruct (forallb _ rest); [| discriminate].
  intros H; injection H as <-; reflexivity.
Qed.

Lemma Forall2_nth_error_l {A B} (P : A -> B -> Prop) (xs : list A)
    (ys : list B) (i : nat) (x : A) :
  Forall2 P xs ys -> nth_error xs i = Some x ->
  exists y, nth_error ys i = Some y /\ P x y.
Proof.
  intros H; revert i; induction H as [| x0 y0 xs ys Hxy _ IH]; intros i Hi.
  - destruct i; discriminate Hi.
  - destruct i as [| i]; simpl in *.
    + injection Hi as <-; exists y0; split; [reflexivity | exact Hxy].
    + apply IH; exact Hi.
Qed.

(** ** RelightTransform *)

Section InitProperties.
Import PyStr RelightTransform.
Open Scope string_scope.

Lemma init_ok_iff (method : string) :
  (exists self, __init__ method = Ok self) <->
  (contains "color_transfer" method = true ->
   color_space method = "hsv" \/ color_space method = "lab").
Proof.
  unfold __init__.
  destruct (String.eqb (color_space method) "hsv") eqn:Hhsv.
  - apply String.eqb_eq in Hhsv.
    split; [intros _ _; left; exact Hhsv | intros _; eexists; reflexivity].
  - destruct (String.eqb (color_space method) "lab") eqn:Hlab.
    + apply String.eqb_eq in Hlab.
      split;
        [intros _ _; right; exact Hlab | intros _; eexists; reflexivity].
    + apply String.eqb_neq in Hhsv, Hlab.
      destruct (contains "color_transfer" method).
      * split.
        -- intros (self & H); discriminate H.
        -- intros H; destruct (H eq_refl); contradiction.
      * split; [intros _ H; discriminate H | intros _; eexists; reflexivity].
Qed.

(** C9: constructing [RelightTransform] with the plain method
    ["color_transfer"] raises ValueError although the method is listed in
    [RELIGHT_METHODS]; a method name containing ["color_transfer"]
    constructs exactly when its color-space suffix is ["hsv"] or
    ["lab"]. *)
Theorem plain_color_transfer_rejected :
  __init__ "color_transfer" = Raise ValueError
  /\ In "color_transfer" Hparams.RELIGHT_METHODS
  /\ forall method,
       contains "color_transfer" method = true ->
       ((exists self, __init__ method = Ok self) <->
        (color_space method = "hsv" \/ color_space method = "lab")).
Proof.
  split; [reflexivity |].
  split; [left; reflexivity |].
  intros method Hct.
  rewrite init_ok_iff.
  split; [intros H; exact (H Hct) | intros H _; exact H].
Qed.

Lemma plain_color_transfer_rejected_witness :
  contains "color_transfer" "color_transfer_hsv-sv" = true
  /\ ((exists self, __init__ "color_transfer_hsv-sv" = Ok self) <->
      (color_space "color_transfer_hsv-sv" = "hsv"
       \/ color_space "color_transfer_hsv-sv" = "lab")).
Proof.
  split; [reflexivity |].
  apply (proj2 (proj2 plain_color_transfer_rejected)
               "color_transfer_hsv-sv").
  reflexivity.
Defined.

End InitProperties.

(** ** Binary64 comparisons *)

Section FloatProperties.
Import PyFloat.

Lemma compare_cont_swap (ma mb : positive) :
  Pos.compare_cont Eq mb ma = CompOpp (Pos.compare_cont Eq ma mb).
Proof. symmetry; exact (Pos.compare_cont_antisym ma mb Eq). Qed.

Lemma SFcompare_swap (a b : float) :
  SFcompare b a = option_map CompOpp (SFcompare a b).
Proof.
  destruct a as [sa | sa | | sa ma ea], b as [sb | sb | | sb mb eb];
    simpl; try reflexivity;
    try (destruct sa; reflexivity); try (destruct sb; reflexivity);
    try (destruct sa, sb; reflexivity).
  destruct sa, sb; simpl; try reflexivity;
    rewrite (Z.compare_antisym ea eb);
    destruct (ea ?= eb)%Z; simpl; try reflexivity;
    rewrite (compare_cont_swap ma mb);
    destruct (Pos.compare_cont Eq ma mb); reflexivity.
Qed.

Lemma SFcompare_eq (a b : float) :
  SFcompare a b = Some Eq ->
  a = b \/ exists sa sb, a = S754_zero sa /\ b = S754_zero sb.
Proof.
  destruct a as [sa | sa | | sa ma ea], b as [sb | sb | | sb mb eb];
    simpl; try discriminate;
    try (destruct sa; discriminate); try (destruct sb; discriminate).
  - intros _; right; exists sa, sb; split; reflexivity.
  - destruct sa, sb; try discriminate; intros _; left; reflexivity.
  - destruct sa, sb; try discriminate;
      destruct (ea ?= eb)%Z eqn:He; try discriminate;
      apply Z.compare_eq in He; subst eb;
      destruct (Pos.compare_cont Eq ma mb) eqn:Hm; try discriminate;
      apply Pos.compare_eq in Hm; subst mb; intros _; left; reflexivity.
Qed.

(** [min] does not depend on the order of its arguments, two zeros of
    opposite signs and NaN apart. *)
Lemma min_comm (a b : float) :
  SFcompare a b <> None ->
  (forall sa sb, a = S754_zero sa -> b = S754_zero sb -> sa = sb) ->
  min a b = min b a.
Proof.
  intros Hnan Hzero; unfold min, ltb, SFltb.
  rewrite (SFcompare_swap a b).
  destruct (SFcompare a b) as [[ | | ] |] eqn:Hc; simpl;
    try reflexivity; [| contradiction].
  apply SFcompare_eq in Hc as [-> | (sa & sb & -> & ->)];
    [reflexivity |].
  rewrite (Hzero sa sb eq_refl eq_refl); reflexivity.
Qed.

Lemma leb_not_nan_l (a b : float) : leb a b = true -> a <> S754_nan.
Proof. intros H ->; discriminate H. Qed.

Lemma leb_not_nan_r (a b : float) : leb a b = true -> b <> S754_nan.
Proof. intros H ->; destruct a; discriminate H. Qed.

Lemma SFcompare_defined (a b : float) :
  a <> S754_nan -> b <> S754_nan -> SFcompare a b <> None.
Proof.
  intros Ha Hb; destruct a, b; simpl; try discriminate; contradiction.
Qed.

End FloatProperties.

(** ** The binary64 model against CPython

    The values below are those CPython 3 prints for the same expressions
    ([float.hex], [round]). *)

Section FloatExamples.
Import PyFloat Fitters.

Example literal_tenth :
  decimal 1 1 = S754_finite false 7205759403792794 (-56).
Proof. reflexivity. Qed.

Example complement_of_nine_tenths :
  sub (of_Z 1) (decimal 9 1) = S754_finite false 7205759403792792 (-56).
Proof. reflexivity. Qed.

Example complement_is_literal :
  sub (of_Z 1) (decimal 25 3) = decimal 975 3
  /\ decimal 975 3 = S754_finite false 8782019273372467 (-53).
Proof. split; reflexivity. Qed.

Example complement_of_complement :
  sub (of_Z 1) (decimal 975 3) = S754_finite false 7205759403792800 (-58)
  /\ decimal 25 3 = S754_finite false 7205759403792794 (-58).
Proof. split; reflexivity. Qed.

Example scaled_folds :
  mul (min (decimal 25 3) (sub (of_Z 1) (decimal 25 3))) (of_Z 100)
  = S754_finite false 5629499534213120 (-51)
  /\ mul (min (decimal 975 3) (sub (of_Z 1) (decimal 975 3))) (of_Z 100)
     = S754_finite false 5629499534213125 (-51).
Proof. split; reflexivity. Qed.

Example round_half_to_even :
  map (fun k => round (div (of_Z k) (of_Z 2))) [1; 3; 5; -1; -3; 7]%Z
  = [Ok 0; Ok 2; Ok 2; Ok 0; Ok (-2); Ok 4]%Z.
Proof. reflexivity. Qed.

Example kept_of_seven :
  num_kept (decimal 2 1) 7 = Ok 6%Z /\ num_kept (decimal 3 1) 3 = Ok 2%Z.
Proof. split; reflexivity. Qed.

End FloatExamples.

(** ** _simple_percentile *)

Section PercentileProperties.
Import PyStr PyFloat QTensor Fitters.
Open Scope string_scope.

Lemma in_unit_not_nan (p : float) : in_unit p = true -> p <> S754_nan.
Proof.
  unfold in_unit; intros H; apply andb_prop in H as [H _].
  exact (leb_not_nan_r _ _ H).
Qed.

(** The result depends on [percentile] through the assertion and the
    folded integer only. *)
Lemma simple_percentile_fold (real_pixels : list (list Q)) (mode : string)
    (p q : float) :
  in_unit p = in_unit q ->
  percentile_fold p = percentile_fold q ->
  _simple_percentile real_pixels mode p
  = _simple_percentile real_pixels mode q.
Proof.
  unfold _simple_percentile; intros -> ->; reflexivity.
Qed.

(** A percentile and its complement fold to one integer when the
    subtraction from 1 is exact both ways. *)
Lemma fold_complement (p q : float) :
  in_unit p = true -> in_unit q = true ->
  q = sub (of_Z 1) p -> p = sub (of_Z 1) q ->
  percentile_fold p = percentile_fold q.
Proof.
  intros Hp Hq Hqp Hpq; unfold percentile_fold.
  rewrite <- Hqp, <- Hpq.
  rewrite (min_comm p q); [reflexivity | |].
  - apply SFcompare_defined; apply in_unit_not_nan; assumption.
  - intros sa sb -> ->; destruct sa, sb; discriminate Hqp.
Qed.

(** C2, amended: the input is folded to [min(p, 1 - p)], so two
    percentiles in [0, 1] with one folded integer give identical
    coefficient tensors on every sample and in every mode; a percentile
    [p] and its complement [q = 1 - p] do so whenever both lie in [0, 1]
    and the binary64 subtraction is exact both ways ([1 - q = p]). *)
Theorem percentile_fold_symmetric (real_pixels : list (list Q))
    (mode : string) (p q : float) :
  in_unit p = true -> in_unit q = true ->
  percentile_fold p = percentile_fold q
  \/ (q = sub (of_Z 1) p /\ p = sub (of_Z 1) q) ->
  _simple_percentile real_pixels mode p
  = _simple_percentile real_pixels mode q.
Proof.
  intros Hp Hq H; apply simple_percentile_fold; [congruence |].
  destruct H as [H | [Hqp Hpq]]; [exact H |].
  apply fold_complement; assumption.
Qed.

(** 0.9 and its binary64 complement, and 0.9 and the literal 0.1. *)
Lemma percentile_fold_symmetric_witness :
  _simple_percentile [[0; 1]; [2; 3]; [4; 5]]%Q "" (decimal 9 1)
  = _simple_percentile [[0; 1]; [2; 3]; [4; 5]]%Q ""
                       (sub (of_Z 1) (decimal 9 1))
  /\ _simple_percentile [[0; 1]; [2; 3]; [4; 5]]%Q "hsv-sv" (decimal 9 1)
     = _simple_percentile [[0; 1]; [2; 3]; [4; 5]]%Q "hsv-sv"
                          (decimal 1 1).
Proof.
  split.
  - apply (percentile_fold_symmetric
             [[0; 1]; [2; 3]; [4; 5]]%Q "" (decimal 9 1)
             (sub (of_Z 1) (decimal 9 1)));
      [reflexivity | reflexivity | right; split; reflexivity].
  - apply (percentile_fold_symmetric
             [[0; 1]; [2; 3]; [4; 5]]%Q "hsv-sv" (decimal 9 1)
             (decimal 1 1));
      [reflexivity | reflexivity | left; reflexivity].
Defined.

(** C2 as stated fails: 0.025 folds to 2 and its complement 0.975 to 3,
    and the coefficients differ. *)
Lemma percentile_fold_not_symmetric :
  in_unit (decimal 25 3) = true
  /\ in_unit (sub (of_Z 1) (decimal 25 3)) = true
  /\ percentile_fold (decimal 25 3) = Ok 2%Z
  /\ percentile_fold (sub (of_Z 1) (decimal 25 3)) = Ok 3%Z
  /\ ~ coeffs_equiv
         (_simple_percentile [[0; 1]; [2; 3]; [4; 5]]%Q "" (decimal 25 3))
         (_simple_percentile [[0; 1]; [2; 3]; [4; 5]]%Q ""
                             (sub (of_Z 1) (decimal 25 3))).
Proof.
  repeat (split; [reflexivity |]).
  intros H; vm_compute in H.
  inversion H as [| x y l l' [Hscale _] _]; subst.
  discriminate Hscale.
Qed.

(** What each mode computes, for three channels: the default mode pools
    the three samples, the lightness mode reads the first one, and the
    saturation+value mode reads the second one twice. *)
Lemma simple_percentile_rows (c0 c1 c2 : list Q) (mode : string)
    (p : float) (pct : Z) :
  in_unit p = true ->
  percentile_fold p = Ok pct ->
  _simple_percentile [c0; c1; c2] mode p
  = if contains "-sv" mode
    then row1 <- percentile_pair c1 pct ;;
         x <- index c1 2 ;;
         row2 <- percentile_pair [x] pct ;;
         Ok [row1; row2]
    else if contains "-l" mode
    then row <- percentile_pair c0 pct ;; Ok [row]
    else rows <- stack [c0; c1; c2] ;;
         row <- percentile_pair (concat rows) pct ;;
         Ok [row].
Proof.
  intros Hp Hfold; unfold _simple_percentile, percentile_channels.
  rewrite Hp, Hfold; cbn [negb bind].
  destruct (contains "-sv" mode).
  - cbn [bind for_each percentile_step index_reshape index nth_error].
    destruct (percentile_pair c1 pct) as [row1 | e]; [| reflexivity].
    cbn [bind for_each percentile_step index_reshape app]; unfold index.
    destruct (nth_error c1 2) as [x |]; [| reflexivity].
    cbn [bind].
    destruct (percentile_pair [x] pct) as [row2 | e]; reflexivity.
  - destruct (contains "-l" mode).
    + cbn [bind for_each percentile_step index_reshape index nth_error].
      destruct (percentile_pair c0 pct) as [row | e]; reflexivity.
    + destruct (stack [c0; c1; c2]) as [rows | e]; [| reflexivity].
      cbn [bind for_each percentile_step index_reshape index nth_error].
      destruct (percentile_pair (concat rows) pct) as [row | e];
        reflexivity.
Qed.

(** C5 fails in the saturation+value mode: the loop rebinds
    [real_pixels] to the saturation sample, so the second row is computed
    from the single entry [real_pixels[1][2]] and the value sample is never
    read.  On the sample below the second row is [(0, 0.6)] where the
    percentiles of the value channel give [(0.64, 0.18)]; with fewer than
    three saturation pixels the call raises IndexError. *)
Theorem sv_second_row_ignores_value_channel :
  (forall (c0 c1 c2 c2' : list Q) (p : float),
     _simple_percentile [c0; c1; c2] "hsv-sv" p
     = _simple_percentile [c0; c1; c2'] "hsv-sv" p)
  /\ coeffs_equiv
       (_simple_percentile
          [[0; 0.5; 1]; [0.2; 0.4; 0.6]; [0.1; 0.5; 0.9]]%Q "hsv-sv"
          (decimal 1 1))
       (Ok [(fin 0.32, fin 0.24); (fin 0, fin 0.6)]%Q)
  /\ coeffs_equiv
       (row <- percentile_pair [0.1; 0.5; 0.9]%Q 10 ;; Ok [row])
       (Ok [(fin 0.64, fin 0.18)]%Q)
  /\ _simple_percentile [[0; 1]; [0.2; 0.4]; [0.1; 0.5]]%Q "hsv-sv"
                        (decimal 1 1)
     = Raise IndexError.
Proof.
  split; [| split; [| split]].
  - intros c0 c1 c2 c2' p; unfold _simple_percentile.
    destruct (in_unit p); [| reflexivity].
    destruct (percentile_fold p); reflexivity.
  - vm_compute; repeat constructor.
  - vm_compute; repeat constructor.
  - reflexivity.
Qed.

End PercentileProperties.

(** ** _fit_polynomial *)

Section FitPolynomialProperties.
Import PyStr PyFloat QTensor Fitters.
Open Scope Q_scope.

Variable transform : Type.
Variable warp_perspective : image -> transform -> nat -> string -> image.
Variable rgb_to_hsv : image -> image.
Variable rgb_to_lab : image -> image.
Variable polyfit : list Q -> list Q -> nat -> result (list num).

Local Abbreviation fit :=
  (_fit_polynomial warp_perspective rgb_to_hsv rgb_to_lab polyfit).
Local Abbreviation prep := (prepare warp_perspective rgb_to_hsv rgb_to_lab).

Lemma qsum_zeros (xs : list Q) :
  Forall (fun x => x == 0) xs -> qsum xs == 0.
Proof.
  induction 1 as [| x rest Hx _ IH]; simpl; [reflexivity |].
  rewrite Hx, IH; reflexivity.
Qed.

Lemma fit_kept_degenerate (syn_kept real_kept : list Q) (degree : nat) :
  qsum syn_kept == 0 ->
  fit_kept polyfit syn_kept real_kept degree
  = Ok (repeat (fin 0) degree ++ [mean real_kept]).
Proof.
  intros Hsum; unfold fit_kept, constant_poly.
  apply Qeq_bool_iff in Hsum; rewrite Hsum; reflexivity.
Qed.

(** The polynomial returned for a channel whose kept synthetic pixels sum
    to zero. *)
Lemma fit_polynomial_degenerate
    (real_pixels_by_channel : list (list Q)) (syn_obj : option image)
    (mask : list bool) (transform_mat : transform) (interp : string)
    (degree : nat) (percentile : float) (mode : string)
    (coeffs : list (list num)) (syn real : image) (channels : list nat)
    (i channel : nat) (syn_kept real_kept : list Q) :
  fit real_pixels_by_channel syn_obj mask transform_mat interp degree
      percentile mode = Ok coeffs ->
  prep real_pixels_by_channel syn_obj mask transform_mat interp mode
  = Ok (syn, real, channels) ->
  nth_error channels i = Some channel ->
  kept_pixels syn real mask percentile channel = Ok (syn_kept, real_kept) ->
  qsum syn_kept == 0 ->
  nth_error coeffs i = Some (repeat (fin 0) degree ++ [mean real_kept]).
Proof.
  unfold _fit_polynomial; intros Hfit Hprep Hch Hkept Hsum.
  rewrite Hprep in Hfit; cbn [bind] in Hfit.
  apply bind_ok in Hfit as (polys & Hfit & Hstack).
  apply stack_ok in Hstack as ->.
  apply map_result_ok_forall2 in Hfit.
  destruct (Forall2_nth_error_l _ _ _ _ _ Hfit Hch) as (poly & Hpoly & Hbody).
  rewrite Hpoly; f_equal.
  unfold fit_channel in Hbody; rewrite Hkept in Hbody; simpl in Hbody.
  rewrite (fit_kept_degenerate _ real_kept degree Hsum) in Hbody.
  injection Hbody as <-; reflexivity.
Qed.

Lemma constant_poly_shape (degree : nat) (c : num) :
  length (repeat (fin 0) degree ++ [c]) = S degree
  /\ last (repeat (fin 0) degree ++ [c]) NaN = c
  /\ Forall (fun k => k = fin 0) (removelast (repeat (fin 0) degree ++ [c])).
Proof.
  split; [| split].
  - rewrite length_app, repeat_length; simpl; lia.
  - apply last_last.
  - rewrite removelast_last; apply Forall_forall; intros k Hk.
    exact (repeat_spec _ _ _ Hk).
Qed.

(** The branch is chosen by the sum of the kept synthetic pixels: when it
    is zero the loop body returns the constant polynomial, without a call
    of [np.polyfit], and that polynomial is the row of the channel in
    whatever the function returns. *)
Lemma zero_sum_gives_constant
    (real_pixels_by_channel : list (list Q)) (syn_obj : option image)
    (mask : list bool) (transform_mat : transform) (interp : string)
    (degree : nat) (percentile : float) (mode : string)
    (syn real : image) (channels : list nat)
    (i channel : nat) (syn_kept real_kept : list Q) :
  prep real_pixels_by_channel syn_obj mask transform_mat interp mode
  = Ok (syn, real, channels) ->
  nth_error channels i = Some channel ->
  kept_pixels syn real mask percentile channel = Ok (syn_kept, real_kept) ->
  qsum syn_kept == 0 ->
  exists poly,
    fit_channel polyfit syn real mask degree percentile channel = Ok poly
    /\ (forall coeffs,
          fit real_pixels_by_channel syn_obj mask transform_mat interp
              degree percentile mode = Ok coeffs ->
          nth_error coeffs i = Some poly)
    /\ length poly = S degree
    /\ last poly NaN = mean real_kept
    /\ Forall (fun k => k = fin 0) (removelast poly).
Proof.
  intros Hprep Hch Hkept Hsum.
  exists (repeat (fin 0) degree ++ [mean real_kept]).
  split; [| split].
  - unfold fit_channel; rewrite Hkept; cbn [bind].
    apply fit_kept_degenerate; exact Hsum.
  - intros coeffs Hfit.
    eapply fit_polynomial_degenerate; eassumption.
  - apply constant_poly_shape.
Qed.

(** C4: for every channel whose kept synthetic pixel values are all zero,
    the loop body returns a polynomial of [degree + 1] coefficients whose
    last (constant) one is the mean of the kept real pixels and whose
    higher-degree ones are all zero, and that polynomial is the row of the
    channel in the tensor the function returns. *)
Theorem all_zero_gives_constant
    (real_pixels_by_channel : list (list Q)) (syn_obj : option image)
    (mask : list bool) (transform_mat : transform) (interp : string)
    (degree : nat) (percentile : float) (mode : string)
    (syn real : image) (channels : list nat)
    (i channel : nat) (syn_kept real_kept : list Q) :
  prep real_pixels_by_channel syn_obj mask transform_mat interp mode
  = Ok (syn, real, channels) ->
  nth_error channels i = Some channel ->
  kept_pixels syn real mask percentile channel = Ok (syn_kept, real_kept) ->
  Forall (fun x => x == 0) syn_kept ->
  exists poly,
    fit_channel polyfit syn real mask degree percentile channel = Ok poly
    /\ (forall coeffs,
          fit real_pixels_by_channel syn_obj mask transform_mat interp
              degree percentile mode = Ok coeffs ->
          nth_error coeffs i = Some poly)
    /\ length poly = S degree
    /\ last poly NaN = mean real_kept
    /\ Forall (fun k => k = fin 0) (removelast poly).
Proof.
  intros Hprep Hch Hkept Hzero.
  eapply zero_sum_gives_constant; try eassumption.
  apply qsum_zeros; exact Hzero.
Qed.

End FitPolynomialProperties.

Section FitPolynomialExamples.
Import PyStr PyFloat QTensor Fitters.
Open Scope Q_scope.

Local Abbreviation no_warp := StandIns.no_warp.
Local Abbreviation same := StandIns.same_image.
Local Abbreviation no_fit := StandIns.no_polyfit.

(** A synthetic object that is black under the mask, in the
    saturation+value mode and with a polynomial of degree 2. *)
Lemma all_zero_gives_constant_witness :
  _fit_polynomial no_warp same same no_fit
    [[2; 4]; [1; 3]; [5; 9]] (Some [[0; 0]; [0; 0]; [0; 0]])
    [true; true] tt "bilinear" 2%nat (of_Z 0) "hsv-sv"
  = Ok [[fin 0; fin 0; mean [1; 3]]; [fin 0; fin 0; mean [5; 9]]]
  /\ exists poly,
       fit_channel no_fit [[0; 0]; [0; 0]; [0; 0]] [[2; 4]; [1; 3]; [5; 9]]
                   [true; true] 2%nat (of_Z 0) 2%nat = Ok poly
       /\ (forall coeffs,
             _fit_polynomial no_warp same same no_fit
               [[2; 4]; [1; 3]; [5; 9]] (Some [[0; 0]; [0; 0]; [0; 0]])
               [true; true] tt "bilinear" 2%nat (of_Z 0) "hsv-sv"
             = Ok coeffs ->
             nth_error coeffs 1 = Some poly)
       /\ length poly = 3%nat
       /\ last poly NaN = mean [5; 9]
       /\ Forall (fun k => k = fin 0) (removelast poly).
Proof.
  split; [reflexivity |].
  apply (all_zero_gives_constant unit no_warp same same no_fit
           [[2; 4]; [1; 3]; [5; 9]] (Some [[0; 0]; [0; 0]; [0; 0]])
           [true; true] tt "bilinear" 2%nat (of_Z 0) "hsv-sv"
           [[0; 0]; [0; 0]; [0; 0]] [[2; 4]; [1; 3]; [5; 9]]
           [1; 2]%nat 1%nat 2%nat [0; 0] [5; 9]);
    try reflexivity.
  repeat constructor.
Defined.

(** C10: the constant branch is taken whenever the kept synthetic pixels
    sum to zero, not only when they are all zero; with kept synthetic
    pixels [-2, 2], none of them zero, the polynomial returned is the
    constant mean of the kept real pixels, whatever [np.polyfit] would
    have fitted. *)
Theorem zero_sum_selects_constant :
  (forall (transform : Type)
          (warp_perspective : image -> transform -> nat -> string -> image)
          (rgb_to_hsv rgb_to_lab : image -> image)
          (polyfit : list Q -> list Q -> nat -> result (list num))
          (real_pixels_by_channel : list (list Q)) (syn_obj : option image)
          (mask : list bool) (transform_mat : transform) (interp : string)
          (degree : nat) (percentile : float) (mode : string)
          (syn real : image) (channels : list nat) (i channel : nat)
          (syn_kept real_kept : list Q),
      prepare warp_perspective rgb_to_hsv rgb_to_lab
        real_pixels_by_channel syn_obj mask transform_mat interp mode
      = Ok (syn, real, channels) ->
      nth_error channels i = Some channel ->
      kept_pixels syn real mask percentile channel
      = Ok (syn_kept, real_kept) ->
      qsum syn_kept == 0 ->
      exists poly,
        fit_channel polyfit syn real mask degree percentile channel
        = Ok poly
        /\ (forall coeffs,
              _fit_polynomial warp_perspective rgb_to_hsv rgb_to_lab
                polyfit real_pixels_by_channel syn_obj mask transform_mat
                interp degree percentile mode = Ok coeffs ->
              nth_error coeffs i = Some poly)
        /\ length poly = S degree
        /\ last poly NaN = mean real_kept
        /\ Forall (fun k => k = fin 0) (removelast poly))
  /\ (forall polyfit : list Q -> list Q -> nat -> result (list num),
        kept_pixels [[-1; 1]; [-2; 2]; [-3; 3]] [[2; 4]; [1; 5]; [5; 11]]
                    [true; true] (of_Z 0) 1%nat
        = Ok ([-2; 2], [1; 5])
        /\ Forall (fun x => ~ x == 0) [-2; 2]
        /\ qsum [-2; 2] == 0
        /\ _fit_polynomial no_warp same same polyfit
             [[2; 4]; [1; 5]; [5; 11]] (Some [[-1; 1]; [-2; 2]; [-3; 3]])
             [true; true] tt "bilinear" 1%nat (of_Z 0) "lab"
           = Ok [[fin 0; mean [2; 4]]; [fin 0; mean [1; 5]];
                 [fin 0; mean [5; 11]]]).
Proof.
  split.
  - intros; eapply zero_sum_gives_constant; eassumption.
  - intros polyfit.
    split; [reflexivity |].
    split; [| split; reflexivity].
    constructor; [intros H; discriminate H |].
    constructor; [intros H; discriminate H | constructor].
Qed.

Lemma zero_sum_selects_constant_witness :
  exists poly,
    fit_channel no_fit [[-1; 1]; [-2; 2]; [-3; 3]]
                [[2; 4]; [1; 5]; [5; 11]] [true; true] 1%nat (of_Z 0) 1%nat
    = Ok poly
    /\ (forall coeffs,
          _fit_polynomial no_warp same same no_fit
            [[2; 4]; [1; 5]; [5; 11]] (Some [[-1; 1]; [-2; 2]; [-3; 3]])
            [true; true] tt "bilinear" 1%nat (of_Z 0) "lab" = Ok coeffs ->
          nth_error coeffs 1 = Some poly)
    /\ length poly = 2%nat
    /\ last poly NaN = mean [1; 5]
    /\ Forall (fun k => k = fin 0) (removelast poly).
Proof.
  apply (proj1 zero_sum_selects_constant unit no_warp same same no_fit
           [[2; 4]; [1; 5]; [5; 11]] (Some [[-1; 1]; [-2; 2]; [-3; 3]])
           [true; true] tt "bilinear" 1%nat (of_Z 0) "lab"
           [[-1; 1]; [-2; 2]; [-3; 3]] [[2; 4]; [1; 5]; [5; 11]]
           [0; 1; 2]%nat 1%nat 1%nat [-2; 2] [1; 5]);
    reflexivity.
Defined.

End FitPolynomialExamples.

(** ** _get_color_transfer_params *)

Section ColorTransferFitProperties.
Import PyStr RTensor ColorTransferFit.
Open Scope R_scope.

Variable rgb_to_hsv : image -> image.

Local Abbreviation fitted := (fitted_coeffs rgb_to_hsv).
Local Abbreviation params := (_get_color_transfer_params rgb_to_hsv).

Lemma eps_pos : 0 < Lab._EPS.
Proof. unfold Lab._EPS; lra. Qed.

Lemma clamped_deviation_pos (xs : list R) :
  0 < Rmax (deviation xs) Lab._EPS.
Proof.
  apply Rlt_le_trans with (1 := eps_pos); apply Rmax_r.
Qed.

Lemma std_of_two (xs : list R) :
  (2 <= length xs)%nat -> std xs = fin (deviation xs).
Proof.
  intros H; unfold std.
  destruct (Nat.ltb_spec (length xs) 2) as [Hlt | _]; [lia | reflexivity].
Qed.

Lemma mean_of_two (xs : list R) :
  (2 <= length xs)%nat -> mean xs = fin (average xs).
Proof.
  destruct xs; simpl; intros H; [lia | reflexivity].
Qed.

Lemma rsum_constant (v : R) (xs : list R) :
  Forall (fun x => x = v) xs -> rsum xs = INR (length xs) * v.
Proof.
  induction 1 as [| x rest Hx _ IH].
  - simpl; lra.
  - cbn [rsum fold_right length]; fold (rsum rest).
    rewrite IH, Hx, S_INR; lra.
Qed.

(** A sample of equal entries has deviation zero. *)
Lemma deviation_constant (v : R) (xs : list R) :
  Forall (fun x => x = v) xs -> (2 <= length xs)%nat -> deviation xs = 0.
Proof.
  intros Hall Hlen; unfold deviation, average.
  rewrite (rsum_constant v xs Hall).
  assert (Hn : INR (length xs) <> 0)
    by (apply not_0_INR; lia).
  replace (INR (length xs) * v / INR (length xs)) with v
    by (field; exact Hn).
  rewrite (rsum_constant 0).
  - rewrite Rmult_0_r.
    unfold Rdiv; rewrite Rmult_0_l; apply sqrt_0.
  - apply Forall_forall; intros y Hy.
    apply in_map_iff in Hy as (x & <- & Hx).
    rewrite Forall_forall in Hall; rewrite (Hall x Hx); lra.
Qed.

Lemma fit_channel_formula (real_pixels_by_channel : list (list R))
    (syn_obj : image) (obj_mask : list bool) (channel : nat)
    (real syn : list R) :
  nth_error real_pixels_by_channel channel = Some real ->
  syn_pixels_of syn_obj obj_mask channel = Ok syn ->
  (2 <= length real)%nat -> (2 <= length syn)%nat ->
  fit_channel real_pixels_by_channel syn_obj obj_mask channel
  = Ok (fin (transfer_scale real syn), fin (transfer_offset real syn)).
Proof.
  intros Hreal Hsyn Hr Hs; unfold fit_channel, index.
  rewrite Hsyn, Hreal; simpl.
  rewrite (std_of_two real Hr), (std_of_two syn Hs).
  rewrite (mean_of_two real Hr), (mean_of_two syn Hs).
  reflexivity.
Qed.

(** C1: with at least two elements in every real and synthetic sample,
    the fitter returns, for each of the three channels, the scale
    [deviation real / max(deviation syn, _EPS)] and the offset
    [mean real - mean syn * scale]; the divisor is positive, and for a
    synthetic sample of zero variance it is [_EPS], so the coefficients
    are numbers. *)
Theorem color_transfer_params_formula
    (r0 r1 r2 : list R) (syn_obj : image) (obj_mask : list bool)
    (mode : string) (converted : image) (s0 s1 s2 : list R) :
  convert rgb_to_hsv mode (Some syn_obj) = Ok converted ->
  syn_pixels_of converted obj_mask 0 = Ok s0 ->
  syn_pixels_of converted obj_mask 1 = Ok s1 ->
  syn_pixels_of converted obj_mask 2 = Ok s2 ->
  Forall (fun xs => (2 <= length xs)%nat) [r0; r1; r2; s0; s1; s2] ->
  params [r0; r1; r2] (Some syn_obj) obj_mask mode
  = Ok [(fin (transfer_scale r0 s0), fin (transfer_offset r0 s0));
        (fin (transfer_scale r1 s1), fin (transfer_offset r1 s1));
        (fin (transfer_scale r2 s2), fin (transfer_offset r2 s2))]
  /\ Forall (fun syn => 0 < Rmax (deviation syn) Lab._EPS) [s0; s1; s2]
  /\ forall real syn v,
       In (real, syn) [(r0, s0); (r1, s1); (r2, s2)] ->
       Forall (fun x => x = v) syn ->
       transfer_scale real syn = deviation real / Lab._EPS
       /\ transfer_offset real syn
          = average real - v * (deviation real / Lab._EPS).
Proof.
  intros Hconv H0 H1 H2 Hlen.
  repeat match goal with
         | H : Forall _ (_ :: _) |- _ => inversion H; subst; clear H
         end.
  split; [| split].
  - unfold _get_color_transfer_params, fitted_coeffs.
    rewrite Hconv; cbn [bind map_result].
    rewrite (fit_channel_formula [r0; r1; r2] converted obj_mask 0
               r0 s0) by (assumption || reflexivity).
    rewrite (fit_channel_formula [r0; r1; r2] converted obj_mask 1
               r1 s1) by (assumption || reflexivity).
    rewrite (fit_channel_formula [r0; r1; r2] converted obj_mask 2
               r2 s2) by (assumption || reflexivity).
    reflexivity.
  - repeat constructor; apply clamped_deviation_pos.
  - intros real syn v Hin Hall.
    assert (Hsyn : (2 <= length syn)%nat).
    { destruct Hin as [E | [E | [E | []]]]; injection E as <- <-;
        assumption. }
    assert (Havg : average syn = v).
    { unfold average; rewrite (rsum_constant v syn Hall); field.
      apply not_0_INR; lia. }
    unfold transfer_offset, transfer_scale.
    rewrite (deviation_constant v syn Hall Hsyn), Havg.
    rewrite Rmax_right by (pose proof eps_pos; lra).
    split; reflexivity.
Qed.

Lemma any_nan_exists (coeffs : list (num * num)) :
  any_nan coeffs = true <->
  Exists (fun row => fst row = NaN \/ snd row = NaN) coeffs.
Proof.
  unfold any_nan; rewrite existsb_exists, Exists_exists.
  split; intros ([a b] & Hin & H); exists (a, b); (split; [exact Hin |]);
    simpl in *.
  - apply orb_prop in H as [H | H]; [left | right];
      [destruct a | destruct b]; (discriminate || reflexivity).
  - destruct H as [-> | ->]; [reflexivity | apply orb_true_r].
Qed.

Lemma map_result_raise {A B} (f : A -> result B) (xs : list A) (e : exn) :
  map_result f xs = Raise e -> exists x, In x xs /\ f x = Raise e.
Proof.
  induction xs as [| x rest IH]; simpl; [discriminate |].
  destruct (f x) as [y | e1] eqn:Hx; simpl.
  - destruct (map_result f rest) as [ys | e2]; simpl; [discriminate |].
    intros H; injection H as ->.
    destruct (IH eq_refl) as (x' & Hin & Hx').
    exists x'; split; [right; exact Hin | exact Hx'].
  - intros H; injection H as ->.
    exists x; split; [left; reflexivity | exact Hx].
Qed.

(** Nothing before the assertion raises an assertion error. *)
Lemma fitted_never_asserts (real_pixels_by_channel : list (list R))
    (syn_obj : option image) (obj_mask : list bool) (mode : string) :
  fitted real_pixels_by_channel syn_obj obj_mask mode
  <> Raise AssertionError.
Proof.
  unfold fitted_coeffs, convert; intros H.
  destruct syn_obj as [syn_obj |].
  - assert (Hbody : forall img,
               map_result
                 (fit_channel real_pixels_by_channel img obj_mask)
                 [0; 1; 2]%nat <> Raise AssertionError).
    { intros img Hraise.
      apply map_result_raise in Hraise as (channel & _ & Hraise).
      unfold fit_channel, syn_pixels_of, channel_of, masked_select, index
        in Hraise.
      destruct (map_result (chan channel) img) as [vals | e] eqn:Hvals;
        simpl in Hraise.
      - destruct (Nat.eqb (length vals) (length obj_mask));
          simpl in Hraise; [| discriminate].
        destruct (nth_error real_pixels_by_channel channel);
          simpl in Hraise; discriminate.
      - injection Hraise as ->.
        apply map_result_raise in Hvals as ([[x0 x1] x2] & _ & Hx).
        destruct channel as [| [| [| c]]]; discriminate Hx. }
    destruct (contains "hsv" mode); [exact (Hbody _ H) |].
    destruct (contains "lab" mode); exact (Hbody _ H).
  - destruct (contains "hsv" mode); [discriminate |].
    destruct (contains "lab" mode); discriminate.
Qed.

(** C7: the fitter fails with an assertion error exactly when the loop
    completes with a NaN among the fitted coefficients; a tensor it
    returns holds no NaN. *)
Theorem assertion_iff_nan (real_pixels_by_channel : list (list R))
    (syn_obj : option image) (obj_mask : list bool) (mode : string) :
  (params real_pixels_by_channel syn_obj obj_mask mode
   = Raise AssertionError
   <-> exists coeffs,
         fitted real_pixels_by_channel syn_obj obj_mask mode = Ok coeffs
         /\ Exists (fun row => fst row = NaN \/ snd row = NaN) coeffs)
  /\ forall coeffs,
       params real_pixels_by_channel syn_obj obj_mask mode = Ok coeffs ->
       fitted real_pixels_by_channel syn_obj obj_mask mode = Ok coeffs
       /\ Forall (fun row => fst row <> NaN /\ snd row <> NaN) coeffs.
Proof.
  pose proof (fitted_never_asserts real_pixels_by_channel syn_obj
                obj_mask mode) as Hnever.
  unfold _get_color_transfer_params.
  destruct (fitted_coeffs rgb_to_hsv real_pixels_by_channel syn_obj
              obj_mask mode) as [coeffs | e]; simpl.
  - destruct (any_nan coeffs) eqn:Hnan.
    + split.
      * split; [intros _ | reflexivity].
        exists coeffs; split; [reflexivity |].
        apply any_nan_exists; exact Hnan.
      * intros out H; discriminate H.
    + split.
      * split; [discriminate |].
        intros (coeffs' & E & Hex); injection E as <-.
        apply any_nan_exists in Hex; congruence.
      * intros out H; injection H as <-; split; [reflexivity |].
        apply Forall_forall; intros row Hin; split; intros Hrow;
          (assert (Hex : any_nan coeffs = true);
           [apply any_nan_exists, Exists_exists; exists row;
            split; [exact Hin | tauto]
           | congruence]).
  - split.
    + split; [intros H; congruence |].
      intros (coeffs & E & _); discriminate E.
    + intros out H; discriminate H.
Qed.

End ColorTransferFitProperties.

Section ColorTransferFitExample.
Import RTensor ColorTransferFit.
Open Scope R_scope.

Local Abbreviation same := StandIns.same_colors.

(** Three real samples, and a synthetic object whose second channel is
    constant. *)
Lemma color_transfer_params_formula_witness :
  _get_color_transfer_params same [[1; 3]; [2; 4]; [0; 1]]
    (Some [(1, 2, 3); (3, 2, 5)]) [true; true] ""
  = Ok [(fin (transfer_scale [1; 3] [1; 3]),
         fin (transfer_offset [1; 3] [1; 3]));
        (fin (transfer_scale [2; 4] [2; 2]),
         fin (transfer_offset [2; 4] [2; 2]));
        (fin (transfer_scale [0; 1] [3; 5]),
         fin (transfer_offset [0; 1] [3; 5]))]
  /\ transfer_scale [2; 4] [2; 2] = deviation [2; 4] / Lab._EPS.
Proof.
  destruct (color_transfer_params_formula same
              [1; 3] [2; 4] [0; 1] [(1, 2, 3); (3, 2, 5)] [true; true] ""
              [(1, 2, 3); (3, 2, 5)] [1; 3] [2; 2] [3; 5])
    as (Hok & _ & Hzero);
    try reflexivity.
  - repeat constructor.
  - split; [exact Hok |].
    apply (Hzero [2; 4] [2; 2] 2);
      [right; left; reflexivity | repeat constructor].
Defined.

End ColorTransferFitExample.

(** ** The custom Lab converters *)

Section LabProperties.
Import RTensor Lab.
Open Scope R_scope.

Lemma clamp_between (lo hi x : R) :
  lo <= hi -> lo <= clamp lo hi x <= hi.
Proof.
  intros H; unfold clamp, Rmin, Rmax.
  destruct (Rle_dec x lo); destruct (Rle_dec _ hi); lra.
Qed.

Lemma clamp_unit_close (x : R) :
  0 <= x <= 1 ->
  x - _EPS <= clamp _EPS (1 - _EPS) x <= x + _EPS.
Proof.
  intros H; unfold clamp, Rmin, Rmax, _EPS.
  destruct (Rle_dec x (1 / 1000000));
    destruct (Rle_dec _ (1 - 1 / 1000000)); lra.
Qed.

Lemma inv_sqrt_square (k : R) : 0 < k -> 1 / sqrt k * (1 / sqrt k) = 1 / k.
Proof.
  intros Hk.
  assert (Hs : sqrt k * sqrt k = k) by (apply sqrt_sqrt; lra).
  assert (Hpos : 0 < sqrt k) by (apply sqrt_lt_R0; exact Hk).
  field_simplify; [| lra | lra].
  replace (sqrt k ^ 2) with k by (rewrite <- Hs at 1; ring).
  reflexivity.
Qed.

(** The two bases are inverse of each other: [loglms_to_lab] followed by
    [lab_to_loglms] is the identity. *)
Lemma lab_basis_inverse (v : vec3) :
  vecmat (vecmat v RGBtoLab.loglms_to_lab) LabtoRGB.lab_to_loglms = v.
Proof.
  destruct v as [[v0 v1] v2].
  pose proof (inv_sqrt_square 3 ltac:(lra)) as H3.
  pose proof (inv_sqrt_square 6 ltac:(lra)) as H6.
  pose proof (inv_sqrt_square 2 ltac:(lra)) as H2.
  unfold RGBtoLab.loglms_to_lab, LabtoRGB.lab_to_loglms, scale, matmul,
    map3, vecmat.
  set (a := 1 / sqrt 3) in *.
  set (b := 1 / sqrt 6) in *.
  set (c := 1 / sqrt 2) in *.
  f_equal; [f_equal |].
  - transitivity (v0 * (3 * (a * a)) + v1 * 0 + v2 * 0); [ring |].
    rewrite H3; lra.
  - transitivity (v0 * 0 + v1 * (6 * (b * b)) + v2 * 0); [ring |].
    rewrite H6; lra.
  - transitivity (v0 * 0 + v1 * 0 + v2 * (2 * (c * c))); [ring |].
    rewrite H2; lra.
Qed.

Lemma lms_positive (x0 x1 x2 : R) :
  _EPS <= x0 -> _EPS <= x1 -> _EPS <= x2 ->
  let '(l, m, s) := vecmat (x0, x1, x2) RGBtoLab.rgb_to_lms in
  0 < l /\ 0 < m /\ 0 < s.
Proof.
  unfold _EPS, vecmat, RGBtoLab.rgb_to_lms; intros H0 H1 H2.
  repeat split; lra.
Qed.

(** The round trip of a pixel is its clamped value through the product of
    the two color matrices. *)
Lemma roundtrip_pixel (p : pixel) :
  LabtoRGB.forward_pixel (RGBtoLab.forward_pixel p)
  = vecmat (vecmat (map3 (clamp _EPS (1 - _EPS)) p) RGBtoLab.rgb_to_lms)
           LabtoRGB.lms_to_rgb.
Proof.
  unfold LabtoRGB.forward_pixel, RGBtoLab.forward_pixel.
  rewrite lab_basis_inverse.
  destruct p as [[r g] b]; cbn [map3].
  assert (Heps : _EPS <= 1 - _EPS) by (unfold _EPS; lra).
  pose proof (clamp_between _EPS (1 - _EPS) r Heps) as [Hr _].
  pose proof (clamp_between _EPS (1 - _EPS) g Heps) as [Hg _].
  pose proof (clamp_between _EPS (1 - _EPS) b Heps) as [Hb _].
  pose proof (lms_positive _ _ _ Hr Hg Hb) as Hpos.
  destruct (vecmat _ RGBtoLab.rgb_to_lms) as [[l m] s].
  destruct Hpos as (Hl & Hm & Hs); cbn [map3].
  rewrite !exp_ln by assumption; reflexivity.
Qed.

(** C3, amended: on every image with values in [0, 1], [RGBtoLab]
    followed by [LabtoRGB] reproduces every pixel within 0.015 per
    channel, in exact arithmetic.  The forward path clamps to
    [_EPS, 1 - _EPS], which keeps the argument of the logarithm
    positive. *)
Theorem lab_roundtrip (inputs : batch) :
  Forall (Forall in_unit_cube) inputs ->
  Forall2 (Forall2 (within (15 / 1000))) inputs
          (LabtoRGB.forward (RGBtoLab.forward inputs)).
Proof.
  unfold LabtoRGB.forward, RGBtoLab.forward.
  induction 1 as [| img rest Himg _ IH]; simpl; constructor; [| exact IH].
  induction Himg as [| p img' Hp _ IHimg]; simpl; constructor;
    [| exact IHimg].
  rewrite roundtrip_pixel.
  destruct p as [[r g] b]; destruct Hp as (Hr & Hg & Hb).
  pose proof (clamp_unit_close r Hr) as Hcr.
  pose proof (clamp_unit_close g Hg) as Hcg.
  pose proof (clamp_unit_close b Hb) as Hcb.
  assert (Heps : _EPS <= 1 - _EPS) by (unfold _EPS; lra).
  pose proof (clamp_between _EPS (1 - _EPS) r Heps) as Hbr.
  pose proof (clamp_between _EPS (1 - _EPS) g Heps) as Hbg.
  pose proof (clamp_between _EPS (1 - _EPS) b Heps) as Hbb.
  cbn [map3].
  set (x0 := clamp _EPS (1 - _EPS) r) in *.
  set (x1 := clamp _EPS (1 - _EPS) g) in *.
  set (x2 := clamp _EPS (1 - _EPS) b) in *.
  unfold within, vecmat, RGBtoLab.rgb_to_lms, LabtoRGB.lms_to_rgb, _EPS
    in *.
  repeat split; apply Rabs_le; lra.
Qed.

(** C3 with the tolerance of a rounding error fails: pure blue comes back
    with more than 0.014 of green. *)
Lemma lab_roundtrip_not_exact :
  in_unit_cube (0, 0, 1)
  /\ ~ within (14 / 1000) (0, 0, 1)
         (LabtoRGB.forward_pixel (RGBtoLab.forward_pixel (0, 0, 1))).
Proof.
  split; [simpl; lra |].
  intros H; rewrite roundtrip_pixel in H.
  cbn [map3] in H.
  assert (H0 : clamp _EPS (1 - _EPS) 0 = _EPS).
  { unfold clamp, Rmin, Rmax, _EPS.
    destruct (Rle_dec 0 (1 / 1000000));
      destruct (Rle_dec _ (1 - 1 / 1000000)); lra. }
  assert (H1 : clamp _EPS (1 - _EPS) 1 = 1 - _EPS).
  { unfold clamp, Rmin, Rmax, _EPS.
    destruct (Rle_dec 1 (1 / 1000000));
      destruct (Rle_dec _ (1 - 1 / 1000000)); lra. }
  rewrite H0, H1 in H.
  unfold within, vecmat, RGBtoLab.rgb_to_lms, LabtoRGB.lms_to_rgb, _EPS
    in H.
  destruct H as (_ & Hgreen & _).
  unfold Rabs in Hgreen; destruct (Rcase_abs _) in Hgreen; lra.
Qed.

End LabProperties.

(** ** Applying fitted coefficients *)

Section ApplyProperties.
Import RTensor Apply.
Open Scope R_scope.

Lemma map_result_succeeds {A B} (f : A -> result B) (xs : list A) :
  (forall x, In x xs -> exists y, f x = Ok y) ->
  exists ys, map_result f xs = Ok ys /\ length ys = length xs.
Proof.
  induction xs as [| x rest IH]; intros H.
  - exists []; split; reflexivity.
  - destruct (H x (or_introl eq_refl)) as (y & Hy).
    destruct IH as (ys & Hys & Hlen);
      [intros x' Hx'; apply H; right; exact Hx' |].
    exists (y :: ys); simpl; rewrite Hy, Hys; simpl.
    split; [reflexivity | congruence].
Qed.

(** *** Broadcasting *)

Lemma broadcast_succeeds {A B} (xs : list A) (ys : list B) :
  length ys = length xs \/ length ys = 1%nat \/ length xs = 1%nat ->
  exists pairs, broadcast xs ys = Ok pairs.
Proof.
  unfold broadcast; intros H.
  destruct (Nat.eqb_spec (length xs) (length ys)) as [_ | Hne];
    [eexists; reflexivity |].
  destruct H as [H | [H | H]]; [congruence | |].
  - destruct ys as [| y [| y' ys]]; try discriminate H.
    destruct xs as [| x [| x' xs]]; eexists; reflexivity.
  - destruct xs as [| x [| x' xs]]; try discriminate H.
    destruct ys as [| y [| y' ys]]; eexists; reflexivity.
Qed.

Lemma broadcast_to_succeeds {A B} (xs : list A) (ys : list B) :
  length ys = length xs \/ length ys = 1%nat ->
  exists pairs,
    broadcast_to xs ys = Ok pairs
    /\ length pairs = length xs
    /\ (forall x y, In (x, y) pairs -> In x xs /\ In y ys).
Proof.
  unfold broadcast_to; intros H.
  destruct (Nat.eqb_spec (length xs) (length ys)) as [Heq | Hne].
  - exists (combine xs ys); split; [reflexivity |].
    split; [rewrite length_combine; lia |].
    intros x y Hin; split;
      [eapply in_combine_l | eapply in_combine_r]; exact Hin.
  - destruct H as [H | H]; [congruence |].
    destruct ys as [| y [| y' ys]]; try discriminate H.
    exists (map (fun x => (x, y)) xs); split; [reflexivity |].
    split; [apply length_map |].
    intros x y0 Hin; apply in_map_iff in Hin as (x' & E & Hx').
    injection E as <- <-; split; [exact Hx' | left; reflexivity].
Qed.

(** *** _color_transfer *)

Lemma assign_pixel_succeeds (channel : nat) (k : triple (R * R))
    (px : pixel * pixel) :
  (channel < 3)%nat -> exists out, assign_pixel channel k px = Ok out.
Proof.
  intros Hc; destruct px as [[[o0 o1] o2] [[l0 l1] l2]].
  destruct k as [[k0 k1] k2].
  destruct channel as [| [| [| c]]]; [| | | lia];
    eexists; reflexivity.
Qed.

Lemma assign_channel_succeeds (lab : batch) (ct_coeffs : ct_coeffs_t)
    (lab_out : batch) (channel : nat) :
  (channel < 3)%nat ->
  length lab_out = length lab ->
  length ct_coeffs = length lab \/ length ct_coeffs = 1%nat ->
  exists out,
    assign_channel lab ct_coeffs lab_out channel = Ok out
    /\ length out = length lab.
Proof.
  intros Hc Hout Hshape; unfold assign_channel.
  destruct (Nat.leb_spec 3 channel) as [Hge | _]; [lia |].
  assert (Hlen : length (combine lab_out lab) = length lab)
    by (rewrite length_combine; lia).
  destruct (broadcast_to_succeeds (combine lab_out lab) ct_coeffs)
    as (pairs & -> & Hpairs & _); [rewrite Hlen; exact Hshape |].
  cbn [bind].
  destruct (map_result_succeeds
              (fun '(img_out, img, k) =>
                 map_result (assign_pixel channel k)
                            (combine img_out img)) pairs)
    as (out & Hmap & Hlen').
  - intros [[img_out img] k] _.
    destruct (map_result_succeeds (assign_pixel channel k)
                                  (combine img_out img))
      as (pixels & Hpixels & _);
      [intros px _; apply assign_pixel_succeeds; exact Hc |].
    exists pixels; exact Hpixels.
  - exists out; split; [exact Hmap |].
    exact (eq_trans Hlen' (eq_trans Hpairs Hlen)).
Qed.

Lemma assign_channels_succeed (lab : batch) (ct_coeffs : ct_coeffs_t)
    (channels : list nat) (lab_out : batch) :
  Forall (fun c => (c < 3)%nat) channels ->
  length lab_out = length lab ->
  length ct_coeffs = length lab \/ length ct_coeffs = 1%nat ->
  exists out,
    for_each channels (assign_channel lab ct_coeffs) lab_out = Ok out.
Proof.
  intros Hch; revert lab_out.
  induction Hch as [| c rest Hc _ IH]; intros lab_out Hout Hshape.
  - exists lab_out; reflexivity.
  - destruct (assign_channel_succeeds lab ct_coeffs lab_out c Hc Hout
                Hshape) as (out & Hstep & Hlen).
    simpl; rewrite Hstep; cbn [bind].
    apply IH; assumption.
Qed.

Lemma color_transfer_raw_succeeds (inputs : batch)
    (ct_coeffs : ct_coeffs_t) (channels : option (list nat))
    (to_space to_rgb : color_tf) :
  valid_ct_shape inputs ct_coeffs channels ->
  exists rgb_out,
    color_transfer_raw inputs ct_coeffs channels (Some (to_space, to_rgb))
    = Ok rgb_out.
Proof.
  unfold valid_ct_shape, color_transfer_raw; intros Hshape.
  assert (Hlab : length (apply_tf to_space inputs) = length inputs)
    by apply length_map.
  destruct channels as [channels |].
  - destruct Hshape as [Hch Hlen].
    destruct (assign_channels_succeed (apply_tf to_space inputs)
                ct_coeffs channels (apply_tf to_space inputs) Hch
                eq_refl) as (out & ->); [rewrite Hlab; exact Hlen |].
    eexists; reflexivity.
  - unfold affine_all.
    destruct (broadcast_succeeds (apply_tf to_space inputs) ct_coeffs)
      as (pairs & ->); [rewrite Hlab; exact Hshape |].
    eexists; reflexivity.
Qed.

(** *** _polynomial_match *)

Lemma poly_channel_succeeds (deg : nat) (channels : list nat)
    (rows : list (list R)) (c : nat) (x : R) :
  (forall i, position c channels = Some i -> (i < length rows)%nat) ->
  exists y, poly_channel deg channels rows c x = Ok y.
Proof.
  unfold poly_channel, index; intros H.
  destruct (position c channels) as [i |]; [| eexists; reflexivity].
  specialize (H i eq_refl).
  destruct (nth_error rows i) eqn:Hnth; [eexists; reflexivity |].
  apply nth_error_None in Hnth; lia.
Qed.

Lemma poly_selected_succeeds (deg : nat) (channels : list nat)
    (rows : list (list R)) (img : image) :
  (forall c i, (c < 3)%nat -> position c channels = Some i ->
               (i < length rows)%nat) ->
  exists out, poly_selected deg channels rows img = Ok out.
Proof.
  intros H; unfold poly_selected.
  destruct (map_result_succeeds
              (fun '(x0, x1, x2) =>
                 y0 <- poly_channel deg channels rows 0 x0 ;;
                 y1 <- poly_channel deg channels rows 1 x1 ;;
                 y2 <- poly_channel deg channels rows 2 x2 ;;
                 Ok (y0, y1, y2)) img) as (out & Hout & _).
  - intros [[x0 x1] x2] _.
    destruct (poly_channel_succeeds deg channels rows 0 x0) as (y0 & ->);
      [intros i; apply H; lia |].
    destruct (poly_channel_succeeds deg channels rows 1 x1) as (y1 & ->);
      [intros i; apply H; lia |].
    destruct (poly_channel_succeeds deg channels rows 2 x2) as (y2 & ->);
      [intros i; apply H; lia |].
    eexists; reflexivity.
  - exists out; exact Hout.
Qed.

Lemma polynomial_raw_succeeds (inputs : batch)
    (poly_coeffs : poly_coeffs_t) (channels : option (list nat))
    (color_space_transforms : option (color_tf * color_tf)) :
  valid_poly_shape inputs poly_coeffs channels ->
  exists outputs,
    polynomial_raw inputs poly_coeffs channels color_space_transforms
    = Ok outputs.
Proof.
  intros (Hbatch & Hrect & Hchan); unfold polynomial_raw.
  replace (negb (Nat.eqb (length poly_coeffs) (length inputs))
           && negb (Nat.eqb (length poly_coeffs) 1))%bool with false.
  2:{ symmetry; destruct Hbatch as [-> | ->];
        [rewrite Nat.eqb_refl; reflexivity |].
      rewrite andb_comm; reflexivity. }
  set (converted :=
         match color_space_transforms with
         | Some (to_space, _) => apply_tf to_space inputs
         | None => inputs
         end).
  assert (Hlen : length converted = length inputs).
  { unfold converted; destruct color_space_transforms as [[f g] |];
      [apply length_map | reflexivity]. }
  destruct (broadcast_to_succeeds converted poly_coeffs)
    as (pairs & Hpairs & _ & Hin); [rewrite Hlen; exact Hbatch |].
  destruct channels as [channels |].
  - cbn [negb]; rewrite Hpairs; cbn [bind].
    replace (forallb (selected_in_range channels
                                        (num_channels poly_coeffs))
                     [0; 1; 2]%nat) with true.
    2:{ symmetry; apply forallb_forall; intros c Hc.
        unfold selected_in_range.
        destruct (position c channels) as [i |] eqn:Hpos;
          [| reflexivity].
        apply Nat.ltb_lt, (Hchan c i); [| exact Hpos].
        simpl in Hc; lia. }
    destruct (map_result_succeeds
                (fun '(img, rows) =>
                   poly_selected (num_degrees poly_coeffs) channels rows
                                 img) pairs) as (out & -> & _).
    + intros [img rows] Hpair.
      apply poly_selected_succeeds; intros c i Hc Hpos.
      destruct (Hin img rows Hpair) as [_ Hrows].
      rewrite Forall_forall in Hrect; rewrite (Hrect rows Hrows).
      exact (Hchan c i Hc Hpos).
    + eexists; reflexivity.
  - replace (negb (Nat.eqb (num_channels poly_coeffs) 1
                   || Nat.eqb (num_channels poly_coeffs) 3))%bool
      with false.
    2:{ symmetry; destruct Hchan as [-> | ->]; reflexivity. }
    rewrite Hpairs; eexists; reflexivity.
Qed.

End ApplyProperties.

(** ** Applying fitted coefficients to float tensors *)

Section FloatApplyProperties.
Import FloatTensor FloatApply.

Variable pow : float -> nat -> float.
Variable sum : list float -> float.

(** *** Clamping *)

(** The clamp lets a NaN through, and nothing else becomes one. *)
Lemma clamp_unit_isnan (x : float) : isnan (clamp_unit x) = isnan x.
Proof.
  unfold clamp_unit, ltb, SFltb.
  destruct x as [s | s | | s m e]; try reflexivity;
    destruct (SFcompare _ (of_Z 0)) as [[| |] |];
    try reflexivity;
    destruct (SFcompare (of_Z 1) _) as [[| |] |]; reflexivity.
Qed.

Lemma clamp_unit_range (x : float) :
  isnan x = false -> in_unit_range (clamp_unit x) = true.
Proof.
  intros Hx.
  assert (Hnan : x <> S754_nan) by (intros ->; discriminate Hx).
  assert (H0 : SFcompare x (of_Z 0) <> None)
    by (apply SFcompare_defined; [exact Hnan | discriminate]).
  assert (H1 : SFcompare (of_Z 1) x <> None)
    by (apply SFcompare_defined; [discriminate | exact Hnan]).
  unfold clamp_unit, in_unit_range, ltb, leb, SFltb, SFleb.
  destruct (SFcompare x (of_Z 0)) as [[| |] |] eqn:E0;
    try contradiction; try reflexivity;
    destruct (SFcompare (of_Z 1) x) as [[| |] |] eqn:E1;
    try contradiction; try reflexivity;
    rewrite (SFcompare_swap x (of_Z 0)), E0,
      (SFcompare_swap (of_Z 1) x), E1; reflexivity.
Qed.

Lemma clamp_unit_or_nan (x : float) : unit_or_nan (clamp_unit x).
Proof.
  unfold unit_or_nan; rewrite clamp_unit_isnan.
  destruct (isnan x) eqn:Hx; [left; reflexivity |].
  right; apply clamp_unit_range; exact Hx.
Qed.

(** What the out-of-range test lets pass is left as it is. *)
Lemma clamp_unit_in_range (x : float) : oob x = false -> clamp_unit x = x.
Proof.
  unfold oob, clamp_unit; intros H.
  apply orb_false_elim in H as [-> ->]; reflexivity.
Qed.

Lemma entries_clamp_batch (b : batch) :
  entries (clamp_batch b) = map clamp_unit (entries b).
Proof.
  unfold entries, clamp_batch.
  rewrite map_map, concat_map, map_map; f_equal.
  apply map_ext; intros img.
  rewrite map_map, concat_map, map_map; f_equal.
  apply map_ext; intros [[x0 x1] x2]; reflexivity.
Qed.

Lemma clamp_batch_unit_or_nan (b : batch) :
  Forall unit_or_nan (entries (clamp_batch b)).
Proof.
  rewrite entries_clamp_batch; apply Forall_map, Forall_forall.
  intros x _; apply clamp_unit_or_nan.
Qed.

Lemma clamp_batch_keeps_nan (b : batch) :
  Forall2 (fun before after => isnan after = isnan before)
          (entries b) (entries (clamp_batch b)).
Proof.
  rewrite entries_clamp_batch.
  induction (entries b) as [| x rest IH]; constructor;
    [apply clamp_unit_isnan | exact IH].
Qed.

Lemma clamp_batch_passed (b : batch) :
  existsb oob (entries b) = false -> clamp_batch b = b.
Proof.
  induction b as [| img rest IH]; [reflexivity |].
  change (entries (img :: rest))
    with (concat (map RTensor.to_list img) ++ entries rest).
  rewrite existsb_app; intros H.
  apply orb_false_elim in H as [Himg Hrest].
  change (clamp_batch (img :: rest))
    with (map (RTensor.map3 clamp_unit) img :: clamp_batch rest).
  rewrite (IH Hrest); f_equal; clear IH Hrest.
  induction img as [| [[x0 x1] x2] img IH]; [reflexivity |].
  simpl in Himg.
  apply orb_false_elim in Himg as [H0 Himg].
  apply orb_false_elim in Himg as [H1 Himg].
  apply orb_false_elim in Himg as [H2 Himg].
  simpl; rewrite (IH Himg), !clamp_unit_in_range by assumption;
    reflexivity.
Qed.

(** *** _color_transfer *)

Lemma float_assign_pixel_succeeds (channel : nat)
    (k : RTensor.triple (float * float)) (px : pixel * pixel) :
  (channel < 3)%nat -> exists out, assign_pixel channel k px = Ok out.
Proof.
  intros Hc; destruct px as [[[o0 o1] o2] [[l0 l1] l2]].
  destruct k as [[k0 k1] k2].
  destruct channel as [| [| [| c]]]; [| | | lia];
    eexists; reflexivity.
Qed.

Lemma float_assign_channel_succeeds (lab : batch)
    (ct_coeffs : ct_coeffs_t) (lab_out : batch) (channel : nat) :
  (channel < 3)%nat ->
  length lab_out = length lab ->
  length ct_coeffs = length lab \/ length ct_coeffs = 1%nat ->
  exists out,
    assign_channel lab ct_coeffs lab_out channel = Ok out
    /\ length out = length lab.
Proof.
  intros Hc Hout Hshape; unfold assign_channel.
  destruct (Nat.leb_spec 3 channel) as [Hge | _]; [lia |].
  assert (Hlen : length (combine lab_out lab) = length lab)
    by (rewrite length_combine; lia).
  destruct (broadcast_to_succeeds (combine lab_out lab) ct_coeffs)
    as (pairs & -> & Hpairs & _); [rewrite Hlen; exact Hshape |].
  cbn [bind].
  destruct (map_result_succeeds
              (fun '(img_out, img, k) =>
                 map_result (assign_pixel channel k)
                            (combine img_out img)) pairs)
    as (out & Hmap & Hlen').
  - intros [[img_out img] k] _.
    destruct (map_result_succeeds (assign_pixel channel k)
                                  (combine img_out img))
      as (pixels & Hpixels & _);
      [intros px _; apply float_assign_pixel_succeeds; exact Hc |].
    exists pixels; exact Hpixels.
  - exists out; split; [exact Hmap |].
    exact (eq_trans Hlen' (eq_trans Hpairs Hlen)).
Qed.

Lemma float_assign_channels_succeed (lab : batch)
    (ct_coeffs : ct_coeffs_t) (channels : list nat) (lab_out : batch) :
  Forall (fun c => (c < 3)%nat) channels ->
  length lab_out = length lab ->
  length ct_coeffs = length lab \/ length ct_coeffs = 1%nat ->
  exists out,
    for_each channels (assign_channel lab ct_coeffs) lab_out = Ok out.
Proof.
  intros Hch; revert lab_out.
  induction Hch as [| c rest Hc _ IH]; intros lab_out Hout Hshape.
  - exists lab_out; reflexivity.
  - destruct (float_assign_channel_succeeds lab ct_coeffs lab_out c Hc
                Hout Hshape) as (out & Hstep & Hlen).
    simpl; rewrite Hstep; cbn [bind].
    apply IH; assumption.
Qed.

Lemma float_color_transfer_raw_succeeds (inputs : batch)
    (ct_coeffs : ct_coeffs_t) (channels : option (list nat))
    (to_space to_rgb : color_tf) :
  valid_ct_shape inputs ct_coeffs channels ->
  exists rgb_out,
    color_transfer_raw inputs ct_coeffs channels (Some (to_space, to_rgb))
    = Ok rgb_out.
Proof.
  unfold valid_ct_shape, color_transfer_raw; intros Hshape.
  assert (Hlab : length (apply_tf to_space inputs) = length inputs)
    by apply length_map.
  destruct channels as [channels |].
  - destruct Hshape as [Hch Hlen].
    destruct (float_assign_channels_succeed (apply_tf to_space inputs)
                ct_coeffs channels (apply_tf to_space inputs) Hch
                eq_refl) as (out & ->); [rewrite Hlab; exact Hlen |].
    eexists; reflexivity.
  - unfold affine_all.
    destruct (broadcast_succeeds (apply_tf to_space inputs) ct_coeffs)
      as (pairs & ->); [rewrite Hlab; exact Hshape |].
    eexists; reflexivity.
Qed.

(** *** _polynomial_match *)

Lemma float_poly_channel_succeeds (deg : nat) (channels : list nat)
    (rows : list (list float)) (c : nat) (x : float) :
  (forall i, Apply.position c channels = Some i ->
             (i < length rows)%nat) ->
  exists y, poly_channel pow sum deg channels rows c x = Ok y.
Proof.
  unfold poly_channel, index; intros H.
  destruct (Apply.position c channels) as [i |]; [| eexists; reflexivity].
  specialize (H i eq_refl).
  destruct (nth_error rows i) eqn:Hnth; [eexists; reflexivity |].
  apply nth_error_None in Hnth; lia.
Qed.

Lemma float_poly_selected_succeeds (deg : nat) (channels : list nat)
    (rows : list (list float)) (img : image) :
  (forall c i, (c < 3)%nat -> Apply.position c channels = Some i ->
               (i < length rows)%nat) ->
  exists out, poly_selected pow sum deg channels rows img = Ok out.
Proof.
  intros H; unfold poly_selected.
  destruct (map_result_succeeds
              (fun '(x0, x1, x2) =>
                 y0 <- poly_channel pow sum deg channels rows 0 x0 ;;
                 y1 <- poly_channel pow sum deg channels rows 1 x1 ;;
                 y2 <- poly_channel pow sum deg channels rows 2 x2 ;;
                 Ok (y0, y1, y2)) img) as (out & Hout & _).
  - intros [[x0 x1] x2] _.
    destruct (float_poly_channel_succeeds deg channels rows 0 x0)
      as (y0 & ->); [intros i; apply H; lia |].
    destruct (float_poly_channel_succeeds deg channels rows 1 x1)
      as (y1 & ->); [intros i; apply H; lia |].
    destruct (float_poly_channel_succeeds deg channels rows 2 x2)
      as (y2 & ->); [intros i; apply H; lia |].
    eexists; reflexivity.
  - exists out; exact Hout.
Qed.

Lemma float_polynomial_raw_succeeds (inputs : batch)
    (poly_coeffs : poly_coeffs_t) (channels : option (list nat))
    (color_space_transforms : option (color_tf * color_tf)) :
  valid_poly_shape inputs poly_coeffs channels ->
  exists outputs,
    polynomial_raw pow sum inputs poly_coeffs channels
                   color_space_transforms
    = Ok outputs.
Proof.
  intros (Hbatch & Hrect & Hchan); unfold polynomial_raw.
  replace (negb (Nat.eqb (length poly_coeffs) (length inputs))
           && negb (Nat.eqb (length poly_coeffs) 1))%bool with false.
  2:{ symmetry; destruct Hbatch as [-> | ->];
        [rewrite Nat.eqb_refl; reflexivity |].
      rewrite andb_comm; reflexivity. }
  set (converted :=
         match color_space_transforms with
         | Some (to_space, _) => apply_tf to_space inputs
         | None => inputs
         end).
  assert (Hlen : length converted = length inputs).
  { unfold converted; destruct color_space_transforms as [[f g] |];
      [apply length_map | reflexivity]. }
  destruct (broadcast_to_succeeds converted poly_coeffs)
    as (pairs & Hpairs & _ & Hin); [rewrite Hlen; exact Hbatch |].
  destruct channels as [channels |].
  - cbn [negb]; rewrite Hpairs; cbn [bind].
    replace (forallb (Apply.selected_in_range
                        channels (num_channels poly_coeffs))
                     [0; 1; 2]%nat) with true.
    2:{ symmetry; apply forallb_forall; intros c Hc.
        unfold Apply.selected_in_range.
        destruct (Apply.position c channels) as [i |] eqn:Hpos;
          [| reflexivity].
        apply Nat.ltb_lt, (Hchan c i); [| exact Hpos].
        simpl in Hc; lia. }
    destruct (map_result_succeeds
                (fun '(img, rows) =>
                   poly_selected pow sum (num_degrees poly_coeffs)
                                 channels rows img) pairs)
      as (out & -> & _).
    + intros [img rows] Hpair.
      apply float_poly_selected_succeeds; intros c i Hc Hpos.
      destruct (Hin img rows Hpair) as [_ Hrows].
      rewrite Forall_forall in Hrect; rewrite (Hrect rows Hrows).
      exact (Hchan c i Hc Hpos).
    + eexists; reflexivity.
  - replace (negb (Nat.eqb (num_channels poly_coeffs) 1
                   || Nat.eqb (num_channels poly_coeffs) 3))%bool
      with false.
    2:{ symmetry; destruct Hchan as [-> | ->]; reflexivity. }
    rewrite Hpairs; eexists; reflexivity.
Qed.

(** C6, amended: for every batch of float images, every coefficient
    tensor of a valid shape, every pair of converters and whatever the
    tensor library's power and sum return, both functions return, never
    raising, the clamp of what they computed: every entry of the result
    lies in [0, 1] or is NaN, and it is NaN exactly when it was NaN before
    clipping, since a NaN passes the clamp as it passes the out-of-range
    test.  Every other value out of range, an infinity included, is
    clamped.  [_color_transfer] logs one record exactly when some entry
    is below 0 or above 1; [_polynomial_match] clamps without logging. *)
Theorem relight_outputs_in_unit_range (inputs : batch)
    (to_space to_rgb : color_tf) :
  (forall ct_coeffs channels,
     valid_ct_shape inputs ct_coeffs channels ->
     exists rgb_out out log,
       color_transfer_raw inputs ct_coeffs channels
                          (Some (to_space, to_rgb)) = Ok rgb_out
       /\ _color_transfer inputs ct_coeffs channels
                          (Some (to_space, to_rgb)) = Ok (out, log)
       /\ out = clamp_batch rgb_out
       /\ Forall unit_or_nan (entries out)
       /\ Forall2 (fun before after => isnan after = isnan before)
                  (entries rgb_out) (entries out)
       /\ (existsb oob (entries rgb_out) = true -> length log = 1%nat)
       /\ (existsb oob (entries rgb_out) = false -> log = []))
  /\ (forall poly_coeffs channels color_space_transforms,
        valid_poly_shape inputs poly_coeffs channels ->
        exists outputs out,
          polynomial_raw pow sum inputs poly_coeffs channels
                         color_space_transforms = Ok outputs
          /\ _polynomial_match pow sum inputs poly_coeffs channels
                               color_space_transforms = Ok (out, [])
          /\ out = clamp_batch outputs
          /\ Forall unit_or_nan (entries out)
          /\ Forall2 (fun before after => isnan after = isnan before)
                     (entries outputs) (entries out)).
Proof.
  split.
  - intros ct_coeffs channels Hshape.
    destruct (float_color_transfer_raw_succeeds inputs ct_coeffs channels
                to_space to_rgb Hshape) as (rgb_out & Hraw).
    unfold _color_transfer; rewrite Hraw; cbn [bind].
    exists rgb_out, (clamp_batch rgb_out).
    destruct (existsb oob (entries rgb_out)) eqn:Hoob.
    + eexists; repeat split;
        [apply clamp_batch_unit_or_nan | apply clamp_batch_keeps_nan
         | discriminate].
    + exists []; rewrite (clamp_batch_passed rgb_out Hoob) at 1.
      repeat split;
        [apply clamp_batch_unit_or_nan | apply clamp_batch_keeps_nan
         | discriminate].
  - intros poly_coeffs channels tfs Hshape.
    destruct (float_polynomial_raw_succeeds inputs poly_coeffs channels
                tfs Hshape) as (outputs & Hraw).
    unfold _polynomial_match; rewrite Hraw; cbn [bind].
    exists outputs, (clamp_batch outputs); repeat split;
      [apply clamp_batch_unit_or_nan | apply clamp_batch_keeps_nan].
Qed.

End FloatApplyProperties.

Section LabExample.
Import RTensor Lab.
Open Scope R_scope.

Lemma lab_roundtrip_witness :
  Forall2 (Forall2 (within (15 / 1000)))
          [[(0, 0, 1); (1 / 2, 1 / 4, 1)]]
          (LabtoRGB.forward
             (RGBtoLab.forward [[(0, 0, 1); (1 / 2, 1 / 4, 1)]])).
Proof.
  apply (lab_roundtrip [[(0, 0, 1); (1 / 2, 1 / 4, 1)]]).
  repeat constructor; lra.
Defined.

End LabExample.

Section FloatApplyExample.
Import FloatTensor FloatApply.

Local Abbreviation same := StandIns.same_float_pixel.
Local Abbreviation power := StandIns.power.
Local Abbreviation total := StandIns.total.
Local Abbreviation half := (div (of_Z 1) (of_Z 2)).

(** The polynomial [3 x] on a pixel of value 1/2: 3/2 before clipping. *)
Lemma relight_outputs_in_unit_range_witness :
  exists outputs out,
    polynomial_raw power total [[(half, of_Z 0, of_Z 0)]]
                   [[[of_Z 3; of_Z 0]]] None None = Ok outputs
    /\ _polynomial_match power total [[(half, of_Z 0, of_Z 0)]]
                         [[[of_Z 3; of_Z 0]]] None None
       = Ok (out, [])
    /\ out = clamp_batch outputs
    /\ Forall unit_or_nan (entries out)
    /\ Forall2 (fun before after => isnan after = isnan before)
               (entries outputs) (entries out).
Proof.
  apply (proj2 (relight_outputs_in_unit_range
                  power total [[(half, of_Z 0, of_Z 0)]] same same)
               [[[of_Z 3; of_Z 0]]] None None).
  split; [left; reflexivity |].
  split; [repeat constructor | left; reflexivity].
Defined.

(** C6 as stated fails twice.  With the row of NaN that
    [_simple_percentile] returns for an empty region,
    [_polynomial_match] returns, without raising, an image whose every
    entry is NaN, so none lies in [0, 1].  And with the polynomial [3 x]
    the value 3/2 is out of range before clipping and nothing is
    logged. *)
Lemma polynomial_match_never_logs :
  (exists out,
     _polynomial_match power total [[(half, half, half)]]
                       [[[NaN; NaN]]] None None = Ok (out, [])
     /\ entries out = [NaN; NaN; NaN]
     /\ forallb in_unit_range (entries out) = false)
  /\ (exists outputs out,
        polynomial_raw power total [[(half, of_Z 0, of_Z 0)]]
                       [[[of_Z 3; of_Z 0]]] None None = Ok outputs
        /\ existsb oob (entries outputs) = true
        /\ _polynomial_match power total [[(half, of_Z 0, of_Z 0)]]
                             [[[of_Z 3; of_Z 0]]] None None
           = Ok (out, [])
        /\ entries out = [of_Z 1; of_Z 0; of_Z 0]).
Proof.
  split.
  - eexists; split; [vm_compute; reflexivity |].
    split; vm_compute; reflexivity.
  - eexists; eexists; split; [vm_compute; reflexivity |].
    split; [vm_compute; reflexivity |].
    split; vm_compute; reflexivity.
Qed.

End FloatApplyExample.

(** ** The affine branch of the sign transform *)

Section SignTransformProperties.
Import RealismTest.
Open Scope Q_scope.

Variable getAffineTransform : list point -> list point -> result matrix.
Variable get_perspective_transform :
  list point -> list point -> result (list matrix).

Local Abbreviation sign_tf :=
  (sign_tf_matrix getAffineTransform get_perspective_transform).

Lemma cat_dim1_row (m : matrix) (out : list matrix) :
  cat_dim1 [m] [[[0; 0; 1]]] = Ok out ->
  out = [m ++ [[0; 0; 1]]]
  /\ Forall (fun row => length row = 3%nat) m.
Proof.
  unfold cat_dim1; simpl.
  destruct (row_lengths_agree m [[0; 0; 1]]) eqn:Hrows; simpl;
    [| discriminate].
  intros H; injection H as <-; split; [reflexivity |].
  unfold row_lengths_agree in Hrows.
  destruct m as [| r rest]; simpl in Hrows; [constructor |].
  rewrite forallb_app in Hrows; cbn [forallb] in Hrows.
  apply andb_prop in Hrows as [Hrest Hlast].
  rewrite andb_true_r in Hlast.
  apply Nat.eqb_eq in Hlast; simpl in Hlast.
  constructor; [symmetry; exact Hlast |].
  rewrite forallb_forall in Hrest.
  apply Forall_forall; intros row Hin.
  specialize (Hrest row Hin); apply Nat.eqb_eq in Hrest; congruence.
Qed.

Lemma cat_dim1_rows (m : matrix) :
  Forall (fun row => length row = 3%nat) m ->
  cat_dim1 [m] [[[0; 0; 1]]] = Ok [m ++ [[0; 0; 1]]].
Proof.
  intros Hrows; unfold cat_dim1; cbn [length combine forallb Nat.eqb].
  replace (row_lengths_agree m [[0; 0; 1]]) with true; [reflexivity |].
  symmetry; unfold row_lengths_agree.
  destruct m as [| r rest]; [reflexivity |].
  cbn [app]; rewrite forallb_app; cbn [forallb].
  inversion Hrows as [| r' rest' Hr Hrest]; subst.
  apply andb_true_intro; split.
  - apply forallb_forall; intros row Hin.
    rewrite Forall_forall in Hrest.
    rewrite (Hrest row Hin), Hr; reflexivity.
  - rewrite Hr; reflexivity.
Qed.

(** C8: on the affine branch the matrix is the one of
    [cv.getAffineTransform] with the row [0, 0, 1] appended as its last
    row.  Whatever the branch returns has this form, and the branch does
    return it as soon as [cv.getAffineTransform] returns rows of three
    entries; with two such rows the result is a single 3x3 matrix. *)
Theorem affine_last_row (geo_method : string) (src : list point)
    (sign : corners) :
  affine_path geo_method src = true ->
  (forall m,
     getAffineTransform (firstn 3 src) (rescale (firstn 3 sign)) = Ok m ->
     Forall (fun row => length row = 3%nat) m ->
     sign_tf geo_method src sign = Ok (Some [m ++ [[0; 0; 1]]]))
  /\ (forall r,
        sign_tf geo_method src sign = Ok r ->
        exists m,
          getAffineTransform (firstn 3 src) (rescale (firstn 3 sign)) = Ok m
          /\ r = Some [m ++ [[0; 0; 1]]]
          /\ last (m ++ [[0; 0; 1]]) [] = [0; 0; 1]
          /\ Forall (fun row => length row = 3%nat) (m ++ [[0; 0; 1]])
          /\ (length m = 2%nat -> length (m ++ [[0; 0; 1]]) = 3%nat)).
Proof.
  unfold affine_path, sign_tf_matrix.
  intros Hpath; apply andb_prop in Hpath as [Hgeo Hthree].
  rewrite Hgeo, Hthree; split.
  - intros m Hm Hrows; rewrite Hm; cbn [bind].
    rewrite (cat_dim1_rows m Hrows); reflexivity.
  - intros r H.
    apply bind_ok in H as (m & Hm & H).
    apply bind_ok in H as (out & Hcat & H).
    injection H as <-.
    apply cat_dim1_row in Hcat as [-> Hrows].
    exists m; repeat split.
    + exact Hm.
    + apply last_last.
    + apply Forall_app; split; [exact Hrows | repeat constructor].
    + intros Hlen; rewrite length_app, Hlen; reflexivity.
Qed.

End SignTransformProperties.

Section SignTransformExample.
Import RealismTest.
Open Scope Q_scope.

Local Abbreviation no_perspective := StandIns.no_perspective.

(** A triangle sign under the method ["perspective"]: three source points
    select the affine branch. *)
Lemma affine_last_row_witness :
  exists m,
    solve_affine (firstn 3 [(0, 0); (1, 0); (0, 1)])
      (rescale (firstn 3 [(0, 0); (6036, 0); (0, 6036); (6036, 6036)]))
    = Ok m
    /\ Forall2 (Forall2 Qeq) m [[2048; 0; 0]; [0; 2048; 0]]
    /\ sign_tf_matrix solve_affine no_perspective "perspective"
         [(0, 0); (1, 0); (0, 1)]
         [(0, 0); (6036, 0); (0, 6036); (6036, 6036)]
       = Ok (Some [m ++ [[0; 0; 1]]]).
Proof.
  eexists; split; [vm_compute; reflexivity |].
  split; [repeat constructor |].
  apply (proj1 (affine_last_row solve_affine no_perspective "perspective"
                  [(0, 0); (1, 0); (0, 1)]
                  [(0, 0); (6036, 0); (0, 6036); (6036, 6036)] eq_refl));
    [vm_compute; reflexivity | repeat constructor].
Defined.

End SignTransformExample.

(** * Further properties of the code *)

(** ** Sorting and percentiles *)

Section SortProperties.
Import QTensor.
Open Scope Q_scope.

Variable A : Type.
Variable key : A -> Q.

Lemma insert_by_perm (x : A) (l : list A) :
  Permutation (insert_by key x l) (x :: l).
Proof.
  induction l as [| y rest IH]; simpl; [reflexivity |].
  destruct (Qle_bool (key x) (key y)); [reflexivity |].
  rewrite IH; apply perm_swap.
Qed.

Lemma sort_by_perm (l : list A) : Permutation (sort_by key l) l.
Proof.
  induction l as [| x rest IH]; simpl; [reflexivity |].
  unfold sort_by in *; simpl.
  rewrite insert_by_perm; constructor; exact IH.
Qed.

Lemma sort_by_length (l : list A) : length (sort_by key l) = length l.
Proof. apply Permutation_length, sort_by_perm. Qed.

Lemma insert_by_sorted (x : A) (l : list A) :
  StronglySorted (fun a b => key a <= key b) l ->
  StronglySorted (fun a b => key a <= key b) (insert_by key x l).
Proof.
  induction 1 as [| y rest Hrest IH Hy]; simpl.
  - repeat constructor.
  - destruct (Qle_bool (key x) (key y)) eqn:Hle.
    + apply Qle_bool_iff in Hle.
      constructor; [constructor; assumption |].
      constructor; [exact Hle |].
      rewrite Forall_forall in *; intros z Hz.
      apply Qle_trans with (key y); [exact Hle | apply Hy; exact Hz].
    + assert (Hyx : key y <= key x).
      { apply Qnot_lt_le; intros Hlt.
        apply Qlt_le_weak, Qle_bool_iff in Hlt; congruence. }
      constructor; [exact IH |].
      apply Forall_forall; intros z Hz.
      apply (Permutation_in _ (insert_by_perm x rest)) in Hz.
      destruct Hz as [<- | Hz]; [exact Hyx |].
      rewrite Forall_forall in Hy; apply Hy; exact Hz.
Qed.

Lemma sort_by_sorted (l : list A) :
  StronglySorted (fun a b => key a <= key b) (sort_by key l).
Proof.
  induction l as [| x rest IH]; [constructor |].
  apply insert_by_sorted; exact IH.
Qed.

Lemma sorted_nth (l : list A) (d : A) (i j : nat) :
  StronglySorted (fun a b => key a <= key b) l ->
  (i <= j)%nat -> (j < length l)%nat ->
  key (nth i l d) <= key (nth j l d).
Proof.
  intros Hs; revert i j; induction Hs as [| x rest Hrest IH Hx];
    intros i j Hij Hj; simpl in Hj; [lia |].
  destruct i as [| i], j as [| j]; simpl; try lia.
  - apply Qle_refl.
  - rewrite Forall_forall in Hx; apply Hx, nth_In; lia.
  - apply IH; lia.
Qed.

End SortProperties.

Section PercentileBounds.
Import QTensor Fitters.
Open Scope Q_scope.

Lemma of_nat_floor (v : Q) :
  0 <= v -> of_nat (Z.to_nat (Qfloor v)) = inject_Z (Qfloor v).
Proof.
  intros Hv; unfold of_nat; rewrite Z2Nat.id; [reflexivity |].
  change 0%Z with (Qfloor 0); apply Qfloor_resp_le; exact Hv.
Qed.

Lemma of_nat_le (m n : nat) : (m <= n)%nat -> of_nat m <= of_nat n.
Proof.
  intros H; unfold of_nat; rewrite <- Zle_Qle; lia.
Qed.

Lemma of_nat_succ (n : nat) : of_nat (n + 1) == of_nat n + 1.
Proof.
  unfold of_nat; rewrite Nat2Z.inj_add, inject_Z_plus; reflexivity.
Qed.

(** The position below a virtual index inside the sample is inside the
    sample. *)
Lemma floor_in_range (v : Q) (n : nat) :
  0 <= v -> v <= of_nat n -> (Z.to_nat (Qfloor v) <= n)%nat.
Proof.
  intros H0 Hn.
  assert (Hf : (Qfloor v <= Z.of_nat n)%Z).
  { rewrite <- (Qfloor_Z (Z.of_nat n)); apply Qfloor_resp_le; exact Hn. }
  lia.
Qed.

(** Linear interpolation between two neighbours of a sorted sample lies
    between them. *)
Lemma interpolation_between (s : list Q) (d v : Q) :
  StronglySorted Qle s -> s <> [] ->
  0 <= v -> v <= of_nat (length s - 1) ->
  let lo := Z.to_nat (Qfloor v) in
  let hi := Nat.min (lo + 1) (length s - 1) in
  let r := nth lo s d + (nth hi s d - nth lo s d) * (v - of_nat lo) in
  nth lo s d <= r /\ r <= nth hi s d.
Proof.
  intros Hs Hne H0 Hn lo hi r.
  assert (Hlen : (0 < length s)%nat) by (destruct s; simpl; [congruence | lia]).
  assert (Hlo : (lo <= length s - 1)%nat) by (apply floor_in_range; assumption).
  assert (Hle : nth lo s d <= nth hi s d).
  { apply (sorted_nth Q (fun x => x) s d lo hi Hs); unfold hi; lia. }
  assert (Hg0 : 0 <= v - of_nat lo).
  { unfold lo; rewrite of_nat_floor by exact H0.
    pose proof (Qfloor_le v); lra. }
  assert (Hg1 : v - of_nat lo <= 1).
  { unfold lo; rewrite of_nat_floor by exact H0.
    pose proof (Qlt_floor v) as Hlt.
    rewrite inject_Z_plus in Hlt. change (inject_Z 1) with 1 in Hlt. lra. }
  unfold r; split; nra.
Qed.

End PercentileBounds.

Section PercentilePairBounds.
Import QTensor Fitters.
Open Scope Q_scope.

Local Abbreviation sorted_sample a := (sort_by (fun x : Q => x) a).
Local Abbreviation virtual_index a q :=
  (of_nat (length a - 1) * (inject_Z q / 100)).

Lemma virtual_index_range (a : list Q) (q : Z) :
  (0 <= q <= 100)%Z ->
  0 <= virtual_index a q /\ virtual_index a q <= of_nat (length a - 1).
Proof.
  intros [H0 H100].
  assert (Hn : 0 <= of_nat (length a - 1)).
  { apply (of_nat_le 0); lia. }
  assert (Hq0 : 0 <= inject_Z q) by (rewrite Zle_Qle in H0; exact H0).
  assert (Hq1 : inject_Z q <= 100) by (rewrite Zle_Qle in H100; exact H100).
  assert (Hf0 : 0 <= inject_Z q / 100).
  { apply Qle_shift_div_l; [reflexivity | lra]. }
  assert (Hf1 : inject_Z q / 100 <= 1).
  { apply Qle_shift_div_r; [reflexivity | lra]. }
  split; nra.
Qed.

Lemma virtual_index_mono (a : list Q) (q1 q2 : Z) :
  (q1 <= q2)%Z -> virtual_index a q1 <= virtual_index a q2.
Proof.
  intros H.
  assert (Hn : 0 <= of_nat (length a - 1)).
  { apply (of_nat_le 0); lia. }
  assert (Hq : inject_Z q1 <= inject_Z q2) by (rewrite <- Zle_Qle; exact H).
  assert (Hd : inject_Z q1 / 100 <= inject_Z q2 / 100).
  { unfold Qdiv; apply Qmult_le_compat_r; [exact Hq | discriminate]. }
  nra.
Qed.

(** On a sample that is not empty [nanpercentile] returns the
    interpolation between two neighbours of the sorted sample. *)
Lemma nanpercentile_value (a : list Q) (q : Z) :
  a <> [] -> (0 <= q <= 100)%Z ->
  let s := sorted_sample a in
  let lo := Z.to_nat (Qfloor (virtual_index a q)) in
  let hi := Nat.min (lo + 1) (length a - 1) in
  nanpercentile a q
  = Ok (fin (nth lo s 0 + (nth hi s 0 - nth lo s 0)
                          * (virtual_index a q - of_nat lo))).
Proof.
  intros Hne Hq s lo hi.
  unfold nanpercentile.
  replace ((0 <=? q)%Z && (q <=? 100)%Z) with true
    by (symmetry; apply andb_true_intro; split; apply Z.leb_le; lia).
  cbn [negb].
  pose proof (sort_by_length Q (fun x => x) a) as Hlen.
  fold s in Hlen |- *.
  assert (Hlo : (lo <= length a - 1)%nat).
  { apply floor_in_range; apply virtual_index_range; exact Hq. }
  destruct s as [| s0 rest] eqn:Hs.
  - destruct a; [congruence | discriminate Hlen].
  - rewrite Hlen.
    fold lo. fold hi.
    rewrite (nth_indep (s0 :: rest) s0 0) by (rewrite Hlen; destruct a; simpl in *; [congruence | lia]).
    rewrite (nth_indep (s0 :: rest) s0 0) by (rewrite Hlen; unfold hi; destruct a; simpl in *; [congruence | lia]).
    reflexivity.
Qed.

Lemma nanpercentile_range (a : list Q) (q : Z) (lower upper : Q) :
  a <> [] -> (0 <= q <= 100)%Z ->
  (forall x, In x a -> lower <= x /\ x <= upper) ->
  exists r, nanpercentile a q = Ok (fin r) /\ lower <= r /\ r <= upper.
Proof.
  intros Hne Hq Hin.
  rewrite (nanpercentile_value a q Hne Hq).
  eexists; split; [reflexivity |].
  pose proof (sort_by_length Q (fun x => x) a) as Hlen.
  pose proof (sort_by_sorted Q (fun x => x) a) as Hsorted.
  destruct (virtual_index_range a q Hq) as [Hv0 Hv1].
  assert (Hsne : sorted_sample a <> []).
  { intros E; rewrite E in Hlen; destruct a; [congruence | discriminate]. }
  set (v := virtual_index a q) in *.
  assert (Hlo : (Z.to_nat (Qfloor v) <= length a - 1)%nat).
  { apply floor_in_range; assumption. }
  rewrite <- Hlen in Hv1.
  destruct (interpolation_between (sorted_sample a) 0 v
              Hsorted Hsne Hv0 Hv1) as [H1 H2].
  rewrite Hlen in H1, H2.
  assert (Hpos : (0 < length a)%nat) by (destruct a; simpl; [congruence | lia]).
  assert (Hmem : forall i, (i < length a)%nat ->
                     lower <= nth i (sorted_sample a) 0
                     /\ nth i (sorted_sample a) 0 <= upper).
  { intros i Hi; apply Hin.
    apply (Permutation_in _ (sort_by_perm Q (fun x => x) a)).
    apply nth_In; rewrite Hlen; exact Hi. }
  split.
  - eapply Qle_trans; [| exact H1]. apply Hmem; lia.
  - eapply Qle_trans; [exact H2 |]. apply Hmem; lia.
Qed.

Lemma nanpercentile_mono (a : list Q) (q1 q2 : Z) :
  a <> [] -> (0 <= q1)%Z -> (q1 <= q2)%Z -> (q2 <= 100)%Z ->
  exists r1 r2,
    nanpercentile a q1 = Ok (fin r1) /\ nanpercentile a q2 = Ok (fin r2)
    /\ r1 <= r2.
Proof.
  intros Hne H0 H12 H100.
  rewrite (nanpercentile_value a q1 Hne) by lia.
  rewrite (nanpercentile_value a q2 Hne) by lia.
  do 2 eexists; split; [reflexivity | split; [reflexivity |]].
  pose proof (sort_by_length Q (fun x => x) a) as Hlen.
  pose proof (sort_by_sorted Q (fun x => x) a) as Hsorted.
  assert (Hsne : sorted_sample a <> []).
  { intros E; rewrite E in Hlen; destruct a; [congruence | discriminate]. }
  destruct (virtual_index_range a q1 ltac:(lia)) as [Hv0 Hv1].
  destruct (virtual_index_range a q2 ltac:(lia)) as [Hw0 Hw1].
  pose proof (virtual_index_mono a q1 q2 H12) as Hvw.
  set (v := virtual_index a q1) in *.
  set (w := virtual_index a q2) in *.
  assert (Hlo1 : (Z.to_nat (Qfloor v) <= length a - 1)%nat)
    by (apply floor_in_range; assumption).
  assert (Hlo2 : (Z.to_nat (Qfloor w) <= length a - 1)%nat)
    by (apply floor_in_range; assumption).
  rewrite <- Hlen in Hv1, Hw1.
  destruct (interpolation_between (sorted_sample a) 0 v
              Hsorted Hsne Hv0 Hv1) as [_ Hup].
  destruct (interpolation_between (sorted_sample a) 0 w
              Hsorted Hsne Hw0 Hw1) as [Hdown _].
  rewrite Hlen in Hup, Hdown.
  assert (Hfl : (Qfloor v <= Qfloor w)%Z) by (apply Qfloor_resp_le; exact Hvw).
  assert (Hfv : (0 <= Qfloor v)%Z).
  { change 0%Z with (Qfloor 0); apply Qfloor_resp_le; exact Hv0. }
  destruct (Z.eq_dec (Qfloor v) (Qfloor w)) as [Heq | Hneq].
  - rewrite <- Heq.
    set (lo := Z.to_nat (Qfloor v)) in *.
    set (hi := Nat.min (lo + 1) (length a - 1)).
    assert (Hle : nth lo (sorted_sample a) 0 <= nth hi (sorted_sample a) 0).
    { apply (sorted_nth Q (fun x => x) _ 0 lo hi Hsorted);
        rewrite ?Hlen; unfold hi; destruct a; simpl in *; try congruence; lia. }
    nra.
  - eapply Qle_trans; [exact Hup |].
    eapply Qle_trans; [| exact Hdown].
    apply (sorted_nth Q (fun x => x) _ 0 _ _ Hsorted).
    + lia.
    + rewrite Hlen; destruct a; simpl in *; try congruence; lia.
Qed.

(** X1: for a sample that is not empty and a folded percentile between 0
    and 50, the two percentiles [min_] and [max_] of the loop of
    [_simple_percentile] are numbers within the range of the sample, the
    lower one not above the upper one, and the row [[max_ - min_, min_]]
    holds a scale that is not negative and an offset within the range of
    the sample.  Nothing is said of offset plus scale: the code stores
    the scale rounded to float32, which can move that sum off [max_]. *)
Theorem percentile_pair_within_sample (sample : list Q) (pct : Z)
    (lower upper : Q) :
  sample <> [] -> (0 <= pct <= 50)%Z ->
  (forall x, In x sample -> lower <= x /\ x <= upper) ->
  exists min_ max_ scale offset,
    nanpercentile sample pct = Ok (fin min_)
    /\ nanpercentile sample (100 - pct) = Ok (fin max_)
    /\ percentile_pair sample pct = Ok (fin scale, fin offset)
    /\ lower <= min_ /\ min_ <= max_ /\ max_ <= upper
    /\ 0 <= scale /\ lower <= offset /\ offset <= upper.
Proof.
  intros Hne Hpct Hin.
  destruct (nanpercentile_mono sample pct (100 - pct) Hne)
    as (r1 & r2 & E1 & E2 & Hle); try lia.
  destruct (nanpercentile_range sample pct lower upper Hne ltac:(lia) Hin)
    as (r1' & E1' & Hl & _).
  destruct (nanpercentile_range sample (100 - pct) lower upper Hne
              ltac:(lia) Hin) as (r2' & E2' & _ & Hu).
  rewrite E1 in E1'; injection E1' as <-.
  rewrite E2 in E2'; injection E2' as <-.
  exists r1, r2, (r2 - r1), r1.
  unfold percentile_pair; rewrite E1, E2; cbn.
  repeat split; try reflexivity; lra.
Qed.

(** Three pixels and the tenth percentile. *)
Lemma percentile_pair_within_sample_witness :
  exists min_ max_ scale offset,
    nanpercentile [3; 1; 2] 10 = Ok (fin min_)
    /\ nanpercentile [3; 1; 2] (100 - 10) = Ok (fin max_)
    /\ percentile_pair [3; 1; 2] 10 = Ok (fin scale, fin offset)
    /\ 1 <= min_ /\ min_ <= max_ /\ max_ <= 3
    /\ 0 <= scale /\ 1 <= offset /\ offset <= 3.
Proof.
  apply (percentile_pair_within_sample [3; 1; 2] 10 1 3).
  - discriminate.
  - lia.
  - intros x [<- | [<- | [<- | []]]]; split; discriminate.
Defined.

End PercentilePairBounds.

(** ** The pixels [_fit_polynomial] keeps *)

Section KeepProperties.
Import PyFloat QTensor Fitters.
Open Scope Q_scope.

Lemma enumerate_from (A : Type) (l : list A) (s i : nat) (v : A) :
  In (i, v) (combine (seq s (length l)) l)
  <-> (s <= i)%nat /\ nth_error l (i - s) = Some v.
Proof.
  revert s; induction l as [| x rest IH]; intros s; simpl.
  - split; [intros [] | intros [_ H]; destruct (i - s)%nat; discriminate H].
  - split.
    + intros [H | H].
      * injection H as <- <-; split; [lia |].
        rewrite Nat.sub_diag; reflexivity.
      * apply IH in H as [Hs Hn]; split; [lia |].
        replace (i - s)%nat with (S (i - S s)) by lia; exact Hn.
    + intros [Hs Hn].
      destruct (Nat.eq_dec i s) as [-> | Hne].
      * rewrite Nat.sub_diag in Hn; injection Hn as <-; left; reflexivity.
      * right; apply IH; split; [lia |].
        replace (i - s)%nat with (S (i - S s)) in Hn by lia; exact Hn.
Qed.

Lemma enumerate_In (A : Type) (l : list A) (i : nat) (v : A) :
  In (i, v) (enumerate l) <-> nth_error l i = Some v.
Proof.
  unfold enumerate; rewrite enumerate_from, Nat.sub_0_r.
  split; [intros [_ H]; exact H | intros H; split; [lia | exact H]].
Qed.

Lemma enumerate_fst (A : Type) (l : list A) :
  map fst (enumerate l) = seq 0 (length l).
Proof.
  unfold enumerate; generalize 0%nat.
  induction l as [| x rest IH]; intros s; simpl; [reflexivity |].
  f_equal; apply IH.
Qed.

Lemma sorted_app_le (A : Type) (key : A -> Q) (l1 l2 : list A) :
  StronglySorted (fun a b => key a <= key b) (l1 ++ l2) ->
  forall x y, In x l1 -> In y l2 -> key x <= key y.
Proof.
  induction l1 as [| z rest IH]; simpl; intros Hs x y Hx Hy; [destruct Hx |].
  inversion Hs as [| ? ? Hrest Hall]; subst.
  destruct Hx as [<- | Hx].
  - rewrite Forall_forall in Hall; apply Hall, in_or_app; right; exact Hy.
  - apply IH; assumption.
Qed.

(** [torch.topk(values, k, largest=False)]: [k] distinct positions of
    [values], none of them holding a larger entry than a position left
    out. *)
Lemma topk_smallest_spec (values : list Q) (k : Z) :
  (0 <= k <= Z.of_nat (length values))%Z ->
  exists indices,
    topk_smallest values k = Ok indices
    /\ length indices = Z.to_nat k
    /\ NoDup indices
    /\ (forall i, In i indices -> (i < length values)%nat)
    /\ (forall i j, In i indices -> (j < length values)%nat ->
                    ~ In j indices ->
                    nth i values 0 <= nth j values 0).
Proof.
  intros Hk; unfold topk_smallest.
  replace ((k <? 0)%Z || (Z.of_nat (length values) <? k)%Z)%bool with false
    by (symmetry; apply orb_false_intro; apply Z.ltb_ge; lia).
  set (sorted := sort_by snd (enumerate values)).
  assert (Hperm : Permutation sorted (enumerate values))
    by apply sort_by_perm.
  assert (Hfst : Permutation (map fst sorted) (seq 0 (length values))).
  { rewrite <- enumerate_fst; apply Permutation_map; exact Hperm. }
  assert (Hsplit : sorted = firstn (Z.to_nat k) sorted
                            ++ skipn (Z.to_nat k) sorted)
    by (symmetry; apply firstn_skipn).
  assert (Hnodup : NoDup (map fst sorted)).
  { apply (Permutation_NoDup (Permutation_sym Hfst)), seq_NoDup. }
  exists (firstn (Z.to_nat k) (map fst sorted)); split; [reflexivity |].
  split.
  { rewrite length_firstn, length_map.
    unfold sorted; rewrite sort_by_length.
    unfold enumerate; rewrite length_combine, length_seq; lia. }
  split.
  { rewrite <- (firstn_skipn (Z.to_nat k) (map fst sorted)) in Hnodup.
    apply NoDup_app_remove_r in Hnodup; exact Hnodup. }
  split.
  { intros i Hi.
    assert (Hin : In i (map fst sorted)).
    { rewrite <- (firstn_skipn (Z.to_nat k) (map fst sorted)).
      apply in_or_app; left; exact Hi. }
    apply (Permutation_in _ Hfst), in_seq in Hin; lia. }
  intros i j Hi Hj Hnj.
  rewrite firstn_map in Hi, Hnj.
  apply in_map_iff in Hi as ([i' vi] & Hfi & Hi); simpl in Hfi; subst i'.
  assert (Hvi : nth_error values i = Some vi).
  { apply enumerate_In, (Permutation_in _ Hperm).
    rewrite Hsplit; apply in_or_app; left; exact Hi. }
  destruct (nth_error values j) as [vj |] eqn:Hvj;
    [| apply nth_error_None in Hvj; lia].
  assert (Hjs : In (j, vj) sorted).
  { apply (Permutation_in _ (Permutation_sym Hperm)), enumerate_In.
    exact Hvj. }
  rewrite Hsplit in Hjs; apply in_app_or in Hjs as [Hjs | Hjs].
  { exfalso; apply Hnj, in_map_iff; exists (j, vj); split;
      [reflexivity | exact Hjs]. }
  rewrite (nth_error_nth _ _ 0 Hvi), (nth_error_nth _ _ 0 Hvj).
  assert (Hs : StronglySorted (fun a b : nat * Q => snd a <= snd b)
                 (firstn (Z.to_nat k) sorted ++ skipn (Z.to_nat k) sorted))
    by (rewrite <- Hsplit; apply sort_by_sorted).
  exact (sorted_app_le _ snd _ _ Hs (i, vi) (j, vj) Hi Hjs).
Qed.

Lemma gather_in_range (values : list Q) (indices : list nat) :
  (forall i, In i indices -> (i < length values)%nat) ->
  gather values indices = Ok (map (fun i => nth i values 0) indices).
Proof.
  intros H; unfold gather; apply map_result_total.
  intros i Hi; unfold index.
  destruct (nth_error values i) as [v |] eqn:Hv.
  - rewrite (nth_error_nth _ _ 0 Hv); reflexivity.
  - apply nth_error_None in Hv; specialize (H i Hi); lia.
Qed.

Lemma residual_nth (syn real : list Q) (i : nat) :
  length syn = length real -> (i < length real)%nat ->
  nth i (map Qabs (map (fun '(x, y) => x - y) (combine syn real))) 0
  = Qabs (nth i syn 0 - nth i real 0).
Proof.
  revert real i; induction syn as [| x syn IH]; intros [| y real] i Hlen Hi;
    simpl in *; try lia.
  destruct i as [| i]; [reflexivity |].
  apply IH; lia.
Qed.

(** X2: with as many synthetic as real pixels and a number [k] of pixels
    to keep between 0 and their count, the trimming step of
    [_fit_polynomial] succeeds and keeps [k] pairs taken at the same
    distinct positions of the two samples, and no pair it drops has a
    smaller [|syn - real|] than a pair it keeps. *)
Theorem keep_smallest_residuals (syn real : list Q) (percentile : float)
    (k : Z) :
  length syn = length real ->
  num_kept percentile (length real) = Ok k ->
  (0 <= k <= Z.of_nat (length real))%Z ->
  exists indices,
    keep syn real percentile
    = Ok (map (fun i => nth i syn 0) indices,
          map (fun i => nth i real 0) indices)
    /\ length indices = Z.to_nat k
    /\ NoDup indices
    /\ (forall i, In i indices -> (i < length real)%nat)
    /\ (forall i j, In i indices -> (j < length real)%nat ->
                    ~ In j indices ->
                    Qabs (nth i syn 0 - nth i real 0)
                    <= Qabs (nth j syn 0 - nth j real 0)).
Proof.
  intros Hlen Hkept Hk.
  set (diff := map (fun '(x, y) => x - y) (combine syn real)).
  assert (Hdiff : length (map Qabs diff) = length real).
  { unfold diff; rewrite !length_map, length_combine; lia. }
  destruct (topk_smallest_spec (map Qabs diff) k)
    as (indices & Htop & Hcount & Hnodup & Hrange & Hsmall);
    [rewrite Hdiff; exact Hk |].
  rewrite Hdiff in Hrange, Hsmall.
  exists indices; split; [| repeat split; try assumption].
  - unfold keep; rewrite Hkept; cbn [bind].
    unfold broadcast_sub; rewrite Hlen, Nat.eqb_refl; cbn [bind].
    fold diff; rewrite Htop; cbn [bind].
    rewrite (gather_in_range syn) by (rewrite Hlen; exact Hrange).
    rewrite (gather_in_range real) by exact Hrange.
    reflexivity.
  - intros i j Hi Hj Hnj.
    specialize (Hsmall i j Hi Hj Hnj).
    unfold diff in Hsmall.
    rewrite !residual_nth in Hsmall; auto.
Qed.

(** Half of four pixels are kept: the pairs at positions 1 and 3, whose
    residuals are 0 and 1. *)
Lemma keep_smallest_residuals_witness :
  exists indices,
    keep [5; 2; 0; 4] [1; 2; 7; 3] (decimal 5 1)
    = Ok (map (fun i => nth i [5; 2; 0; 4] 0) indices,
          map (fun i => nth i [1; 2; 7; 3] 0) indices)
    /\ length indices = Z.to_nat 2
    /\ NoDup indices
    /\ (forall i, In i indices -> (i < length [1; 2; 7; 3])%nat)
    /\ (forall i j, In i indices -> (j < length [1; 2; 7; 3])%nat ->
                    ~ In j indices ->
                    Qabs (nth i [5; 2; 0; 4] 0 - nth i [1; 2; 7; 3] 0)
                    <= Qabs (nth j [5; 2; 0; 4] 0 - nth j [1; 2; 7; 3] 0)).
Proof.
  apply (keep_smallest_residuals [5; 2; 0; 4] [1; 2; 7; 3] (decimal 5 1) 2).
  - reflexivity.
  - vm_compute; reflexivity.
  - simpl; lia.
Defined.

End KeepProperties.

(** ** An empty or tiny masked region *)

Section EmptyRegionPercentile.
Import PyStr PyFloat QTensor Fitters.
Open Scope string_scope.

Lemma percentile_pair_empty (pct : Z) :
  (0 <= pct <= 100)%Z -> percentile_pair [] pct = Ok (NaN, NaN).
Proof.
  intros H; unfold percentile_pair, nanpercentile.
  replace ((0 <=? pct)%Z && (pct <=? 100)%Z) with true
    by (symmetry; apply andb_true_intro; split; apply Z.leb_le; lia).
  replace ((0 <=? 100 - pct)%Z && (100 - pct <=? 100)%Z) with true
    by (symmetry; apply andb_true_intro; split; apply Z.leb_le; lia).
  reflexivity.
Qed.

(** X3: when no pixel lies under the mask, so that the three samples are
    empty, [_simple_percentile] raises nothing in the default and
    lightness modes and returns the row [[NaN, NaN]]; in the
    saturation+value mode it raises IndexError. *)
Theorem simple_percentile_empty_region (mode : string) (p : float)
    (pct : Z) :
  in_unit p = true ->
  percentile_fold p = Ok pct ->
  (0 <= pct <= 100)%Z ->
  _simple_percentile [[]; []; []] mode p
  = if contains "-sv" mode then Raise IndexError else Ok [(NaN, NaN)].
Proof.
  intros Hp Hfold Hpct.
  rewrite (simple_percentile_rows [] [] [] mode p pct Hp Hfold).
  cbn [stack forallb length Nat.eqb andb bind concat app].
  rewrite (percentile_pair_empty pct Hpct).
  destruct (contains "-sv" mode); [reflexivity |].
  destruct (contains "-l" mode); reflexivity.
Qed.

(** The tenth percentile in the three kinds of mode. *)
Lemma simple_percentile_empty_region_witness :
  _simple_percentile [[]; []; []] "hsv-sv" (decimal 1 1) = Raise IndexError
  /\ _simple_percentile [[]; []; []] "lab-l" (decimal 1 1)
     = Ok [(NaN, NaN)]
  /\ _simple_percentile [[]; []; []] "percentile" (decimal 1 1)
     = Ok [(NaN, NaN)].
Proof.
  split; [| split].
  - apply (simple_percentile_empty_region "hsv-sv" (decimal 1 1) 10);
      [vm_compute; reflexivity | vm_compute; reflexivity | lia].
  - apply (simple_percentile_empty_region "lab-l" (decimal 1 1) 10);
      [vm_compute; reflexivity | vm_compute; reflexivity | lia].
  - apply (simple_percentile_empty_region "percentile" (decimal 1 1) 10);
      [vm_compute; reflexivity | vm_compute; reflexivity | lia].
Defined.

End EmptyRegionPercentile.

Section EmptyRegionPolynomial.
Import PyStr PyFloat QTensor Fitters.
Open Scope string_scope.

Variable transform : Type.
Variable warp_perspective : image -> transform -> nat -> string -> image.
Variable rgb_to_hsv : image -> image.
Variable rgb_to_lab : image -> image.
Variable polyfit : list Q -> list Q -> nat -> result (list num).

Lemma masked_select_nothing (values : list Q) (mask : list bool) :
  length values = length mask -> forallb negb mask = true ->
  masked_select values mask = Ok [].
Proof.
  intros Hlen Hmask; unfold masked_select.
  rewrite Hlen, Nat.eqb_refl; f_equal.
  clear Hlen; revert values; induction mask as [| b mask IH];
    intros [| v values]; try reflexivity.
  simpl in Hmask; apply andb_prop in Hmask as [Hb Hmask].
  destruct b; [discriminate Hb |].
  simpl; apply IH; exact Hmask.
Qed.

Lemma keep_nothing (percentile : float) :
  num_kept percentile 0 = Ok 0%Z -> keep [] [] percentile = Ok ([], []).
Proof.
  intros H; unfold keep; cbn [length]; rewrite H; reflexivity.
Qed.

(** The real pixels and the channels [prepare] gives for three empty
    samples. *)
Lemma reduce_empty (mode : string) (syn_obj syn real : image)
    (channels : list nat) :
  reduce mode syn_obj [[]; []; []] = (syn, real, channels) ->
  channels <> []
  /\ forall c, In c channels -> nth_error real c = Some [].
Proof.
  unfold reduce.
  destruct (String.eqb mode "max");
    [| destruct (String.eqb mode "mean");
       [| destruct (contains "-sv" mode);
          [| destruct (contains "-l" mode)]]];
    intros H; injection H as <- <- <-;
    (split; [discriminate |]);
    intros c Hc; simpl in Hc;
    repeat (destruct Hc as [<- | Hc]; [reflexivity |]); destruct Hc.
Qed.

(** X4: when no pixel lies under the mask, [_fit_polynomial] raises
    nothing and never calls [np.polyfit]: for every selected channel it
    returns the polynomial whose constant term is NaN, the mean of no
    pixel, and whose higher coefficients are zero. *)
Theorem fit_polynomial_empty_region (syn_obj : image) (mask : list bool)
    (transform_mat : transform) (interp : string) (degree : nat)
    (percentile : float) (mode : string) (syn real : image)
    (channels : list nat) :
  prepare warp_perspective rgb_to_hsv rgb_to_lab [[]; []; []]
          (Some syn_obj) mask transform_mat interp mode
  = Ok (syn, real, channels) ->
  (forall c, In c channels ->
             exists values, nth_error syn c = Some values
                            /\ length values = length mask) ->
  forallb negb mask = true ->
  num_kept percentile 0 = Ok 0%Z ->
  _fit_polynomial warp_perspective rgb_to_hsv rgb_to_lab polyfit
                  [[]; []; []] (Some syn_obj) mask transform_mat interp
                  degree percentile mode
  = Ok (map (fun _ => constant_poly degree NaN) channels).
Proof.
  intros Hprep Hsyn Hmask Hkept.
  unfold _fit_polynomial; rewrite Hprep; cbn [bind].
  unfold prepare in Hprep; cbn [stack forallb length Nat.eqb andb bind]
    in Hprep.
  injection Hprep as Hred.
  destruct (reduce_empty _ _ _ _ _ Hred) as [Hne Hreal].
  rewrite (map_result_total _ (fun _ => constant_poly degree NaN)).
  - cbn [bind]; unfold stack.
    destruct channels as [| c rest]; [congruence |].
    cbn [map].
    replace (forallb _ _) with true; [reflexivity |].
    symmetry; apply forallb_forall; intros r Hr.
    apply in_map_iff in Hr as (_ & <- & _); apply Nat.eqb_refl.
  - intros c Hc.
    destruct (Hsyn c Hc) as (values & Hvalues & Hlen).
    unfold fit_channel, kept_pixels, index.
    rewrite Hvalues, (Hreal c Hc); cbn [bind].
    rewrite (masked_select_nothing values mask Hlen Hmask); cbn [bind].
    rewrite (keep_nothing percentile Hkept); cbn [bind].
    reflexivity.
Qed.

End EmptyRegionPolynomial.

Section EmptyRegionPolynomialExample.
Import PyStr PyFloat QTensor Fitters.
Open Scope string_scope.

(** A mask without a pixel, in the saturation+value mode and with a
    polynomial of degree 1. *)
Lemma fit_polynomial_empty_region_witness :
  _fit_polynomial StandIns.no_warp StandIns.same_image StandIns.same_image
                  StandIns.no_polyfit
                  [[]; []; []] (Some [[1; 0]; [0; 1]; [1; 1]])
                  [false; false] tt "bilinear" 1%nat (of_Z 0) "hsv-sv"
  = Ok [[fin 0; NaN]; [fin 0; NaN]].
Proof.
  apply (fit_polynomial_empty_region unit StandIns.no_warp
           StandIns.same_image StandIns.same_image StandIns.no_polyfit
           [[1; 0]; [0; 1]; [1; 1]] [false; false] tt "bilinear" 1%nat
           (of_Z 0) "hsv-sv" [[1; 0]; [0; 1]; [1; 1]] [[]; []; []]
           [1; 2]%nat).
  - reflexivity.
  - intros c [<- | [<- | []]]; eexists; split; reflexivity.
  - reflexivity.
  - reflexivity.
Defined.

End EmptyRegionPolynomialExample.

Section SmallSampleColorTransfer.
Import PyStr RTensor ColorTransferFit.
Open Scope R_scope.

Variable rgb_to_hsv : image -> image.

(** A row of the color-transfer coefficients holds a NaN exactly when
    the real or the synthetic sample has fewer than two pixels. *)
Lemma fit_channel_nan (real_pixels_by_channel : list (list R))
    (syn_obj : image) (obj_mask : list bool) (channel : nat)
    (real syn : list R) :
  nth_error real_pixels_by_channel channel = Some real ->
  syn_pixels_of syn_obj obj_mask channel = Ok syn ->
  exists scale offset,
    fit_channel real_pixels_by_channel syn_obj obj_mask channel
    = Ok (scale, offset)
    /\ (isnan scale || isnan offset
        = Nat.ltb (length real) 2 || Nat.ltb (length syn) 2)%bool.
Proof.
  intros Hreal Hsyn; unfold fit_channel, index.
  rewrite Hsyn, Hreal; cbn [bind].
  do 2 eexists; split; [reflexivity |].
  unfold std, mean.
  destruct real as [| r0 [| r1 real]]; destruct syn as [| s0 [| s1 syn]];
    reflexivity.
Qed.

(** X5: [_get_color_transfer_params] raises AssertionError exactly when
    one of the three real samples or of the three masked synthetic
    samples has fewer than two pixels; an empty masked region is such a
    case. *)
Theorem color_transfer_asserts_iff_small_sample
    (r0 r1 r2 : list R) (syn_obj : image) (obj_mask : list bool)
    (mode : string) (converted : image) (s0 s1 s2 : list R) :
  convert rgb_to_hsv mode (Some syn_obj) = Ok converted ->
  syn_pixels_of converted obj_mask 0 = Ok s0 ->
  syn_pixels_of converted obj_mask 1 = Ok s1 ->
  syn_pixels_of converted obj_mask 2 = Ok s2 ->
  (_get_color_transfer_params rgb_to_hsv [r0; r1; r2] (Some syn_obj)
                              obj_mask mode
   = Raise AssertionError
   <-> Exists (fun xs => (length xs < 2)%nat) [r0; r1; r2; s0; s1; s2]).
Proof.
  intros Hconv H0 H1 H2.
  unfold _get_color_transfer_params, fitted_coeffs.
  rewrite Hconv; cbn [bind map_result].
  destruct (fit_channel_nan [r0; r1; r2] converted obj_mask 0 r0 s0
              eq_refl H0) as (a0 & b0 & E0 & N0).
  destruct (fit_channel_nan [r0; r1; r2] converted obj_mask 1 r1 s1
              eq_refl H1) as (a1 & b1 & E1 & N1).
  destruct (fit_channel_nan [r0; r1; r2] converted obj_mask 2 r2 s2
              eq_refl H2) as (a2 & b2 & E2 & N2).
  rewrite E0, E1, E2; cbn [bind any_nan existsb].
  rewrite N0, N1, N2.
  rewrite !Exists_cons, Exists_nil, <- !Nat.ltb_lt.
  destruct (Nat.ltb (length r0) 2), (Nat.ltb (length s0) 2),
    (Nat.ltb (length r1) 2), (Nat.ltb (length s1) 2),
    (Nat.ltb (length r2) 2), (Nat.ltb (length s2) 2);
    cbn [orb]; split; intros Hgoal; try reflexivity; try discriminate Hgoal;
    intuition discriminate.
Qed.

End SmallSampleColorTransfer.

Section SmallSampleColorTransferExample.
Import PyStr RTensor ColorTransferFit.
Open Scope R_scope.

(** One pixel under the mask. *)
Lemma color_transfer_asserts_iff_small_sample_witness :
  _get_color_transfer_params StandIns.same_colors [[1]; [2]; [3]]
    (Some [(1, 2, 3); (4, 5, 6)]) [true; false] "hsv-sv"
  = Raise AssertionError
  <-> Exists (fun xs => (length xs < 2)%nat)
             [[1]; [2]; [3]; [1]; [2]; [3]].
Proof.
  apply (color_transfer_asserts_iff_small_sample StandIns.same_colors
           [1] [2] [3] [(1, 2, 3); (4, 5, 6)] [true; false] "hsv-sv"
           [(1, 2, 3); (4, 5, 6)] [1] [2] [3]);
    reflexivity.
Defined.

End SmallSampleColorTransferExample.

(** ** The polynomial [_polynomial_match] evaluates *)

Section PolynomialEvaluation.
Import RTensor Apply.
Open Scope R_scope.

Lemma rsum_app (xs ys : list R) : rsum (xs ++ ys) = rsum xs + rsum ys.
Proof.
  induction xs as [| x xs IH]; simpl; [lra |].
  fold (rsum (xs ++ ys)); fold (rsum xs); rewrite IH; lra.
Qed.

Lemma rsum_scale (k : R) (xs : list R) :
  rsum (map (Rmult k) xs) = k * rsum xs.
Proof.
  induction xs as [| x xs IH]; simpl; [lra |].
  fold (rsum (map (Rmult k) xs)); fold (rsum xs); rewrite IH; lra.
Qed.

Lemma poly_eval_snoc (row : list R) (c x : R) :
  poly_eval (S (length row)) (row ++ [c]) x
  = poly_eval (length row) row x * x + c.
Proof.
  unfold poly_eval.
  rewrite seq_S, map_app, rsum_app; cbn [map rsum fold_right Nat.add].
  rewrite nth_middle.
  replace (S (length row) - 1 - length row)%nat with 0%nat by lia.
  rewrite <- (Rmult_comm x), <- rsum_scale, map_map.
  rewrite pow_O, Rmult_1_l, Rplus_0_r.
  f_equal; f_equal; apply map_ext_in.
  intros i Hi; apply in_seq in Hi.
  rewrite app_nth1 by lia.
  replace (S (length row) - 1 - i)%nat
    with (S (length row - 1 - i)) by lia.
  simpl; lra.
Qed.

(** X6: the tensor expression of [_polynomial_match],
    [(x.pow(degrees) * row).sum()], is the value at [x] of the polynomial
    whose coefficients are [row], highest degree first, as [np.polyfit]
    returns them: it equals Horner's scheme over [row].  The constant
    polynomial of the degenerate branch of [_fit_polynomial] maps every
    pixel to its constant term. *)
Theorem poly_eval_is_polyval (row : list R) (x : R) :
  poly_eval (length row) row x = fold_left (fun acc c => acc * x + c) row 0
  /\ forall degree c,
       poly_eval (S degree) (repeat 0 degree ++ [c]) x = c.
Proof.
  assert (Hhorner : forall r,
             poly_eval (length r) r x
             = fold_left (fun acc c => acc * x + c) r 0).
  { intros r; induction r as [| c r IH] using rev_ind; [reflexivity |].
    rewrite length_app, Nat.add_1_r, fold_left_app; cbn [fold_left length].
    rewrite poly_eval_snoc, IH; reflexivity. }
  split; [apply Hhorner |].
  intros degree c.
  replace (S degree) with (length (repeat 0 degree ++ [c]))
    by (rewrite length_app, repeat_length; simpl; lia).
  rewrite Hhorner, fold_left_app; cbn [fold_left].
  replace (fold_left (fun acc c0 => acc * x + c0) (repeat 0 degree) 0)
    with 0; [lra |].
  induction degree as [| d IH]; [reflexivity |].
  cbn [repeat fold_left]; rewrite Rmult_0_l, Rplus_0_l; exact IH.
Qed.

End PolynomialEvaluation.

(** ** Channels that are not selected *)

Section PassThrough.
Import RTensor Apply.
Open Scope R_scope.

Lemma position_none (c : nat) (channels : list nat) :
  ~ In c channels -> position c channels = None.
Proof.
  induction channels as [| c' rest IH]; simpl; intros H; [reflexivity |].
  destruct (Nat.eqb_spec c' c) as [-> | _]; [exfalso; apply H; left; reflexivity |].
  rewrite IH by (intros Hin; apply H; right; exact Hin); reflexivity.
Qed.

Lemma broadcast_to_fst {A B} (xs : list A) (ys : list B)
    (pairs : list (A * B)) :
  broadcast_to xs ys = Ok pairs -> map fst pairs = xs.
Proof.
  unfold broadcast_to.
  destruct (Nat.eqb_spec (length xs) (length ys)) as [Hlen | _].
  - intros H; injection H as <-.
    revert ys Hlen; induction xs as [| x xs IH]; intros [| y ys] Hlen;
      simpl in *; try reflexivity; try discriminate Hlen.
    f_equal; apply IH; lia.
  - destruct ys as [| y [| y' ys]]; try discriminate.
    intros H; injection H as <-.
    rewrite map_map; simpl; apply map_id.
Qed.

Lemma map_result_pairs_forall2 {A B C} (f : A * B -> result C)
    (P : A -> C -> Prop) (pairs : list (A * B)) (out : list C) :
  (forall a b c, f (a, b) = Ok c -> P a c) ->
  map_result f pairs = Ok out ->
  Forall2 P (map fst pairs) out.
Proof.
  intros Hf H; apply map_result_ok_forall2 in H.
  induction H as [| [a b] c pairs out Hc _ IH]; simpl; constructor;
    [exact (Hf a b c Hc) | exact IH].
Qed.

Lemma poly_channel_unselected (deg : nat) (channels : list nat)
    (rows : list (list R)) (c : nat) (x : R) :
  ~ In c channels -> poly_channel deg channels rows c x = Ok x.
Proof.
  intros H; unfold poly_channel; rewrite (position_none c channels H).
  reflexivity.
Qed.

Lemma poly_selected_unselected (deg : nat) (channels : list nat)
    (rows : list (list R)) (img out : image) :
  poly_selected deg channels rows img = Ok out ->
  Forall2 (fun p q => forall c, ~ In c channels -> chan c q = chan c p)
          img out.
Proof.
  intros H; apply map_result_ok_forall2 in H.
  induction H as [| [[x0 x1] x2] q img out Hq _ IH]; constructor;
    [| exact IH].
  apply bind_ok in Hq as (y0 & H0 & Hq).
  apply bind_ok in Hq as (y1 & H1 & Hq).
  apply bind_ok in Hq as (y2 & H2 & Hq).
  injection Hq as <-.
  intros c Hc.
  destruct c as [| [| [| c]]]; cbn [chan]; [| | | reflexivity].
  - rewrite (poly_channel_unselected _ _ _ _ _ Hc) in H0; exact (eq_sym H0).
  - rewrite (poly_channel_unselected _ _ _ _ _ Hc) in H1; exact (eq_sym H1).
  - rewrite (poly_channel_unselected _ _ _ _ _ Hc) in H2; exact (eq_sym H2).
Qed.

(** X7: with a list of channels and coefficients of a valid shape,
    [_polynomial_match] changes, in the color space it works in, the
    selected channels only: before the conversion back to RGB every pixel
    of the output has, in each channel that is not selected, the value of
    the converted input. *)
Theorem polynomial_match_pass_through (inputs : batch)
    (poly_coeffs : poly_coeffs_t) (channels : list nat)
    (color_space_transforms : option (color_tf * color_tf)) :
  valid_poly_shape inputs poly_coeffs (Some channels) ->
  exists processed,
    polynomial_raw inputs poly_coeffs (Some channels)
                   color_space_transforms
    = Ok match color_space_transforms with
         | Some (_, to_rgb) => apply_tf to_rgb processed
         | None => processed
         end
    /\ Forall2
         (Forall2 (fun p q => forall c, ~ In c channels ->
                                        chan c q = chan c p))
         match color_space_transforms with
         | Some (to_space, _) => apply_tf to_space inputs
         | None => inputs
         end
         processed.
Proof.
  intros Hshape.
  destruct (polynomial_raw_succeeds inputs poly_coeffs (Some channels)
              color_space_transforms Hshape) as (outputs & Hraw).
  rewrite Hraw; unfold polynomial_raw in Hraw.
  destruct (negb (Nat.eqb (length poly_coeffs) (length inputs))
            && negb (Nat.eqb (length poly_coeffs) 1)); [discriminate Hraw |].
  cbn [negb] in Hraw.
  set (converted := match color_space_transforms with
                    | Some (to_space, _) => apply_tf to_space inputs
                    | None => inputs
                    end) in *.
  apply bind_ok in Hraw as (pairs & Hpairs & Hraw).
  apply bind_ok in Hraw as (processed & Hproc & Hraw).
  injection Hraw as <-.
  exists processed; split; [reflexivity |].
  destruct (forallb _ _); [| discriminate Hproc].
  change (Forall2
            (Forall2 (fun p q : pixel => forall c, ~ In c channels ->
                                                   chan c q = chan c p))
            converted processed).
  rewrite <- (broadcast_to_fst _ _ _ Hpairs).
  apply (map_result_pairs_forall2 _ _ _ _ (fun img rows out =>
           poly_selected_unselected _ channels rows img out) Hproc).
Qed.

Lemma assign_pixel_other (channel : nat) (k : triple (R * R))
    (out_px lab_px q : pixel) (c : nat) :
  assign_pixel channel k (out_px, lab_px) = Ok q ->
  c <> channel -> chan c q = chan c out_px.
Proof.
  unfold assign_pixel; intros H Hc.
  apply bind_ok in H as (kc & _ & H).
  apply bind_ok in H as (x & _ & H).
  destruct out_px as [[o0 o1] o2].
  destruct channel as [| [| [| channel]]]; try discriminate H;
    injection H as <-;
    destruct c as [| [| [| c]]]; try reflexivity; congruence.
Qed.

Lemma forall2_same {A} (P : A -> A -> Prop) (xs : list A) :
  (forall x, P x x) -> Forall2 P xs xs.
Proof.
  intros H; induction xs; constructor; [apply H | assumption].
Qed.

Lemma forall2_combine_step {A} (P : A -> A -> Prop)
    (G : A * A -> A -> Prop) (xs ys zs : list A) :
  (forall x y z, P x y -> G (y, x) z -> P x z) ->
  Forall2 P xs ys -> Forall2 G (combine ys xs) zs ->
  Forall2 P xs zs.
Proof.
  intros Hstep H; revert zs; induction H as [| x y xs ys Hxy _ IH];
    intros zs Hg; simpl in Hg; inversion Hg; subst; constructor.
  - eapply Hstep; eassumption.
  - apply IH; assumption.
Qed.

(** One turn of the loop of [_color_transfer] keeps every channel but
    the one it assigns. *)
Lemma assign_channel_others (lab : batch) (ct_coeffs : ct_coeffs_t)
    (lab_out out : batch) (channel : nat) (keepc : nat -> Prop) :
  ~ keepc channel ->
  Forall2 (Forall2 (fun p q => forall c, keepc c -> chan c q = chan c p))
          lab lab_out ->
  assign_channel lab ct_coeffs lab_out channel = Ok out ->
  Forall2 (Forall2 (fun p q => forall c, keepc c -> chan c q = chan c p))
          lab out.
Proof.
  intros Hch Hinv H; unfold assign_channel in H.
  destruct (Nat.leb 3 channel); [discriminate H |].
  apply bind_ok in H as (pairs & Hpairs & H).
  apply broadcast_to_fst in Hpairs.
  apply (map_result_pairs_forall2 _
           (fun (imgs : image * image) (out_img : image) =>
              exists k, map_result (assign_pixel channel k)
                                   (combine (fst imgs) (snd imgs))
                        = Ok out_img)) in H;
    [| intros [img_out img] k out_img Hk; exists k; exact Hk].
  rewrite Hpairs in H.
  refine (forall2_combine_step _ _ lab lab_out out _ Hinv H).
  intros img img_out out_img Himg (k & Hk); cbn [fst snd] in Hk.
  apply map_result_ok_forall2 in Hk.
  refine (forall2_combine_step _ _ img img_out out_img _ Himg Hk).
  intros p o q Hpo Hq c Hc.
  rewrite (assign_pixel_other channel k o p q c Hq); [apply Hpo; exact Hc |].
  intros ->; exact (Hch Hc).
Qed.

(** X8: with a list of channels and coefficients of a valid shape,
    [_color_transfer] rescales, in the color space it works in, the
    selected channels only: before the conversion back to RGB every pixel
    of the output has, in each channel that is not selected, the value of
    the converted input. *)
Theorem color_transfer_pass_through (inputs : batch)
    (ct_coeffs : ct_coeffs_t) (channels : list nat)
    (to_space to_rgb : color_tf) :
  valid_ct_shape inputs ct_coeffs (Some channels) ->
  exists processed,
    color_transfer_raw inputs ct_coeffs (Some channels)
                       (Some (to_space, to_rgb))
    = Ok (apply_tf to_rgb processed)
    /\ Forall2
         (Forall2 (fun p q => forall c, ~ In c channels ->
                                        chan c q = chan c p))
         (apply_tf to_space inputs) processed.
Proof.
  intros Hshape.
  destruct (color_transfer_raw_succeeds inputs ct_coeffs (Some channels)
              to_space to_rgb Hshape) as (rgb_out & Hraw).
  rewrite Hraw; unfold color_transfer_raw in Hraw.
  apply bind_ok in Hraw as (processed & Hloop & Hraw).
  injection Hraw as <-.
  exists processed; split; [reflexivity |].
  set (lab := apply_tf to_space inputs) in *.
  assert (Hinit : Forall2
                    (Forall2 (fun p q => forall c, ~ In c channels ->
                                                   chan c q = chan c p))
                    lab lab).
  { apply forall2_same; intros img.
    apply forall2_same; intros p c _; reflexivity. }
  assert (Hsub : forall c, In c channels -> In c channels) by auto.
  revert Hloop Hinit Hsub.
  generalize lab at 2 4 as lab_out.
  generalize channels at 1 3 as todo.
  induction todo as [| c todo IH]; intros lab_out Hloop Hinv Hsub.
  - injection Hloop as <-; exact Hinv.
  - simpl in Hloop; apply bind_ok in Hloop as (out & Hstep & Hloop).
    apply (IH out Hloop); [| intros c' Hc'; apply Hsub; right; exact Hc'].
    apply (assign_channel_others lab ct_coeffs lab_out out c
             (fun c' => ~ In c' channels)); [| exact Hinv | exact Hstep].
    intros Hn; apply Hn, Hsub; left; reflexivity.
Qed.

End PassThrough.

Section PassThroughExample.
Import RTensor Apply.
Open Scope R_scope.

(** Saturation and value get a polynomial each; the hue is kept. *)
Lemma polynomial_match_pass_through_witness :
  exists processed,
    polynomial_raw [[(1 / 2, 1 / 4, 1 / 8)]] [[[2; 0]; [1; 1 / 2]]]
                   (Some [1; 2]%nat) None
    = Ok processed
    /\ Forall2
         (Forall2 (fun p q => forall c, ~ In c [1; 2]%nat ->
                                        chan c q = chan c p))
         [[(1 / 2, 1 / 4, 1 / 8)]] processed.
Proof.
  apply (polynomial_match_pass_through [[(1 / 2, 1 / 4, 1 / 8)]]
           [[[2; 0]; [1; 1 / 2]]] [1; 2]%nat None).
  split; [left; reflexivity |].
  split; [repeat constructor |].
  intros c i Hc Hpos.
  destruct c as [| [| [| c]]]; simpl in Hpos; try discriminate Hpos;
    try lia; injection Hpos as <-; unfold num_channels; simpl; lia.
Defined.

Lemma color_transfer_pass_through_witness :
  exists processed,
    color_transfer_raw [[(1 / 2, 1 / 4, 1 / 8)]]
                       [((1, 0), (2, 0), (3, 0))] (Some [1; 2]%nat)
                       (Some (StandIns.same_pixel, StandIns.same_pixel))
    = Ok (apply_tf StandIns.same_pixel processed)
    /\ Forall2
         (Forall2 (fun p q => forall c, ~ In c [1; 2]%nat ->
                                        chan c q = chan c p))
         (apply_tf StandIns.same_pixel [[(1 / 2, 1 / 4, 1 / 8)]])
         processed.
Proof.
  apply (color_transfer_pass_through [[(1 / 2, 1 / 4, 1 / 8)]]
           [((1, 0), (2, 0), (3, 0))] [1; 2]%nat
           StandIns.same_pixel StandIns.same_pixel).
  split; [repeat constructor | left; reflexivity].
Defined.

End PassThroughExample.

(** ** Fitting and applying with one method name *)

Section FitAndApply.
Import PyStr RelightTransform RelightParams.
Open Scope string_scope.

Lemma prefix_contains (needle hay : string) :
  prefix needle hay = true -> contains needle hay = true.
Proof.
  intros H; destruct hay; cbn [contains]; rewrite H; reflexivity.
Qed.

(** The first piece of a split is a prefix of the string. *)
Lemma split_first_prefix (sep : ascii) (s : string) :
  prefix (first_part (split sep s)) s = true.
Proof.
  induction s as [| c rest IH]; [reflexivity |].
  simpl; destruct (Ascii.eqb c sep); [reflexivity |].
  destruct (split sep rest) as [| piece pieces] eqn:Hsplit.
  - simpl; destruct (ascii_dec c c); [| congruence].
    destruct rest; reflexivity.
  - simpl in *; destruct (ascii_dec c c); [exact IH | congruence].
Qed.

Lemma color_space_in_mode (method : string) :
  contains (color_space method) (mode_of method) = true.
Proof.
  apply prefix_contains, split_first_prefix.
Qed.

(** X9: a transform that [__init__] returns keeps the method name, holds
    a pair of converters whenever [forward] dispatches to
    [_color_transfer], which subscripts that pair, and restricts the
    channels only together with converters: to saturation and value with
    the HSV pair, to lightness with a Lab pair. *)
Theorem init_establishes_forward_invariant (method : string) (self : t) :
  __init__ method = Ok self ->
  _method self = method
  /\ (dispatch self = Ok F_color_transfer -> _color_tfs self <> None)
  /\ (_channels self = None
      \/ (_channels self = Some [1; 2]%nat
          /\ _color_tfs self = Some KorniaHsv)
      \/ (_channels self = Some [0]%nat
          /\ (_color_tfs self = Some CustomLab
              \/ _color_tfs self = Some KorniaLab))).
Proof.
  unfold __init__, dispatch; intros H.
  destruct (String.eqb (color_space method) "hsv").
  - injection H as <-; cbn [_method _color_tfs _channels].
    split; [reflexivity |]; split; [discriminate |].
    destruct (opt_string_eqb (channels_of method) "sv");
      [right; left; split; reflexivity | left; reflexivity].
  - destruct (String.eqb (color_space method) "lab").
    + injection H as <-; cbn [_method _color_tfs _channels].
      split; [reflexivity |]; split; [discriminate |].
      destruct (opt_string_eqb (channels_of method) "l");
        [| left; reflexivity].
      right; right; split; [reflexivity |].
      destruct (String.eqb method "color_transfer_lab"); auto.
    + destruct (contains "color_transfer" method) eqn:Hct;
        [discriminate H |].
      injection H as <-; cbn [_method _color_tfs _channels].
      rewrite Hct.
      split; [reflexivity |]; split; [| left; reflexivity].
      destruct (contains "percentile" method || contains "polynomial" method);
        [discriminate |].
      destruct (String.eqb method "none"); discriminate.
Qed.

Lemma init_establishes_forward_invariant_witness :
  exists self,
    __init__ "color_transfer_hsv-sv" = Ok self
    /\ _method self = "color_transfer_hsv-sv"
    /\ (dispatch self = Ok F_color_transfer -> _color_tfs self <> None)
    /\ (_channels self = None
        \/ (_channels self = Some [1; 2]%nat
            /\ _color_tfs self = Some KorniaHsv)
        \/ (_channels self = Some [0]%nat
            /\ (_color_tfs self = Some CustomLab
                \/ _color_tfs self = Some KorniaLab))).
Proof.
  exists (mk "color_transfer_hsv-sv" (Some [1; 2]%nat) (Some KorniaHsv)).
  split; [reflexivity |].
  apply (init_establishes_forward_invariant "color_transfer_hsv-sv").
  reflexivity.
Defined.

(** X10: for a color-transfer method in the Lab space other than
    ["color_transfer_lab"] itself, such as the listed
    ["color_transfer_lab-l"], the coefficients are fitted in one color
    space and applied in another: [compute_relight_params] samples the
    real pixels, and [_get_color_transfer_params] the synthetic ones,
    after the custom [RGBtoLab], while [__init__] installs Kornia's Lab
    converters for [forward].  For every other method whose color space
    is ["hsv"] or ["lab"] the two agree. *)
Theorem fit_and_apply_color_spaces (method : string) (self : t) :
  __init__ method = Ok self ->
  color_space method = "hsv"
  \/ (color_space method = "lab"
      /\ contains "hsv" (mode_of method) = false) ->
  (contains "color_transfer" method = true
   /\ color_space method = "lab"
   /\ method <> "color_transfer_lab" ->
   img_conversion method = Some CustomLab
   /\ (forall rgb_to_hsv syn_obj,
         ColorTransferFit.convert rgb_to_hsv (mode_of method)
                                  (Some syn_obj)
         = Ok (map Lab.RGBtoLab.forward_pixel syn_obj))
   /\ _color_tfs self = Some KorniaLab)
  /\ (~ (contains "color_transfer" method = true
         /\ color_space method = "lab"
         /\ method <> "color_transfer_lab") ->
      img_conversion method = _color_tfs self).
Proof.
  intros Hinit Hspace.
  pose proof (color_space_in_mode method) as Hin.
  unfold __init__ in Hinit; unfold img_conversion, ColorTransferFit.convert.
  destruct Hspace as [Hhsv | [Hlab Hnohsv]].
  - rewrite Hhsv in Hin, Hinit; cbn [String.eqb Ascii.eqb Bool.eqb] in Hinit.
    rewrite Hin.
    injection Hinit as <-; cbn [_color_tfs].
    split; [| reflexivity].
    intros (_ & Hlab & _); rewrite Hhsv in Hlab; discriminate Hlab.
  - rewrite Hlab in Hin, Hinit; cbn [String.eqb Ascii.eqb Bool.eqb] in Hinit.
    rewrite Hnohsv, Hin; cbn [andb].
    injection Hinit as <-; cbn [_color_tfs].
    destruct (String.eqb_spec method "color_transfer_lab") as [-> | Hne].
    + split; [intros (_ & _ & H); congruence | reflexivity].
    + destruct (contains "color_transfer" method).
      * split; [intros _; repeat split; reflexivity | tauto].
      * split; [intros (H & _); discriminate H | reflexivity].
Qed.

Lemma fit_and_apply_color_spaces_witness :
  exists self,
    __init__ "color_transfer_lab-l" = Ok self
    /\ In "color_transfer_lab-l" Hparams.RELIGHT_METHODS
    /\ img_conversion "color_transfer_lab-l" = Some CustomLab
    /\ _color_tfs self = Some KorniaLab.
Proof.
  exists (mk "color_transfer_lab-l" (Some [0]%nat) (Some KorniaLab)).
  split; [reflexivity |].
  split; [right; right; left; reflexivity |].
  destruct (fit_and_apply_color_spaces "color_transfer_lab-l"
              (mk "color_transfer_lab-l" (Some [0]%nat) (Some KorniaLab))
              eq_refl (or_intror (conj eq_refl eq_refl))) as [Hmis _].
  destruct Hmis as (Himg & _ & Htfs);
    [split; [reflexivity | split; [reflexivity | discriminate]] |].
  split; [exact Himg | exact Htfs].
Defined.

(** X11: the fitter [compute_relight_params] selects and the function
    [forward] applies go by the same three words.  For a method other
    than ["none"], one raises NotImplementedError exactly when the other
    does; [_polynomial_match] is applied only to coefficients of
    [_simple_percentile] or [_fit_polynomial]; coefficients of
    [_get_color_transfer_params] are always applied by [_color_transfer];
    the two disagree only on a name that holds ["color_transfer"]
    together with ["percentile"] or ["polynomial"], where the first tests
    ["color_transfer"] last and the second tests it first. *)
Theorem fit_and_apply_dispatch (method : string) (self : t) :
  _method self = method -> method <> "none" ->
  (selected_fitter method = Raise NotImplementedError
   <-> dispatch self = Raise NotImplementedError)
  /\ (dispatch self = Ok F_polynomial_match ->
      selected_fitter method = Ok SimplePercentile
      \/ selected_fitter method = Ok FitPolynomial)
  /\ (selected_fitter method = Ok GetColorTransferParams ->
      dispatch self = Ok F_color_transfer)
  /\ (dispatch self = Ok F_color_transfer ->
      selected_fitter method <> Ok GetColorTransferParams ->
      contains "color_transfer" method = true
      /\ (contains "percentile" method || contains "polynomial" method
          = true)%bool)
  /\ dispatch self <> Ok F_no_relight.
Proof.
  intros Hm Hnone; unfold selected_fitter, dispatch; rewrite Hm.
  apply String.eqb_neq in Hnone; rewrite Hnone.
  destruct (contains "color_transfer" method),
    (contains "percentile" method), (contains "polynomial" method);
    cbn [orb];
    repeat split; intros; try discriminate; try congruence; auto.
Qed.

(** A listed method, on the transform [__init__] builds for it. *)
Lemma fit_and_apply_dispatch_witness :
  __init__ "polynomial_hsv-sv"
  = Ok (mk "polynomial_hsv-sv" (Some [1; 2]%nat) (Some KorniaHsv))
  /\ selected_fitter "polynomial_hsv-sv" = Ok FitPolynomial
  /\ dispatch (mk "polynomial_hsv-sv" (Some [1; 2]%nat) (Some KorniaHsv))
     = Ok F_polynomial_match
  /\ dispatch (mk "polynomial_hsv-sv" (Some [1; 2]%nat) (Some KorniaHsv))
     <> Ok F_no_relight.
Proof.
  split; [reflexivity |].
  split; [reflexivity |].
  split; [reflexivity |].
  apply (fit_and_apply_dispatch "polynomial_hsv-sv"
           (mk "polynomial_hsv-sv" (Some [1; 2]%nat) (Some KorniaHsv)));
    [reflexivity | discriminate].
Defined.

End FitAndApply.

(** ** hparams.py: dataset names *)

Section DatasetNames.
Import PyStr.
Open Scope string_scope.

Lemma contains_cons (sep c : ascii) (rest : string) :
  contains (String sep "") (String c rest)
  = Ascii.eqb c sep || contains (String sep "") rest.
Proof.
  cbn [contains prefix].
  destruct (ascii_dec sep c) as [-> | Hne].
  - rewrite Ascii.eqb_refl; destruct rest; reflexivity.
  - replace (Ascii.eqb c sep) with false; [reflexivity |].
    symmetry; apply Ascii.eqb_neq; congruence.
Qed.

(** A string without the separator is the single piece of its split. *)
Lemma split_single (sep : ascii) (s : string) :
  contains (String sep "") s = false -> split sep s = [s].
Proof.
  induction s as [| c rest IH]; [reflexivity |].
  rewrite contains_cons; intros H; apply orb_false_elim in H as [Hc Hrest].
  simpl; rewrite Hc, (IH Hrest); reflexivity.
Qed.

Lemma split_app (sep : ascii) (s t : string) :
  contains (String sep "") s = false ->
  split sep (s ++ String sep t) = s :: split sep t.
Proof.
  induction s as [| c rest IH].
  - intros _; simpl; rewrite Ascii.eqb_refl; reflexivity.
  - rewrite contains_cons; intros H; apply orb_false_elim in H as [Hc Hrest].
    simpl; rewrite Hc, (IH Hrest); reflexivity.
Qed.

Lemma mem_In (x : string) (xs : list string) :
  Hparams.mem x xs = true <-> In x xs.
Proof.
  unfold Hparams.mem; rewrite existsb_exists; split.
  - intros (y & Hy & E); apply String.eqb_eq in E; subst; exact Hy.
  - intros H; exists x; split; [exact H | apply String.eqb_refl].
Qed.

Lemma mem_same_set (x : string) (xs ys : list string) :
  (forall m, In m xs <-> In m ys) -> Hparams.mem x xs = Hparams.mem x ys.
Proof.
  intros H; apply eq_true_iff_eq; rewrite !mem_In; apply H.
Qed.

(** The modifiers are the pieces after the first one, with or without a
    dash in the name. *)
Lemma modifiers_are_tail (dataset_name : string) :
  (if contains "-" dataset_name then tl (split "-" dataset_name) else [])
  = tl (split "-" dataset_name).
Proof.
  destruct (contains "-" dataset_name) eqn:H; [reflexivity |].
  rewrite (split_single "-" dataset_name H); reflexivity.
Qed.

(** X12: [parse_dataset_name] reads the modifiers of a dataset name as a
    set: two names with the same first piece whose further pieces are the
    same up to order and repetition give the same identifier.  The split
    is chosen by the order train, val, test, combined, not by the order in
    the name. *)
Theorem parse_dataset_name_modifier_set (name1 name2 : string) :
  first_part (split "-" name1) = first_part (split "-" name2) ->
  (forall m, In m (tl (split "-" name1)) <-> In m (tl (split "-" name2))) ->
  Hparams.parse_dataset_name name1 = Hparams.parse_dataset_name name2.
Proof.
  intros Hbase Hmods; unfold Hparams.parse_dataset_name.
  rewrite !modifiers_are_tail, Hbase.
  rewrite !(mem_same_set _ _ _ Hmods).
  replace (find (fun split_name => Hparams.mem split_name
                                     (tl (split "-" name1))) _)
    with (find (fun split_name => Hparams.mem split_name
                                    (tl (split "-" name2)))
               ["train"; "val"; "test"; "combined"]);
    [reflexivity |].
  cbn [find]; rewrite !(mem_same_set _ _ _ Hmods); reflexivity.
Qed.

Lemma parse_dataset_name_modifier_set_witness :
  Hparams.parse_dataset_name "mtsd-val-color-train"
  = Hparams.parse_dataset_name "mtsd-train-color-val-color"
  /\ Hparams.split (Hparams.parse_dataset_name "mtsd-val-color-train")
     = Some "train".
Proof.
  split; [| reflexivity].
  apply (parse_dataset_name_modifier_set "mtsd-val-color-train"
           "mtsd-train-color-val-color"); [reflexivity |].
  intros m; simpl; tauto.
Defined.

Lemma lookup_none {V} (key : string) (d : list (string * V)) :
  Hparams.lookup key d = None <-> ~ In key (map fst d).
Proof.
  induction d as [| [k v] rest IH]; simpl; [tauto |].
  destruct (String.eqb_spec k key) as [-> | Hne].
  - split; [discriminate | intros H; exfalso; apply H; left; reflexivity].
  - rewrite IH; tauto.
Qed.

Lemma parse_name (dataset_name : string) :
  Hparams.name (Hparams.parse_dataset_name dataset_name)
  = first_part (split "-" dataset_name).
Proof.
  unfold Hparams.parse_dataset_name.
  destruct (contains "reap" _ || contains "synthetic" _); reflexivity.
Qed.

(** X13: [MetaData.get] resolves a dataset name by its first piece
    alone: whatever follows the first dash, ["-100"] and ["-shape"]
    included, the metadata is that of the base name; and it raises
    ValueError exactly when the base name is not a key of the table. *)
Theorem get_resolves_base_only (base rest : string) :
  contains "-" base = false ->
  Hparams.get (base ++ String "-" rest) = Hparams.get base
  /\ (Hparams.get base = Raise ValueError
      <-> ~ In base (map fst Hparams.metadata)).
Proof.
  intros Hbase; unfold Hparams.get; rewrite !parse_name.
  rewrite (split_app "-" base rest Hbase), (split_single "-" base Hbase).
  cbn [first_part hd].
  split; [reflexivity |].
  rewrite <- lookup_none.
  destruct (Hparams.lookup base Hparams.metadata);
    split; intros H; try discriminate H; reflexivity.
Qed.

(** The synthetic benchmark with 100 classes gets the table of the
    shape classes. *)
Lemma get_resolves_base_only_witness :
  Hparams.get "synthetic-100" = Hparams.get "synthetic"
  /\ Hparams.get "synthetic" = Ok Hparams.ReapShapeMetadata
  /\ Hparams.get "reap-shape" = Hparams.get "reap"
  /\ Hparams.get "reap" = Ok Hparams.Reap100Metadata.
Proof.
  split; [| split; [reflexivity | split; [| reflexivity]]].
  - apply (get_resolves_base_only "synthetic" "100"); reflexivity.
  - apply (get_resolves_base_only "reap" "shape"); reflexivity.
Defined.

(** X14: the names [register_mapillary] registers, a base name, a dash
    and a split, parse back to that base name, and to that split when it
    is one of train, val, test and combined; no other flag is set, but
    [skip_bg_only] for the base name ["reap"]. *)
Theorem registered_name_parses_back (base split_name : string) :
  contains "-" base = false ->
  In split_name ["train"; "val"; "test"; "combined"] ->
  Hparams.parse_dataset_name (base ++ String "-" split_name)
  = Hparams.mk_id base false false false false (String.eqb base "reap")
                  None (Some split_name).
Proof.
  intros Hbase Hsplit; unfold Hparams.parse_dataset_name.
  rewrite modifiers_are_tail.
  assert (Hpieces : split "-" (base ++ String "-" split_name)
                    = [base; split_name]).
  { rewrite (split_app "-" base split_name Hbase).
    simpl in Hsplit;
      destruct Hsplit as [<- | [<- | [<- | [<- | []]]]]; reflexivity. }
  rewrite Hpieces; cbn [first_part hd tl].
  destruct (contains "reap" base || contains "synthetic" base) eqn:Hreap.
  - simpl in Hsplit;
      destruct Hsplit as [<- | [<- | [<- | [<- | []]]]]; reflexivity.
  - replace (String.eqb base "reap") with false.
    + simpl in Hsplit;
        destruct Hsplit as [<- | [<- | [<- | [<- | []]]]]; reflexivity.
    + symmetry; apply String.eqb_neq; intros ->; discriminate Hreap.
Qed.

Lemma registered_name_parses_back_witness :
  Hparams.parse_dataset_name "mapillary-combined"
  = Hparams.mk_id "mapillary" false false false false false None
                  (Some "combined")
  /\ In "combined" (Hparams.splits Hparams.Reap100Metadata).
Proof.
  split; [| left; reflexivity].
  apply (registered_name_parses_back "mapillary" "combined");
    [reflexivity | simpl; tauto].
Defined.

End DatasetNames.

(** ** run_realism_test_main.py: translate and scale *)

Section TranslateScaleProperties.
Import RTensor TranslateScale.
Open Scope R_scope.

Lemma rsum_snoc (xs : list R) (x : R) : rsum (xs ++ [x]) = rsum xs + x.
Proof.
  induction xs as [| y xs IH]; simpl; [lra |].
  fold (rsum (xs ++ [x])); fold (rsum xs); rewrite IH; lra.
Qed.

Lemma roll_snoc (xs : list R) (x : R) : roll (xs ++ [x]) = x :: xs.
Proof.
  unfold roll; destruct (xs ++ [x]) eqn:E.
  - destruct xs; discriminate E.
  - rewrite <- E, last_last, removelast_last; reflexivity.
Qed.

(** Rolling a vector keeps its sum and its length, and commutes with a
    map. *)
Lemma rsum_roll (xs : list R) : rsum (roll xs) = rsum xs.
Proof.
  destruct xs as [| x xs] using rev_ind; [reflexivity |].
  rewrite roll_snoc, rsum_snoc; simpl; fold (rsum xs); lra.
Qed.

Lemma length_roll (xs : list R) : length (roll xs) = length xs.
Proof.
  destruct xs as [| x xs] using rev_ind; [reflexivity |].
  rewrite roll_snoc, length_app; simpl; lia.
Qed.

Lemma roll_map (f : R -> R) (xs : list R) :
  roll (map f xs) = map f (roll xs).
Proof.
  destruct xs as [| x xs] using rev_ind; [reflexivity |].
  rewrite map_app; cbn [map]; rewrite !roll_snoc; reflexivity.
Qed.

Lemma dot_affine (s a b : R) (xs ys : list R) :
  length xs = length ys ->
  dot (map (fun x => s * x + a) xs) (map (fun y => s * y + b) ys)
  = s * s * dot xs ys + s * b * rsum xs + a * s * rsum ys
    + INR (length xs) * a * b.
Proof.
  unfold dot; revert ys; induction xs as [| x xs IH]; intros [| y ys] Hlen;
    try discriminate Hlen.
  - simpl; lra.
  - injection Hlen as Hlen; specialize (IH ys Hlen).
    cbn [map combine rsum fold_right length] in *.
    fold (rsum xs) (rsum ys) in *.
    fold (rsum (map (fun '(a0, b0) => a0 * b0) (combine xs ys))) in *.
    fold (rsum (map (fun '(a0, b0) => a0 * b0)
                    (combine (map (fun x0 => s * x0 + a) xs)
                             (map (fun y0 => s * y0 + b) ys)))) in *.
    rewrite IH, S_INR; lra.
Qed.

(** The area of a polygon moved by [(a, b)] and scaled by [s]. *)
Lemma compute_area_similar (s a b : R) (xs ys : list R) :
  length xs = length ys ->
  compute_area (map (fun x => s * x + a) xs) (map (fun y => s * y + b) ys)
  = s * s * compute_area xs ys.
Proof.
  intros Hlen; unfold compute_area.
  rewrite !roll_map.
  rewrite (dot_affine s a b xs (roll ys))
    by (rewrite length_roll; exact Hlen).
  rewrite (dot_affine s b a ys (roll xs))
    by (rewrite length_roll; symmetry; exact Hlen).
  rewrite !rsum_roll, Hlen.
  replace (s * s * dot xs (roll ys) + s * b * rsum xs + a * s * rsum ys
           + INR (length ys) * a * b
           - (s * s * dot ys (roll xs) + s * a * rsum ys + b * s * rsum xs
              + INR (length ys) * b * a))
    with (s * s * (dot xs (roll ys) - dot ys (roll xs))) by lra.
  rewrite Rabs_mult, (Rabs_pos_eq (s * s)) by nra.
  lra.
Qed.

Lemma average_affine (s a : R) (xs : list R) :
  xs <> [] -> average (map (fun x => s * x + a) xs) = s * average xs + a.
Proof.
  intros Hne; unfold average; rewrite length_map.
  assert (Hn : INR (length xs) <> 0).
  { apply not_0_INR; destruct xs; [congruence | discriminate]. }
  assert (Hsum : rsum (map (fun x => s * x + a) xs)
                 = s * rsum xs + INR (length xs) * a).
  { clear Hne Hn; induction xs as [| x xs IH]; [simpl; lra |].
    cbn [map rsum fold_right length] in *.
    fold (rsum xs) in *; fold (rsum (map (fun x0 => s * x0 + a) xs)) in *.
    rewrite IH, S_INR; lra. }
  rewrite Hsum; field; exact Hn.
Qed.

(** X15: when the annotated sign is the source polygon scaled by a
    positive factor and moved, without rotation, the translate-and-scale
    branch recovers that map exactly: every corner of the patch is sent
    where the same scaling and move send it.  The source polygon must
    have corners and a non-zero area. *)
Theorem translate_scale_recovers_similarity (src sign patch_src : list point)
    (s tx ty : R) :
  src <> [] ->
  compute_area (map fst src) (map snd src) <> 0 ->
  0 < s ->
  firstn (length src) (rescale sign)
  = map (fun '(x, y) => (s * x + tx, s * y + ty)) src ->
  patch_src_transformed src sign patch_src
  = map (fun '(x, y) => (s * x + tx, s * y + ty)) patch_src.
Proof.
  intros Hne Harea Hs Htgt; unfold patch_src_transformed.
  rewrite Htgt.
  assert (Hfst : map fst (map (fun '(x, y) => (s * x + tx, s * y + ty)) src)
                 = map (fun x => s * x + tx) (map fst src)).
  { rewrite !map_map; apply map_ext; intros [x y]; reflexivity. }
  assert (Hsnd : map snd (map (fun '(x, y) => (s * x + tx, s * y + ty)) src)
                 = map (fun y => s * y + ty) (map snd src)).
  { rewrite !map_map; apply map_ext; intros [x y]; reflexivity. }
  unfold center; rewrite Hfst, Hsnd; cbn [fst snd].
  rewrite compute_area_similar by (rewrite !length_map; reflexivity).
  rewrite !average_affine
    by (intros E; apply map_eq_nil in E; exact (Hne E)).
  replace (s * s * compute_area (map fst src) (map snd src)
           / compute_area (map fst src) (map snd src))
    with (s * s) by (field; exact Harea).
  rewrite sqrt_square by lra.
  apply map_ext; intros [x y]; f_equal; lra.
Qed.

(** A square of side 64 sent to a square of side 128 at (10, 20). *)
Lemma translate_scale_recovers_similarity_witness :
  patch_src_transformed
    [(0, 0); (64, 0); (64, 64); (0, 64)]
    [(10 * (6036 / 2048), 20 * (6036 / 2048));
     (138 * (6036 / 2048), 20 * (6036 / 2048));
     (138 * (6036 / 2048), 148 * (6036 / 2048));
     (10 * (6036 / 2048), 148 * (6036 / 2048))]
    [(16, 16); (48, 48)]
  = map (fun '(x, y) => (2 * x + 10, 2 * y + 20)) [(16, 16); (48, 48)].
Proof.
  apply (translate_scale_recovers_similarity
           [(0, 0); (64, 0); (64, 64); (0, 64)] _ [(16, 16); (48, 48)]
           2 10 20).
  - discriminate.
  - unfold compute_area, dot, roll; simpl.
    rewrite Rabs_left1 by lra; lra.
  - lra.
  - unfold rescale, IMG_WIDTH; simpl.
    repeat (f_equal; try (f_equal; field)).
Defined.

End TranslateScaleProperties.

(** ** mapillary.py: objects and keypoints *)

Section MapillaryProperties.
Import Mapillary.
Open Scope Q_scope.

Lemma flat_map_keypoints_length (scales : Q * Q) (padding : Q * Q * Q * Q)
    (tgt_points : list point) :
  length (flat_map (keypoint_of scales padding) tgt_points)
  = (3 * length tgt_points)%nat.
Proof.
  induction tgt_points as [| tgt rest IH]; [reflexivity |].
  cbn [flat_map length]; rewrite length_app, IH.
  unfold keypoint_of; destruct scales, padding as [[[? ?] ?] ?]; simpl; lia.
Qed.

(** X16: the keypoints of an annotated object that is not background.
    Four target points give their four scaled and padded positions, each
    with the visibility 2; three target points give three such keypoints
    and, as the fourth, their centroid, which is the scaled and padded
    centroid of the target points; any other number of target points
    raises AssertionError, more than four because the assertion of the
    branch asks for the background class. *)
Theorem reap_keypoints_spec (scales : Q * Q) (padding : Q * Q * Q * Q)
    (class_id bg_class : Z) (tgt_points : list point) :
  class_id <> bg_class ->
  match tgt_points with
  | [_; _; _; _] =>
      reap_keypoints scales padding class_id bg_class tgt_points
      = Ok (flat_map (keypoint_of scales padding) tgt_points)
  | [(x1, y1); (x2, y2); (x3, y3)] =>
      exists kx ky,
        reap_keypoints scales padding class_id bg_class tgt_points
        = Ok (flat_map (keypoint_of scales padding) tgt_points
              ++ [kx; ky; 2])
        /\ Forall2 Qeq [kx; ky; 2]
                   (keypoint_of scales padding
                                ((x1 + x2 + x3) / 3, (y1 + y2 + y3) / 3))
  | _ =>
      reap_keypoints scales padding class_id bg_class tgt_points
      = Raise AssertionError
  end.
Proof.
  intros Hclass; apply Z.eqb_neq in Hclass.
  destruct scales as [scale0 scale1], padding as [[[pad0 pad1] pad2] pad3].
  destruct tgt_points as [| [x1 y1] [| [x2 y2] [| [x3 y3] [| [x4 y4] rest]]]];
    try reflexivity.
  - do 2 eexists; split; [reflexivity |].
    repeat constructor; cbn [fst snd]; field.
  - destruct rest as [| p5 rest]; [reflexivity |].
    unfold reap_keypoints; cbn [length Nat.ltb Nat.leb _NUM_KEYPOINTS].
    rewrite Hclass; reflexivity.
Qed.

(** A triangle, on an image scaled by 1/2 and padded by 8 rows. *)
Lemma reap_keypoints_spec_witness :
  exists kx ky,
    reap_keypoints (1 / 2, 1 / 2) (0, 8, 0, 8) 2 11
                   [(0, 0); (6, 0); (3, 12)]
    = Ok (flat_map (keypoint_of (1 / 2, 1 / 2) (0, 8, 0, 8))
                   [(0, 0); (6, 0); (3, 12)]
          ++ [kx; ky; 2])
    /\ Forall2 Qeq [kx; ky; 2]
               (keypoint_of (1 / 2, 1 / 2) (0, 8, 0, 8)
                            ((0 + 6 + 3) / 3, (0 + 0 + 12) / 3)).
Proof.
  apply (reap_keypoints_spec (1 / 2, 1 / 2) (0, 8, 0, 8) 2 11
           [(0, 0); (6, 0); (3, 12)]).
  discriminate.
Defined.

(** What the assertion that ends the block checks. *)
Lemma reap_keypoints_shape (scales : Q * Q) (padding : Q * Q * Q * Q)
    (class_id bg_class : Z) (tgt_points : list point) :
  class_id <> bg_class ->
  length tgt_points = 3%nat \/ length tgt_points = 4%nat ->
  exists keypoints,
    reap_keypoints scales padding class_id bg_class tgt_points
    = Ok keypoints
    /\ length keypoints = 12%nat
    /\ Forall (fun i => exists v, nth_error keypoints i = Some v /\ v == 2)
              [2; 5; 8; 11]%nat.
Proof.
  intros _ Hlen.
  destruct scales as [scale0 scale1], padding as [[[pad0 pad1] pad2] pad3].
  destruct tgt_points as [| [x1 y1] [| [x2 y2] [| [x3 y3] [| [x4 y4] rest]]]];
    simpl in Hlen; try lia.
  - eexists; split; [reflexivity |]; split; [reflexivity |].
    repeat constructor; eexists; (split; [reflexivity |]); reflexivity.
  - destruct rest; [| simpl in Hlen; lia].
    eexists; split; [reflexivity |]; split; [reflexivity |].
    repeat constructor; eexists; (split; [reflexivity |]); reflexivity.
Qed.

Lemma rows_of_In (img_df : img_df_t) (obj_id : Z) (row : Z * list point) :
  In row (rows_of img_df obj_id) -> In row img_df /\ fst row = obj_id.
Proof.
  unfold rows_of; rewrite filter_In; intros [Hin Heq]; split;
    [exact Hin | apply Z.eqb_eq; exact Heq].
Qed.

(** One line of a label file: the object made of it. *)
Lemma make_obj_spec (scales : Q * Q) (padding : Q * Q * Q * Q)
    (bg_class : Z) (ignore_bg_class : bool) (img_df : option img_df_t)
    (orig_obj : label) :
  (0 <= label_class_id orig_obj <= bg_class)%Z ->
  (forall df row, img_df = Some df -> In row df ->
                  length (snd row) = 3%nat \/ length (snd row) = 4%nat) ->
  exists made,
    make_obj scales padding bg_class ignore_bg_class img_df orig_obj
    = Ok made
    /\ forall o, made = Some o ->
         (0 <= category_id o <= bg_class)%Z
         /\ length (keypoints o) = 12%nat
         /\ (ignore_bg_class = true -> category_id o <> bg_class)
         /\ (has_reap o = true ->
             category_id o <> bg_class
             /\ Forall (fun i => exists v, nth_error (keypoints o) i = Some v
                                          /\ v == 2)
                       [2; 5; 8; 11]%nat)
         /\ (forall df, img_df = Some df ->
                        rows_of df (object_id o) = [] ->
                        category_id o = bg_class /\ has_reap o = false).
Proof.
  intros Hclass Hpoints; unfold make_obj.
  destruct scales as [scale0 scale1], padding as [[[pad0 pad1] pad2] pad3].
  set (obj_df := option_map (fun df => rows_of df (label_obj_id orig_obj))
                            img_df).
  set (class_id := match obj_df with
                   | Some [] => bg_class
                   | _ => label_class_id orig_obj
                   end).
  assert (Hrange : (0 <= class_id <= bg_class)%Z).
  { unfold class_id; destruct obj_df as [[| row rows] |]; lia. }
  destruct (ignore_bg_class && Z.eqb class_id bg_class) eqn:Hskip.
  { eexists; split; [reflexivity | discriminate]. }
  replace ((0 <=? class_id)%Z && (class_id <=? bg_class)%Z) with true
    by (symmetry; apply andb_true_intro; split; apply Z.leb_le; lia).
  cbn [negb].
  assert (Hignore : ignore_bg_class = true -> class_id <> bg_class).
  { intros ->; simpl in Hskip; apply Z.eqb_neq; exact Hskip. }
  assert (Hplain : forall box,
             let o := mk_obj box class_id (label_obj_id orig_obj) false
                             (repeat 0 (_NUM_KEYPOINTS * 3)) in
             (obj_df = None \/ obj_df = Some [] \/ class_id = bg_class) ->
             (0 <= category_id o <= bg_class)%Z
             /\ length (keypoints o) = 12%nat
             /\ (ignore_bg_class = true -> category_id o <> bg_class)
             /\ (has_reap o = true ->
                 category_id o <> bg_class
                 /\ Forall (fun i => exists v,
                                nth_error (keypoints o) i = Some v /\ v == 2)
                           [2; 5; 8; 11]%nat)
             /\ (forall df, img_df = Some df ->
                            rows_of df (object_id o) = [] ->
                            category_id o = bg_class
                            /\ has_reap o = false)).
  { intros box o Hcase; cbn [o category_id keypoints has_reap object_id].
    split; [exact Hrange |]; split; [reflexivity |].
    split; [exact Hignore |]; split; [discriminate |].
    intros df Hdf Hrows; split; [| reflexivity].
    unfold class_id, obj_df; rewrite Hdf; cbn [option_map]; rewrite Hrows.
    reflexivity. }
  destruct obj_df as [[| [row_id tgt_points] rows] |] eqn:Hdf.
  - eexists; split; [reflexivity |].
    intros o Ho; injection Ho as <-; apply Hplain; auto.
  - destruct (Z.eqb class_id bg_class) eqn:Hbg; cbn [negb].
    + eexists; split; [reflexivity |].
      intros o Ho; injection Ho as <-; apply Hplain.
      right; right; apply Z.eqb_eq; exact Hbg.
    + apply Z.eqb_neq in Hbg.
      assert (Hlen : length tgt_points = 3%nat \/ length tgt_points = 4%nat).
      { unfold obj_df in Hdf; destruct img_df as [df |]; [| discriminate].
        injection Hdf as Hdf.
        assert (Hin : In (row_id, tgt_points)
                         (rows_of df (label_obj_id orig_obj)))
          by (rewrite Hdf; left; reflexivity).
        apply rows_of_In in Hin as [Hin _].
        exact (Hpoints df (row_id, tgt_points) eq_refl Hin). }
      destruct (reap_keypoints_shape (scale0, scale1)
                  (pad0, pad1, pad2, pad3) class_id bg_class tgt_points
                  Hbg Hlen) as (kp & -> & Hkp & Hflags).
      cbn [bind]; eexists; split; [reflexivity |].
      intros o Ho; injection Ho as <-.
      cbn [category_id keypoints has_reap object_id].
      split; [exact Hrange |]; split; [exact Hkp |].
      split; [exact Hignore |]; split; [intros _; split; assumption |].
      intros df Himg Hrows; exfalso.
      unfold obj_df in Hdf; rewrite Himg in Hdf; cbn [option_map] in Hdf.
      rewrite Hrows in Hdf; discriminate Hdf.
  - eexists; split; [reflexivity |].
    intros o Ho; injection Ho as <-; apply Hplain; auto.
Qed.

Lemma map_result_forall {A B} (f : A -> result B) (P : B -> Prop)
    (xs : list A) :
  (forall x, In x xs -> exists y, f x = Ok y /\ P y) ->
  exists ys, map_result f xs = Ok ys /\ Forall P ys.
Proof.
  induction xs as [| x rest IH]; intros H.
  - exists []; split; [reflexivity | constructor].
  - destruct (H x (or_introl eq_refl)) as (y & Hy & Py).
    destruct IH as (ys & Hys & Pys);
      [intros x' Hx'; apply H; right; exact Hx' |].
    exists (y :: ys); simpl; rewrite Hy, Hys; simpl.
    split; [reflexivity | constructor; assumption].
Qed.

(** X17: for a label file that is not empty, class ids between 0 and the
    background class, and annotations of three or four target points,
    the annotations of an image are computed without an error, and when
    the image is kept every object has a class id in range and twelve
    keypoint entries; no object is background when [ignore_bg_class] is
    set; an object with [has_reap] is not background and its four
    visibility entries are 2; an object absent from a given annotation
    table is background without [has_reap]; and at least one object of a
    kept image is not background. *)
Theorem image_annotations_invariants (scales : Q * Q)
    (padding : Q * Q * Q * Q) (bg_class : Z) (ignore_bg_class : bool)
    (img_df : option img_df_t) (labels : list label) :
  labels <> [] ->
  (forall l, In l labels -> (0 <= label_class_id l <= bg_class)%Z) ->
  (forall df row, img_df = Some df -> In row df ->
                  length (snd row) = 3%nat \/ length (snd row) = 4%nat) ->
  exists annotations,
    image_annotations scales padding bg_class ignore_bg_class img_df labels
    = Ok annotations
    /\ forall objs, annotations = Some objs ->
         Forall
           (fun o =>
              (0 <= category_id o <= bg_class)%Z
              /\ length (keypoints o) = 12%nat
              /\ (ignore_bg_class = true -> category_id o <> bg_class)
              /\ (has_reap o = true ->
                  category_id o <> bg_class
                  /\ Forall (fun i => exists v,
                                 nth_error (keypoints o) i = Some v
                                 /\ v == 2)
                            [2; 5; 8; 11]%nat)
              /\ (forall df, img_df = Some df ->
                             rows_of df (object_id o) = [] ->
                             category_id o = bg_class
                             /\ has_reap o = false))
           objs
         /\ Exists (fun o => category_id o <> bg_class) objs.
Proof.
  intros Hne Hclass Hpoints; unfold image_annotations, image_objects.
  destruct labels as [| l0 labels']; [congruence |].
  cbn [index nth_error bind]; set (labels := l0 :: labels') in *.
  destruct (map_result_forall
              (make_obj scales padding bg_class ignore_bg_class img_df)
              _ labels
              (fun l Hl => make_obj_spec scales padding bg_class
                             ignore_bg_class img_df l (Hclass l Hl)
                             Hpoints))
    as (made & -> & Hmade).
  cbn [bind].
  set (objs := flat_map _ made).
  assert (Hobjs : forall o, In o objs -> In (Some o) made).
  { intros o Ho; apply in_flat_map in Ho as ([o' |] & Hin & Ho');
      simpl in Ho'; [| contradiction].
    destruct Ho' as [<- | []]; exact Hin. }
  destruct (Nat.eqb (length objs) 0
            || forallb (fun o => Z.eqb (category_id o) bg_class) objs)
    eqn:Hskip.
  - eexists; split; [reflexivity | discriminate].
  - eexists; split; [reflexivity |].
    intros objs' E; injection E as <-; split.
    + apply Forall_forall; intros o Ho.
      rewrite Forall_forall in Hmade.
      exact (Hmade (Some o) (Hobjs o Ho) o eq_refl).
    + apply orb_false_elim in Hskip as [_ Hall].
      apply Exists_exists.
      assert (Hex : existsb (fun o => negb (Z.eqb (category_id o) bg_class))
                            objs = true).
      { clear -Hall; induction objs as [| o objs IH]; [discriminate Hall |].
        simpl in *; destruct (Z.eqb (category_id o) bg_class);
          [apply IH; exact Hall | reflexivity]. }
      apply existsb_exists in Hex as (o & Ho & Hneq).
      exists o; split; [exact Ho |].
      apply Z.eqb_neq; destruct (Z.eqb (category_id o) bg_class);
        [discriminate Hneq | reflexivity].
Qed.

(** An annotated triangle and a sign without annotation. *)
Lemma image_annotations_invariants_witness :
  exists annotations,
    image_annotations (1, 1) (0, 0, 0, 0) 11 false
      (Some [(7%Z, [(0, 0); (6, 0); (3, 12)])])
      [mk_label 2 0 0 6 12 100 50 7; mk_label 5 20 20 30 30 100 50 8]
    = Ok annotations
    /\ forall objs, annotations = Some objs ->
         Forall
           (fun o =>
              (0 <= category_id o <= 11)%Z
              /\ length (keypoints o) = 12%nat
              /\ (false = true -> category_id o <> 11%Z)
              /\ (has_reap o = true ->
                  category_id o <> 11%Z
                  /\ Forall (fun i => exists v,
                                 nth_error (keypoints o) i = Some v
                                 /\ v == 2)
                            [2; 5; 8; 11]%nat)
              /\ (forall df,
                    Some [(7%Z, [(0, 0); (6, 0); (3, 12)])] = Some df ->
                    rows_of df (object_id o) = [] ->
                    category_id o = 11%Z /\ has_reap o = false))
           objs
         /\ Exists (fun o => category_id o <> 11%Z) objs.
Proof.
  apply (image_annotations_invariants (1, 1) (0, 0, 0, 0) 11 false
           (Some [(7%Z, [(0, 0); (6, 0); (3, 12)])])
           [mk_label 2 0 0 6 12 100 50 7; mk_label 5 20 20 30 30 100 50 8]).
  - discriminate.
  - intros l [<- | [<- | []]]; simpl; lia.
  - intros df row E Hin; injection E as <-.
    destruct Hin as [<- | []]; left; reflexivity.
Defined.

End MapillaryProperties.

(** ** Fitting percentiles on a flat region and applying them *)

Section FlatRegion.
Import PyStr PyFloat QTensor Fitters.
Open Scope string_scope.

(** The two percentiles of a sample whose pixels all have one value. *)
Lemma percentile_pair_flat (sample : list Q) (c : Q) (pct : Z) :
  sample <> [] -> (0 <= pct <= 100)%Z ->
  Forall (fun x => x == c)%Q sample ->
  exists scale offset,
    percentile_pair sample pct = Ok (fin scale, fin offset)
    /\ (scale == 0)%Q /\ (offset == c)%Q.
Proof.
  intros Hne Hpct Hflat.
  assert (Hin : forall x, In x sample -> (c <= x)%Q /\ (x <= c)%Q).
  { intros x Hx; rewrite Forall_forall in Hflat.
    rewrite (Hflat x Hx); split; apply Qle_refl. }
  destruct (nanpercentile_range sample pct c c Hne Hpct Hin)
    as (r1 & E1 & Hl1 & Hu1).
  destruct (nanpercentile_range sample (100 - pct) c c Hne ltac:(lia) Hin)
    as (r2 & E2 & Hl2 & Hu2).
  exists (r2 - r1)%Q, r1; unfold percentile_pair; rewrite E1, E2; cbn.
  split; [reflexivity |]; split; lra.
Qed.

Lemma concat_flat (rows : list (list Q)) (c : Q) :
  Forall (Forall (fun x => x == c)%Q) rows ->
  Forall (fun x => x == c)%Q (concat rows).
Proof.
  induction 1 as [| row rows Hrow _ IH]; simpl; [constructor |].
  apply Forall_app; split; assumption.
Qed.

(** The polynomial of degree one with a zero slope, on every pixel. *)
Lemma constant_row_applied (inputs : RTensor.batch) (slope offset : R) :
  slope = 0%R -> (0 <= offset <= 1)%R ->
  Apply._polynomial_match inputs [[[slope; offset]]] None None
  = Ok (map (map (fun _ => (offset, offset, offset))) inputs, []).
Proof.
  intros -> Hrange; unfold Apply._polynomial_match, Apply.polynomial_raw.
  replace (negb (Nat.eqb (length [[[0%R; offset]]]) (length inputs))
           && negb (Nat.eqb (length [[[0%R; offset]]]) 1))
    with false by (rewrite andb_comm; reflexivity).
  cbn [Apply.num_channels Apply.num_degrees hd length Nat.eqb orb negb].
  assert (Hpairs : Apply.broadcast_to inputs [[[0%R; offset]]]
                   = Ok (map (fun img => (img, [[0%R; offset]])) inputs)).
  { unfold Apply.broadcast_to.
    destruct (Nat.eqb_spec (length inputs) (length [[[0%R; offset]]]))
      as [Hlen | _]; [| reflexivity].
    destruct inputs as [| img [| img' rest]]; try discriminate Hlen.
    reflexivity. }
  rewrite Hpairs; cbn [bind]; f_equal; f_equal.
  unfold Apply.clamp_batch; rewrite !map_map.
  apply map_ext; intros img.
  unfold Apply.poly_all; rewrite map_map.
  apply map_ext; intros [[x0 x1] x2].
  unfold Apply.poly_eval, RTensor.clamp; cbn.
  rewrite !Rmult_0_r, !Rplus_0_l, !Rmult_1_l, !Rplus_0_r.
  rewrite Rmax_left, Rmin_left by lra; reflexivity.
Qed.

(** X18: fitting and applying on a flat gray region.  When every real
    pixel under the mask has the gray level [c] in the three channels,
    [_simple_percentile] in its default mode returns one row with a zero
    scale and the offset [c], and [_polynomial_match] with that row sends
    every pixel of every image to the gray level [c]. *)
Theorem flat_gray_region_reproduced (r0 r1 r2 : list Q) (c : Q)
    (mode : string) (p : float) (pct : Z) (inputs : RTensor.batch) :
  r0 <> [] -> length r1 = length r0 -> length r2 = length r0 ->
  Forall (Forall (fun x => x == c)%Q) [r0; r1; r2] ->
  (0 <= c <= 1)%Q ->
  contains "-sv" mode = false -> contains "-l" mode = false ->
  in_unit p = true -> percentile_fold p = Ok pct -> (0 <= pct <= 100)%Z ->
  exists scale offset,
    _simple_percentile [r0; r1; r2] mode p = Ok [(fin scale, fin offset)]
    /\ Apply._polynomial_match inputs [[[Q2R scale; Q2R offset]]] None None
       = Ok (map (map (fun _ => (Q2R c, Q2R c, Q2R c))) inputs, []).
Proof.
  intros Hne Hlen1 Hlen2 Hflat Hc Hsv Hl Hp Hfold Hpct.
  rewrite (simple_percentile_rows r0 r1 r2 mode p pct Hp Hfold), Hsv, Hl.
  unfold stack; cbn [forallb]; rewrite Hlen1, Hlen2, Nat.eqb_refl.
  cbn [andb bind].
  destruct (percentile_pair_flat (concat [r0; r1; r2]) c pct)
    as (scale & offset & -> & Hscale & Hoffset).
  - destruct r0; [congruence | discriminate].
  - exact Hpct.
  - apply concat_flat; exact Hflat.
  - exists scale, offset; split; [reflexivity |].
    apply Qeq_eqR in Hscale, Hoffset.
    rewrite Hoffset; apply constant_row_applied.
    + rewrite Hscale; apply RMicromega.Q2R_0.
    + destruct Hc as [Hc0 Hc1]; apply Qle_Rle in Hc0, Hc1.
      rewrite RMicromega.Q2R_0 in Hc0; rewrite RMicromega.Q2R_1 in Hc1.
      split; assumption.
Qed.

(** Two gray pixels of level 1/2 and the tenth percentile. *)
Lemma flat_gray_region_reproduced_witness :
  exists scale offset,
    _simple_percentile [[1 # 2; 1 # 2]; [1 # 2; 1 # 2]; [1 # 2; 1 # 2]]
                       "percentile" (decimal 1 1)
    = Ok [(fin scale, fin offset)]
    /\ Apply._polynomial_match [[(0, 1 / 4, 1)%R]]
                               [[[Q2R scale; Q2R offset]]] None None
       = Ok (map (map (fun _ => (Q2R (1 # 2), Q2R (1 # 2), Q2R (1 # 2))))
                 [[(0, 1 / 4, 1)%R]], []).
Proof.
  apply (flat_gray_region_reproduced [1 # 2; 1 # 2] [1 # 2; 1 # 2]
           [1 # 2; 1 # 2] (1 # 2) "percentile" (decimal 1 1) 10
           [[(0, 1 / 4, 1)%R]]).
  - discriminate.
  - reflexivity.
  - reflexivity.
  - repeat (constructor; [repeat (constructor; [reflexivity |]);
                          constructor |]); constructor.
  - split; discriminate.
  - reflexivity.
  - reflexivity.
  - vm_compute; reflexivity.
  - vm_compute; reflexivity.
  - lia.
Defined.

End FlatRegion.

(** ** The k-means helpers *)

Section KMeanProperties.
Import QTensor KMean.
Open Scope Q_scope.

Lemma Qdiv_lt_cross (a b c d : Q) :
  0 < b -> 0 < d -> (a / b < c / d <-> a * d < c * b).
Proof.
  intros Hb Hd.
  assert (Hbz : ~ b == 0) by (apply Qnot_eq_sym, Qlt_not_eq; exact Hb).
  assert (Hdz : ~ d == 0) by (apply Qnot_eq_sym, Qlt_not_eq; exact Hd).
  assert (El : a / b * (b * d) == a * d) by (field; exact Hbz).
  assert (Er : c / d * (b * d) == c * b) by (field; exact Hdz).
  assert (Hbd : 0 < b * d) by nra.
  split; intros H.
  - rewrite <- El, <- Er; apply Qmult_lt_compat_r; assumption.
  - apply Qlt_shift_div_l; [exact Hd |].
    assert (E : a / b * d == a * d / b) by (field; exact Hbz).
    rewrite E; apply Qlt_shift_div_r; [exact Hb | exact H].
Qed.

Lemma best_k_iff (loss_2 loss_3 : Q) (n : Z) :
  _best_k loss_2 loss_3 n = true
  <-> loss_2 / (1 - 3 / (4 * inject_Z n))
      < loss_3 / ((1 - 3 / (4 * inject_Z n)
                   + (1 - (1 - 3 / (4 * inject_Z n))) / 6) * loss_2).
Proof.
  unfold _best_k; rewrite negb_true_iff.
  split.
  - intros H; apply Qnot_le_lt; intros Hle.
    apply Qle_bool_iff in Hle; congruence.
  - intros H; destruct (Qle_bool _ _) eqn:E; [| reflexivity].
    apply Qle_bool_iff in E; exfalso; exact (Qlt_not_le _ _ H E).
Qed.

(** The two weights are positive for one channel or more. *)
Lemma alphas_positive (q : Q) :
  1 <= q ->
  0 < 1 - 3 / (4 * q)
  /\ 0 < 1 - 3 / (4 * q) + (1 - (1 - 3 / (4 * q))) / 6.
Proof.
  intros Hq.
  assert (Hnz : ~ 4 * q == 0) by (apply Qnot_eq_sym, Qlt_not_eq; lra).
  assert (E2 : 1 - 3 / (4 * q) == (4 * q - 3) / (4 * q)).
  { field; apply Qnot_eq_sym, Qlt_not_eq; lra. }
  assert (E3 : 1 - 3 / (4 * q) + (1 - (1 - 3 / (4 * q))) / 6
               == (24 * q - 15) / (24 * q)).
  { field; apply Qnot_eq_sym, Qlt_not_eq; lra. }
  rewrite E3, E2; split; apply Qlt_shift_div_l; lra.
Qed.

(** X19: the choice between two and three clusters depends on the unit
    of the losses.  For every number of channels and every pair of
    positive losses there is a threshold such that multiplying both
    losses by a positive factor selects two clusters exactly when the
    factor is below the threshold: the score of two clusters grows with
    the factor, the score of three does not. *)
Theorem best_k_depends_on_unit (loss_2 loss_3 : Q) (n : Z) :
  (1 <= n)%Z -> 0 < loss_2 -> 0 < loss_3 ->
  exists threshold,
    0 < threshold
    /\ forall factor, 0 < factor ->
         (_best_k (factor * loss_2) (factor * loss_3) n = true
          <-> factor < threshold).
Proof.
  intros Hn H2 H3.
  assert (Hq : 1 <= inject_Z n) by (rewrite Zle_Qle in Hn; exact Hn).
  destruct (alphas_positive (inject_Z n) Hq) as [Ha2 Ha3].
  assert (Hiff : forall l2 l3, _best_k l2 l3 n = true
            <-> l2 / (1 - 3 / (4 * inject_Z n))
                < l3 / ((1 - 3 / (4 * inject_Z n)
                         + (1 - (1 - 3 / (4 * inject_Z n))) / 6) * l2))
    by (intros; apply best_k_iff).
  revert Ha2 Ha3 Hiff.
  generalize (1 - 3 / (4 * inject_Z n)) as alpha_2.
  intros alpha_2.
  generalize (alpha_2 + (1 - alpha_2) / 6) as alpha_3.
  intros alpha_3 Ha2 Ha3 Hiff.
  assert (Hden : 0 < alpha_3 * loss_2 * loss_2)
    by (repeat apply Qmult_lt_0_compat; assumption).
  assert (Hnum : 0 < loss_3 * alpha_2)
    by (apply Qmult_lt_0_compat; assumption).
  exists (loss_3 * alpha_2 / (alpha_3 * loss_2 * loss_2)); split.
  - apply Qlt_shift_div_l; [exact Hden | lra].
  - intros factor Hf; rewrite Hiff.
    rewrite Qdiv_lt_cross by nra.
    split; intros H.
    + apply Qlt_shift_div_l; [exact Hden |].
      assert (Hff : 0 < factor * factor) by nra.
      nra.
    + assert (H' : factor * (alpha_3 * loss_2 * loss_2) < loss_3 * alpha_2).
      { assert (E : loss_3 * alpha_2
                    == loss_3 * alpha_2 / (alpha_3 * loss_2 * loss_2)
                       * (alpha_3 * loss_2 * loss_2))
          by (field; split; apply Qnot_eq_sym, Qlt_not_eq; assumption).
        rewrite E; apply Qmult_lt_compat_r; assumption. }
      nra.
Qed.

Lemma best_k_depends_on_unit_witness :
  exists threshold,
    0 < threshold
    /\ forall factor, 0 < factor ->
         (_best_k (factor * 2) (factor * 1) 3 = true <-> factor < threshold).
Proof.
  apply (best_k_depends_on_unit 2 1 3); [lia | reflexivity | reflexivity].
Defined.








End KMeanProperties.

(** ** DPatchYolofAttack: entering and leaving the attack *)

Section DPatchYolofProperties.
Import DPatchYolof.
Open Scope Q_scope.

(** X21: [_on_exit_attack] after [_on_enter_attack] gives the model the
    thresholds it had when the attack was constructed and the training
    flag it had when the attack was entered, and switches [attack_mode]
    off; between the two the model is in evaluation mode with the
    thresholds of the attack, which are those of the configuration or,
    where it gives none, the model's own.  Entering twice before leaving
    loses the training flag: the model is left in evaluation mode. *)
Theorem enter_then_exit_restores_model
    (nms_thres min_conf iou_thres : option Q) (is_training : option bool)
    (built entered : core_model) (self : attack) (during : core_model) :
  _on_enter_attack
    (__init__ nms_thres min_conf iou_thres is_training built, entered)
  = (self, during) ->
  (training during = false
   /\ attack_mode during = Some true
   /\ test_nms_thresh during
      = match nms_thres with Some v => v | None => test_nms_thresh built end
   /\ test_score_thresh during
      = match min_conf with Some v => v | None => test_score_thresh built end
   /\ pos_ignore_thresh during
      = match iou_thres with
        | Some v => v
        | None => pos_ignore_thresh built
        end)
  /\ _on_exit_attack (self, during)
     = Ok (self,
           mk_model (training entered) (Some false)
                    (test_nms_thresh built) (test_score_thresh built)
                    (pos_ignore_thresh built))
  /\ (exists self',
        _on_exit_attack (_on_enter_attack (self, during))
        = Ok (self',
              mk_model false (Some false)
                       (test_nms_thresh built) (test_score_thresh built)
                       (pos_ignore_thresh built))).
Proof.
  unfold __init__, _on_enter_attack; intros H; injection H as <- <-.
  unfold _on_exit_attack.
  cbn [_nms_thres _min_conf _iou_thres _nms_thres_orig _conf_thres_orig
       _iou_thres_orig _is_training training attack_mode test_nms_thresh
       test_score_thresh pos_ignore_thresh].
  split; [repeat split |].
  split; [reflexivity | eexists; reflexivity].
Qed.

(** A model in training mode, attacked with a confidence threshold of
    its own. *)
Lemma enter_then_exit_restores_model_witness :
  exists self during,
    _on_enter_attack
      (__init__ None (Some (1 # 4)) None None
                (mk_model true None (1 # 2) (1 # 20) (3 # 4)),
       mk_model true None (1 # 2) (1 # 20) (3 # 4))
    = (self, during)
    /\ test_score_thresh during = 1 # 4
    /\ _on_exit_attack (self, during)
       = Ok (self, mk_model true (Some false) (1 # 2) (1 # 20) (3 # 4)).
Proof.
  do 2 eexists; split; [reflexivity |].
  destruct (enter_then_exit_restores_model None (Some (1 # 4)) None None
              (mk_model true None (1 # 2) (1 # 20) (3 # 4))
              (mk_model true None (1 # 2) (1 # 20) (3 # 4))
              _ _ eq_refl) as [(_ & _ & _ & Hconf & _) [Hexit _]].
  split; [exact Hconf | exact Hexit].
Defined.

End DPatchYolofProperties.

(** ** prep_mapillary_100.py *)

Section PrepMapillaryProperties.
Import PrepMapillary.
Open Scope string_scope.
Open Scope list_scope.

(** The loop over the alternatives stops at the first one of the
    annotated shape. *)
Lemma first_alternative_spec (table : class_table) (orig_shape : string)
    (alternatives : list nat) :
  Forall (fun l => (l < length table)%nat) alternatives ->
  exists found,
    first_alternative table orig_shape alternatives = Ok found
    /\ match found with
       | Some (cls, l) =>
           nth_error table l = Some (cls, orig_shape)
           /\ exists before rest,
                alternatives = before ++ l :: rest
                /\ forall l' c, In l' before ->
                                nth_error table l' <> Some (c, orig_shape)
       | None =>
           forall l' c, In l' alternatives ->
                        nth_error table l' <> Some (c, orig_shape)
       end.
Proof.
  induction 1 as [| l rest Hl _ IH].
  - exists None; split; [reflexivity | intros l' c []].
  - cbn [first_alternative]; unfold index.
    destruct (nth_error table l) as [[cls shape] |] eqn:Hnth;
      [| apply nth_error_None in Hnth; lia].
    cbn [bind].
    destruct (String.eqb_spec shape orig_shape) as [-> | Hne].
    + exists (Some (cls, l)); split; [reflexivity |].
      split; [exact Hnth |].
      exists [], rest; split; [reflexivity | intros l' c []].
    + destruct IH as (found & -> & Hfound).
      exists found; split; [reflexivity |].
      destruct found as [[cls' l'] |].
      * destruct Hfound as (Hcls & before & rest' & -> & Hbefore).
        split; [exact Hcls |].
        exists (l :: before), rest'; split; [reflexivity |].
        intros l0 c [<- | Hin]; [rewrite Hnth; congruence |].
        apply Hbefore; exact Hin.
      * intros l0 c [<- | Hin]; [rewrite Hnth; congruence |].
        apply Hfound; exact Hin.
Qed.

(** X22: the pseudo-label the merging loop of [main] keeps for an
    annotated object is the most confident class of the classifier whose
    shape is the annotated shape, with its index; when no predicted class
    has that shape it is ["other"] with the last index of the label
    list. *)
Theorem corrected_label_is_best_match (table : class_table)
    (label : list nat) (orig_shape : string) :
  label <> [] ->
  Forall (fun l => (l < length table)%nat) label ->
  exists new_class predicted,
    corrected_label table label orig_shape = Ok (new_class, predicted)
    /\ ((nth_error table predicted = Some (new_class, orig_shape)
         /\ exists before rest,
              label = before ++ predicted :: rest
              /\ forall l c, In l before ->
                             nth_error table l <> Some (c, orig_shape))
        \/ (new_class = "other"
            /\ predicted = (length table - 1)%nat
            /\ forall l c, In l label ->
                           nth_error table l <> Some (c, orig_shape))).
Proof.
  intros Hne Hrange.
  destruct (first_alternative_spec table orig_shape label Hrange)
    as (found & Hfound & Hspec).
  destruct label as [| label_0 rest]; [congruence |].
  unfold corrected_label; cbn [index nth_error bind tl].
  cbn [first_alternative] in Hfound; unfold index in *.
  destruct (nth_error table label_0) as [[cls shape] |]; [| discriminate].
  cbn [bind] in *.
  destruct (String.eqb shape orig_shape); cbn [negb].
  - injection Hfound as <-.
    do 2 eexists; split; [reflexivity |]; left; exact Hspec.
  - rewrite Hfound; cbn [bind].
    destruct found as [[cls' l'] |].
    + do 2 eexists; split; [reflexivity |]; left; exact Hspec.
    + do 2 eexists; split; [reflexivity |]; right.
      split; [reflexivity |]; split; [reflexivity | exact Hspec].
Qed.

(** A stop sign predicted second, behind a circle. *)
Lemma corrected_label_is_best_match_witness :
  exists new_class predicted,
    corrected_label
      [("regulatory--no-entry--g1", "circle");
       ("regulatory--stop--g1", "octagon"); ("other", "other")]
      [0; 1; 2]%nat "octagon"
    = Ok (new_class, predicted)
    /\ ((nth_error
           [("regulatory--no-entry--g1", "circle");
            ("regulatory--stop--g1", "octagon"); ("other", "other")]
           predicted
         = Some (new_class, "octagon")
         /\ exists before rest,
              [0; 1; 2]%nat = before ++ predicted :: rest
              /\ forall l c, In l before ->
                   nth_error
                     [("regulatory--no-entry--g1", "circle");
                      ("regulatory--stop--g1", "octagon");
                      ("other", "other")] l
                   <> Some (c, "octagon"))
        \/ (new_class = "other"
            /\ predicted
               = (length [("regulatory--no-entry--g1", "circle");
                          ("regulatory--stop--g1", "octagon");
                          ("other", "other")] - 1)%nat
            /\ forall l c, In l [0; 1; 2]%nat ->
                 nth_error
                   [("regulatory--no-entry--g1", "circle");
                    ("regulatory--stop--g1", "octagon");
                    ("other", "other")] l
                 <> Some (c, "octagon"))).
Proof.
  apply (corrected_label_is_best_match
           [("regulatory--no-entry--g1", "circle");
            ("regulatory--stop--g1", "octagon"); ("other", "other")]
           [0; 1; 2]%nat "octagon").
  - discriminate.
  - repeat constructor.
Defined.

(** X23: for a bounding box with non-negative position and size and a
    non-negative padding, the crop of [classify] is a square whose side
    is the longer side of the box, it starts inside the padded image and
    it contains the box moved by the padding. *)
Theorem crop_box_contains_bbox (xmin ymin width height pad_size : Z)
    (x0 y0 x1 y1 : Z) :
  (0 <= xmin)%Z -> (0 <= ymin)%Z -> (0 <= width)%Z -> (0 <= height)%Z ->
  (0 <= pad_size)%Z ->
  crop_box xmin ymin width height pad_size = (x0, y0, x1, y1) ->
  (x1 - x0 = Z.max width height)%Z
  /\ (y1 - y0 = Z.max width height)%Z
  /\ (0 <= x0 <= xmin + pad_size)%Z
  /\ (xmin + pad_size + width <= x1)%Z
  /\ (0 <= y0 <= ymin + pad_size)%Z
  /\ (ymin + pad_size + height <= y1)%Z.
Proof.
  intros Hx Hy Hw Hh Hp; unfold crop_box; intros H; injection H as <- <- <- <-.
  rewrite !Z.quot_div_nonneg by lia.
  pose proof (Z.div_pos (Z.max width height - width) 2 ltac:(lia) ltac:(lia)).
  pose proof (Z.div_pos (Z.max width height - height) 2
                        ltac:(lia) ltac:(lia)).
  pose proof (Z.mul_div_le (Z.max width height - width) 2 ltac:(lia)).
  pose proof (Z.mul_div_le (Z.max width height - height) 2 ltac:(lia)).
  lia.
Qed.

Lemma crop_box_contains_bbox_witness :
  exists x0 y0 x1 y1,
    crop_box 5 7 10 21 4 = (x0, y0, x1, y1)
    /\ (x1 - x0 = Z.max 10 21)%Z
    /\ (y1 - y0 = Z.max 10 21)%Z
    /\ (0 <= x0 <= 5 + 4)%Z
    /\ (5 + 4 + 10 <= x1)%Z
    /\ (0 <= y0 <= 7 + 4)%Z
    /\ (7 + 4 + 21 <= y1)%Z.
Proof.
  do 4 eexists; split; [reflexivity |].
  apply (crop_box_contains_bbox 5 7 10 21 4); try lia; reflexivity.
Defined.

End PrepMapillaryProperties.

(** ** print_results_to_csv.py: average precision *)

Section ApRecallProperties.
Import QTensor ApRecall.
Open Scope Q_scope.

Lemma of_nat_nonneg (n : nat) : 0 <= of_nat n.
Proof. apply (of_nat_le 0); lia. Qed.

(** A precision [tp / (tp + fp)] lies between 0 and 1. *)
Lemma precision_unit (t f : nat) :
  0 <= of_nat t / (of_nat t + of_nat f)
  /\ of_nat t / (of_nat t + of_nat f) <= 1.
Proof.
  pose proof (of_nat_nonneg t) as Ht; pose proof (of_nat_nonneg f) as Hf.
  destruct (Qlt_le_dec 0 (of_nat t + of_nat f)) as [Hpos | Hzero].
  - split; [apply Qle_shift_div_l | apply Qle_shift_div_r]; lra.
  - assert (E : of_nat t + of_nat f == 0) by lra.
    assert (E0 : of_nat t / (of_nat t + of_nat f) == 0).
    { unfold Qdiv; rewrite E; change (/ 0) with 0; ring. }
    rewrite E0; split; lra.
Qed.

Lemma accumulate_from_bounds (highest upper : Q) (values : list Q) :
  highest <= upper -> Forall (fun v => v <= upper) values ->
  Forall (fun v => highest <= v /\ v <= upper)
         (accumulate_from highest values).
Proof.
  intros Hh Hvalues; revert highest Hh.
  induction Hvalues as [| v rest Hv _ IH]; intros highest Hh;
    [constructor |].
  cbn [accumulate_from].
  assert (Hmax : Qmax highest v <= upper) by (apply Q.max_lub; assumption).
  constructor; [split; [apply Q.le_max_l | exact Hmax] |].
  eapply Forall_impl; [| exact (IH _ Hmax)].
  intros x [Hx1 Hx2]; split; [| exact Hx2].
  apply Qle_trans with (Qmax highest v); [apply Q.le_max_l | exact Hx1].
Qed.

Lemma accumulate_from_sorted (highest : Q) (values : list Q) :
  StronglySorted Qle (accumulate_from highest values).
Proof.
  revert highest; induction values as [| v rest IH]; intros highest;
    [constructor |].
  cbn [accumulate_from]; constructor; [apply IH |].
  set (top := Qmax highest v).
  assert (Hall : forall h, Forall (fun x => h <= x) (accumulate_from h rest)).
  { clear; induction rest as [| w rest IH]; intros h; [constructor |].
    cbn [accumulate_from]; constructor; [apply Q.le_max_l |].
    eapply Forall_impl; [| exact (IH (Qmax h w))].
    intros x Hx; apply Qle_trans with (Qmax h w);
      [apply Q.le_max_l | exact Hx]. }
  apply Hall.
Qed.

Lemma maximum_accumulate_spec (values : list Q) :
  Forall (fun v => 0 <= v /\ v <= 1) values ->
  Forall (fun v => 0 <= v /\ v <= 1) (maximum_accumulate values)
  /\ StronglySorted Qle (maximum_accumulate values)
  /\ length (maximum_accumulate values) = length values.
Proof.
  destruct values as [| v rest]; [repeat split; constructor |].
  intros H; inversion H as [| ? ? [Hv0 Hv1] Hrest]; subst.
  cbn [maximum_accumulate].
  assert (Hb : Forall (fun x => v <= x /\ x <= 1) (accumulate_from v rest)).
  { apply accumulate_from_bounds; [exact Hv1 |].
    eapply Forall_impl; [| exact Hrest]; intros x [_ Hx]; exact Hx. }
  split; [| split].
  - constructor; [split; assumption |].
    eapply Forall_impl; [| exact Hb]; intros x [Hx0 Hx1]; split; lra.
  - constructor; [apply accumulate_from_sorted |].
    eapply Forall_impl; [| exact Hb]; intros x [Hx0 _]; exact Hx0.
  - cbn [length]; f_equal.
    clear; generalize v; induction rest as [| w rest IH]; intros h;
      [reflexivity |].
    cbn [accumulate_from length]; f_equal; apply IH.
Qed.

Lemma sorted_rev (l : list Q) :
  StronglySorted Qle l -> StronglySorted (fun a b => b <= a) (rev l).
Proof.
  induction 1 as [| x l Hl IH Hx]; [constructor |].
  cbn [rev].
  assert (Happ : forall l1 l2,
             StronglySorted (fun a b => b <= a) l1 ->
             StronglySorted (fun a b => b <= a) l2 ->
             (forall a b, In a l1 -> In b l2 -> b <= a) ->
             StronglySorted (fun a b => b <= a) (l1 ++ l2)).
  { clear; induction l1 as [| y l1 IH]; intros l2 H1 H2 H12; [exact H2 |].
    inversion H1 as [| ? ? Hl1 Hy]; subst; cbn [app]; constructor.
    - apply IH; [exact Hl1 | exact H2 |].
      intros a b Ha Hb; apply H12; [right; exact Ha | exact Hb].
    - apply Forall_app; split; [exact Hy |].
      apply Forall_forall; intros b Hb; apply H12; [left; reflexivity |
                                                     exact Hb]. }
  apply Happ; [exact IH | repeat constructor |].
  intros a b Ha [<- | []].
  rewrite Forall_forall in Hx; apply Hx, in_rev; exact Ha.
Qed.

Lemma searchsorted_left_mono (rc : list Q) (t1 t2 : Q) :
  t1 <= t2 -> (searchsorted_left rc t1 <= searchsorted_left rc t2)%nat.
Proof.
  intros Ht; induction rc as [| r rest IH]; [reflexivity |].
  cbn [searchsorted_left].
  destruct (Qle_bool t1 r) eqn:E1; [lia |].
  destruct (Qle_bool t2 r) eqn:E2; [| lia].
  apply Qle_bool_iff in E2.
  assert (Hle : t1 <= r) by (apply Qle_trans with t2; assumption).
  apply Qle_bool_iff in Hle; congruence.
Qed.

(** Reading a descending array further to the right, or past its end,
    gives a smaller value. *)
Lemma lookup_antitone (values : list Q) (i j : nat) :
  StronglySorted (fun a b => b <= a) values ->
  Forall (fun v => 0 <= v /\ v <= 1) values ->
  (i <= j)%nat ->
  (if Nat.ltb j (length values) then nth j values 0 else 0)
  <= (if Nat.ltb i (length values) then nth i values 0 else 0).
Proof.
  intros Hs Hunit Hij; rewrite Forall_forall in Hunit.
  destruct (Nat.ltb_spec j (length values)) as [Hj | Hj].
  - destruct (Nat.ltb_spec i (length values)) as [Hi | Hi]; [| lia].
    clear Hunit; revert i j Hij Hj Hi.
    induction Hs as [| x rest Hrest IH Hx]; intros i j Hij Hj Hi;
      simpl in Hj; [lia |].
    destruct i as [| i], j as [| j]; simpl; try lia.
    + apply Qle_refl.
    + rewrite Forall_forall in Hx; apply Hx, nth_In; lia.
    + apply IH; simpl in Hi; lia.
  - destruct (Nat.ltb_spec i (length values)) as [Hi | Hi];
      [| apply Qle_refl].
    apply Hunit, nth_In; exact Hi.
Qed.

Lemma thresholds_sorted : StronglySorted Qle recall_thresholds.
Proof.
  unfold recall_thresholds; generalize 0%nat, 101%nat.
  intros start len; revert start; induction len as [| len IH];
    intros start; [constructor |].
  cbn [seq map]; constructor; [apply IH |].
  apply Forall_forall; intros t Ht.
  apply in_map_iff in Ht as (k & <- & Hk); apply in_seq in Hk.
  unfold Qdiv; apply Qmult_le_compat_r; [| discriminate].
  apply of_nat_le; lia.
Qed.

Lemma sorted_map_antitone (f : Q -> Q) (ts : list Q) :
  (forall a b, a <= b -> f b <= f a) ->
  StronglySorted Qle ts ->
  StronglySorted (fun a b => b <= a) (map f ts).
Proof.
  intros Hf; induction 1 as [| t ts Hts IH Ht]; [constructor |].
  cbn [map]; constructor; [exact IH |].
  apply Forall_forall; intros y Hy.
  apply in_map_iff in Hy as (t' & <- & Ht').
  rewrite Forall_forall in Ht; apply Hf, Ht; exact Ht'.
Qed.

Lemma qsum_unit (values : list Q) :
  Forall (fun v => 0 <= v /\ v <= 1) values ->
  0 <= qsum values /\ qsum values <= of_nat (length values).
Proof.
  induction 1 as [| v rest [Hv0 Hv1] _ [IH0 IH1]].
  - split; [apply Qle_refl | unfold of_nat; simpl; apply Qle_refl].
  - cbn [qsum fold_right length]; fold (qsum rest).
    replace (S (length rest)) with (length rest + 1)%nat by lia.
    rewrite of_nat_succ; split; lra.
Qed.

(** X24: for arrays of one length and a positive number of ground-truth
    objects, [_compute_ap_recall] returns; the 101
    interpolated precisions lie between 0 and 1 and never increase with
    the recall threshold, and the average precision, their mean, lies
    between 0 and 1. *)
Theorem average_precision_in_unit_interval (scores : list Q)
    (matched : list bool) (NP : Q) :
  length scores = length matched -> 0 < NP ->
  exists r ap,
    _compute_ap_recall scores matched NP = Ok r
    /\ AP r = fin ap
    /\ 0 <= ap /\ ap <= 1
    /\ length (interpolated_precision r) = 101%nat
    /\ Forall (fun v => 0 <= v /\ v <= 1) (interpolated_precision r)
    /\ StronglySorted (fun a b => b <= a) (interpolated_precision r).
Proof.
  intros Hlen _; unfold _compute_ap_recall.
  destruct (map_result_succeeds (index matched) (argsort_descending scores))
    as (ordered & -> & _).
  { intros i Hi; unfold index.
    destruct (nth_error matched i) eqn:E; [eexists; reflexivity |].
    apply nth_error_None in E; exfalso.
    unfold argsort_descending in Hi.
    apply (Permutation_in _ (Permutation_map fst
                               (sort_by_perm _ _ (enumerate scores)))) in Hi.
    rewrite enumerate_fst in Hi; apply in_seq in Hi; lia. }
  cbn [bind].
  set (pr := map (fun '(t, f) => of_nat t / (of_nat t + of_nat f))
                 (combine (cumsum ordered) (cumsum (map negb ordered)))).
  assert (Hpr : Forall (fun v => 0 <= v /\ v <= 1) (rev pr)).
  { apply Forall_rev, Forall_forall; intros v Hv.
    apply in_map_iff in Hv as ([t f] & <- & _); apply precision_unit. }
  destruct (maximum_accumulate_spec (rev pr) Hpr) as (Hunit & Hsorted & _).
  set (i_pr := rev (maximum_accumulate (rev pr))) in *.
  assert (Hunit' : Forall (fun v => 0 <= v /\ v <= 1) i_pr)
    by (apply Forall_rev; exact Hunit).
  assert (Hsorted' : StronglySorted (fun a b => b <= a) i_pr)
    by (apply sorted_rev; exact Hsorted).
  set (rc := map (fun t => of_nat t / NP) (cumsum ordered)).
  set (at_threshold := fun t =>
         if Nat.ltb (searchsorted_left rc t) (length i_pr)
         then nth (searchsorted_left rc t) i_pr 0 else 0).
  assert (Hfinal : map (fun r => if Nat.ltb r (length i_pr)
                                 then nth r i_pr 0 else 0)
                       (map (searchsorted_left rc) recall_thresholds)
                   = map at_threshold recall_thresholds)
    by (rewrite map_map; reflexivity).
  rewrite Hfinal.
  assert (Hvalues : Forall (fun v => 0 <= v /\ v <= 1)
                           (map at_threshold recall_thresholds)).
  { apply Forall_forall; intros v Hv.
    apply in_map_iff in Hv as (t & <- & _); unfold at_threshold.
    destruct (Nat.ltb_spec (searchsorted_left rc t) (length i_pr)) as [H | H].
    - rewrite Forall_forall in Hunit'; apply Hunit', nth_In; exact H.
    - split; [apply Qle_refl | discriminate]. }
  assert (Hcount : length (map at_threshold recall_thresholds) = 101%nat)
    by reflexivity.
  destruct (qsum_unit _ Hvalues) as [Hsum0 Hsum1].
  rewrite Hcount in Hsum1.
  eexists; exists (qsum (map at_threshold recall_thresholds) / of_nat 101).
  split; [reflexivity |]; cbn [AP interpolated_precision].
  split.
  { unfold mean; rewrite Hcount.
    destruct (map at_threshold recall_thresholds) eqn:E;
      [discriminate Hcount | reflexivity]. }
  split; [apply Qle_shift_div_l; [reflexivity | lra] |].
  split; [apply Qle_shift_div_r; [reflexivity | lra] |].
  split; [exact Hcount |]; split; [exact Hvalues |].
  apply sorted_map_antitone; [| apply thresholds_sorted].
  intros a b Hab; unfold at_threshold.
  apply lookup_antitone; [exact Hsorted' | exact Hunit' |].
  apply searchsorted_left_mono; exact Hab.
Qed.

(** Three detections, the second one unmatched, two objects to find. *)
Lemma average_precision_in_unit_interval_witness :
  exists r ap,
    _compute_ap_recall [9 # 10; 8 # 10; 7 # 10] [true; false; true] 2
    = Ok r
    /\ AP r = fin ap
    /\ 0 <= ap /\ ap <= 1
    /\ length (interpolated_precision r) = 101%nat
    /\ Forall (fun v => 0 <= v /\ v <= 1) (interpolated_precision r)
    /\ StronglySorted (fun a b => b <= a) (interpolated_precision r).
Proof.
  apply (average_precision_in_unit_interval [9 # 10; 8 # 10; 7 # 10]
           [true; false; true] 2); reflexivity.
Defined.

End ApRecallProperties.

(** ** The percentile 0: the full range of the sample *)

Section FullRange.
Import QTensor Fitters.
Open Scope Q_scope.

Lemma sorted_first_last (a : list Q) :
  a <> [] ->
  let s := sort_by (fun x : Q => x) a in
  In (nth 0 s 0) a /\ In (nth (length a - 1) s 0) a
  /\ forall x, In x a -> nth 0 s 0 <= x /\ x <= nth (length a - 1) s 0.
Proof.
  intros Hne s.
  pose proof (sort_by_length Q (fun x => x) a) as Hlen.
  pose proof (sort_by_sorted Q (fun x => x) a) as Hsorted.
  pose proof (sort_by_perm Q (fun x => x) a) as Hperm.
  fold s in Hlen, Hsorted, Hperm.
  assert (Hpos : (0 < length a)%nat) by (destruct a; simpl; [congruence | lia]).
  split; [apply (Permutation_in _ Hperm), nth_In; lia |].
  split; [apply (Permutation_in _ Hperm), nth_In; lia |].
  intros x Hx.
  apply (Permutation_in _ (Permutation_sym Hperm)) in Hx.
  apply (In_nth _ _ 0) in Hx as (i & Hi & <-).
  split; apply (sorted_nth Q (fun x => x) s 0 _ _ Hsorted); lia.
Qed.

(** X25: with the folded percentile 0, which the percentiles 0 and 1
    give, the two percentiles of [_simple_percentile] are entries of the
    sample, taken without interpolation: [min_] is its smallest pixel and
    [max_] its largest, so that every real pixel lies between them.  The
    offset of the row is the smallest pixel, and its scale is zero
    exactly when all the pixels are equal.  Nothing is said of offset
    plus scale: the code stores the scale rounded to float32, which can
    move that sum off the largest pixel. *)
Theorem percentile_zero_spans_sample (sample : list Q) :
  sample <> [] ->
  exists min_ max_ scale offset,
    nanpercentile sample 0 = Ok (fin min_)
    /\ nanpercentile sample 100 = Ok (fin max_)
    /\ percentile_pair sample 0 = Ok (fin scale, fin offset)
    /\ (exists darkest,
          In darkest sample /\ min_ == darkest /\ offset == darkest)
    /\ (exists brightest, In brightest sample /\ max_ == brightest)
    /\ (forall x, In x sample -> min_ <= x /\ x <= max_)
    /\ (scale == 0 <-> min_ == max_).
Proof.
  intros Hne.
  destruct (sorted_first_last sample Hne) as (Hfirst & Hlast & Hrange).
  unfold percentile_pair.
  change (100 - 0)%Z with 100%Z.
  rewrite (nanpercentile_value sample 0 Hne) by lia.
  rewrite (nanpercentile_value sample 100 Hne) by lia.
  cbn [bind nsub]; do 4 eexists.
  do 3 (split; [reflexivity |]).
  set (s := sort_by (fun x : Q => x) sample) in *.
  assert (Hv0 : of_nat (length sample - 1) * (inject_Z 0 / 100) == 0)
    by (unfold Qdiv; change (inject_Z 0) with 0; ring).
  assert (Hv1 : of_nat (length sample - 1) * (inject_Z 100 / 100)
                == of_nat (length sample - 1))
    by (change (inject_Z 100 / 100) with (100 / 100); field).
  assert (Hlo0 : Z.to_nat (Qfloor (of_nat (length sample - 1)
                                   * (inject_Z 0 / 100))) = 0%nat).
  { rewrite Hv0; reflexivity. }
  assert (Hlo1 : Z.to_nat (Qfloor (of_nat (length sample - 1)
                                   * (inject_Z 100 / 100)))
                 = (length sample - 1)%nat).
  { rewrite Hv1; unfold of_nat; rewrite Qfloor_Z; apply Nat2Z.id. }
  rewrite Hlo0, Hlo1.
  replace (Nat.min (length sample - 1 + 1) (length sample - 1))
    with (length sample - 1)%nat by lia.
  set (first := nth 0 s 0) in *.
  set (final := nth (length sample - 1) s 0) in *.
  set (offset := first + _).
  set (highest := final + _).
  assert (Eoff : offset == first).
  { unfold offset; rewrite Hv0; unfold of_nat; simpl; ring. }
  assert (Emax : highest == final) by (unfold highest; ring).
  split; [exists first; repeat split; [exact Hfirst | exact Eoff
                                       | exact Eoff] |].
  split; [exists final; split; [exact Hlast | exact Emax] |].
  split; [intros x Hx; destruct (Hrange x Hx) as [Hlo Hhi]; split; lra |].
  split; intros H; lra.
Qed.

(** Three pixels: the percentiles are 1 and 3. *)
Lemma percentile_zero_spans_sample_witness :
  exists min_ max_ scale offset,
    nanpercentile [3; 1; 2] 0 = Ok (fin min_)
    /\ nanpercentile [3; 1; 2] 100 = Ok (fin max_)
    /\ percentile_pair [3; 1; 2] 0 = Ok (fin scale, fin offset)
    /\ (exists darkest,
          In darkest [3; 1; 2] /\ min_ == darkest /\ offset == darkest)
    /\ (exists brightest, In brightest [3; 1; 2] /\ max_ == brightest)
    /\ (forall x, In x [3; 1; 2] -> min_ <= x /\ x <= max_)
    /\ (scale == 0 <-> min_ == max_).
Proof.
  apply (percentile_zero_spans_sample [3; 1; 2]); discriminate.
Defined.

End FullRange.

(** ** hparams.py: class offsets and class labels *)

Section ColorLabels.
Import Hparams.
Open Scope string_scope.
Open Scope list_scope.

Lemma dict_set_fresh {V} (key : string) (value : V)
    (d : list (string * V)) :
  ~ In key (map fst d) -> dict_set key value d = d ++ [(key, value)].
Proof.
  induction d as [| [k v] rest IH]; simpl; intros H; [reflexivity |].
  destruct (String.eqb_spec k key) as [-> | _];
    [exfalso; apply H; left; reflexivity |].
  rewrite IH by (intros Hin; apply H; right; exact Hin); reflexivity.
Qed.

Lemma lookup_app {V} (key : string) (d1 d2 : list (string * V)) :
  lookup key (d1 ++ d2)
  = match lookup key d1 with
    | Some v => Some v
    | None => lookup key d2
    end.
Proof.
  induction d1 as [| [k v] rest IH]; simpl; [reflexivity |].
  destruct (String.eqb k key); [reflexivity | exact IH].
Qed.

Lemma lookup_absent {V} (key : string) (d : list (string * V)) :
  ~ In key (map fst d) -> lookup key d = None.
Proof.
  induction d as [| [k v] rest IH]; simpl; intros H; [reflexivity |].
  destruct (String.eqb_spec k key) as [-> | _];
    [exfalso; apply H; left; reflexivity |].
  apply IH; intros Hin; apply H; right; exact Hin.
Qed.

Lemma combine_fst {A B} (xs : list A) (ys : list B) :
  length xs = length ys -> map fst (combine xs ys) = xs.
Proof.
  revert ys; induction xs as [| x xs IH]; intros [| y ys] H;
    try discriminate H; [reflexivity |].
  simpl; f_equal; apply IH; injection H as H; exact H.
Qed.

Lemma combine_seq_app {A} (xs ys : list A) (start : nat) :
  combine (xs ++ ys) (seq start (length xs + length ys))
  = combine xs (seq start (length xs))
    ++ combine ys (seq (start + length xs) (length ys)).
Proof.
  revert start; induction xs as [| x xs IH]; intros start; simpl.
  - rewrite Nat.add_0_r; reflexivity.
  - f_equal; rewrite IH; do 2 f_equal; f_equal; lia.
Qed.

Lemma names_of_shape_length (shape : string) (colors : list string) :
  length (names_of_shape (shape, colors)) = Nat.max 1 (length colors).
Proof.
  unfold names_of_shape; cbn [fst snd].
  destruct colors as [| c [| c' rest]]; [reflexivity | reflexivity |].
  rewrite length_map; simpl; lia.
Qed.

Lemma label_names_snoc (d : list (string * list string))
    (item : string * list string) :
  label_names (d ++ [item]) = label_names d ++ names_of_shape item.
Proof.
  unfold label_names; rewrite flat_map_app; simpl.
  rewrite app_nil_r; reflexivity.
Qed.

(** The inner loop over the colors of one shape. *)
Lemma colors_loop (shape : string) (colors : list string)
    (labels : list (string * nat)) (idx : nat) :
  NoDup (map fst labels ++ map (label_name shape) colors) ->
  fold_left
    (fun '(labels, idx) color =>
       (dict_set (label_name shape color) idx labels, S idx))
    colors (labels, idx)
  = (labels ++ combine (map (label_name shape) colors)
                       (seq idx (length colors)),
     (idx + length colors)%nat).
Proof.
  revert labels idx; induction colors as [| c colors IH];
    intros labels idx Hnodup.
  - simpl; rewrite app_nil_r, Nat.add_0_r; reflexivity.
  - cbn [fold_left map length seq combine].
    rewrite dict_set_fresh.
    + rewrite IH.
      * rewrite <- app_assoc; cbn [app]; f_equal; lia.
      * rewrite map_app; cbn [map fst]; rewrite <- app_assoc; exact Hnodup.
    + cbn [map] in Hnodup; apply NoDup_remove_2 in Hnodup.
      intros Hin; apply Hnodup, in_or_app; left; exact Hin.
Qed.

(** The second loop numbers the class names in the order it meets
    them. *)
Lemma color_labels_loop_spec (d : list (string * list string)) :
  NoDup (label_names d) ->
  color_labels_loop d
  = (combine (label_names d) (seq 0 (length (label_names d))),
     length (label_names d)).
Proof.
  induction d as [| [shape colors] d IH] using rev_ind; intros Hnodup;
    [reflexivity |].
  rewrite label_names_snoc in *.
  unfold color_labels_loop in *; rewrite fold_left_app; cbn [fold_left].
  rewrite IH by (apply NoDup_app_remove_r in Hnodup; exact Hnodup).
  rewrite length_app, combine_seq_app; cbn [Nat.add].
  assert (Hfst : map fst (combine (label_names d)
                                  (seq 0 (length (label_names d))))
                 = label_names d)
    by (apply combine_fst; rewrite length_seq; reflexivity).
  destruct colors as [| c colors].
  - cbn [names_of_shape fst snd length seq combine] in *.
    rewrite dict_set_fresh.
    + f_equal; lia.
    + rewrite Hfst; apply NoDup_remove_2 in Hnodup.
      rewrite app_nil_r in Hnodup; exact Hnodup.
  - change (names_of_shape (shape, c :: colors))
      with (map (label_name shape) (c :: colors)) in *.
    rewrite colors_loop by (rewrite Hfst; exact Hnodup).
    rewrite length_map; reflexivity.
Qed.

(** The first loop gives every shape the number of class names that
    come before its own. *)
Lemma color_offsets_loop_spec (d : list (string * list string)) :
  NoDup (map fst d) ->
  snd (color_offsets_loop d) = length (label_names d)
  /\ map fst (fst (color_offsets_loop d)) = map fst d
  /\ forall i shape colors,
       nth_error d i = Some (shape, colors) ->
       lookup shape (fst (color_offsets_loop d))
       = Some (length (label_names (firstn i d))).
Proof.
  induction d as [| [shape colors] d IH] using rev_ind; intros Hnodup.
  - split; [reflexivity |]; split; [reflexivity |].
    intros [| i] ? ? H; discriminate H.
  - rewrite map_app in Hnodup; cbn [map fst] in Hnodup.
    assert (Hfresh : ~ In shape (map fst d)).
    { apply NoDup_remove_2 in Hnodup; rewrite app_nil_r in Hnodup.
      exact Hnodup. }
    destruct (IH (NoDup_app_remove_r _ _ Hnodup)) as (Hidx & Hkeys & Hlook).
    unfold color_offsets_loop in *; rewrite fold_left_app; cbn [fold_left].
    destruct (fold_left _ d ([], 0%nat)) as [offsets idx] eqn:Hstate.
    cbn [fst snd] in *.
    rewrite dict_set_fresh by (rewrite Hkeys; exact Hfresh).
    split; [| split].
    + rewrite label_names_snoc, length_app, names_of_shape_length; lia.
    + rewrite !map_app, Hkeys; reflexivity.
    + intros i shape' colors' Hnth; rewrite lookup_app.
      destruct (Nat.lt_ge_cases i (length d)) as [Hi | Hi].
      * rewrite nth_error_app1 in Hnth by exact Hi.
        rewrite (Hlook i shape' colors' Hnth).
        rewrite firstn_app.
        replace (i - length d)%nat with 0%nat by lia.
        rewrite app_nil_r; reflexivity.
      * rewrite nth_error_app2 in Hnth by exact Hi.
        destruct (i - length d)%nat as [| k] eqn:Hk;
          [| destruct k; discriminate Hnth].
        injection Hnth as <- <-.
        rewrite lookup_absent by (rewrite Hkeys; exact Hfresh).
        cbn [lookup]; rewrite String.eqb_refl.
        replace i with (length d) by lia.
        rewrite firstn_app, firstn_all, Nat.sub_diag, app_nil_r, Hidx.
        reflexivity.
Qed.

Lemma lookup_numbered (names_before names_after : list string)
    (name : string) :
  ~ In name names_before ->
  lookup name
         (combine (names_before ++ name :: names_after)
                  (seq 0 (length (names_before ++ name :: names_after))))
  = Some (length names_before).
Proof.
  intros Hfresh.
  rewrite length_app, combine_seq_app, lookup_app.
  rewrite lookup_absent
    by (rewrite combine_fst by (rewrite length_seq; reflexivity);
        exact Hfresh).
  cbn [length seq combine lookup]; rewrite String.eqb_refl.
  reflexivity.
Qed.

(** X26: the two loops over the colors of the sign shapes agree, for
    any table with distinct shapes and distinct class names:
    [TS_COLOR_LABEL_DICT] numbers the class names 0, 1, 2, ... in the
    order of its keys, so that a class index is a position in
    [TS_COLOR_LABEL_LIST]; the last [idx] of the first loop is the number
    of classes; and the offset [TS_COLOR_OFFSET_DICT] gives a shape is
    the index of the first class of that shape. *)
Theorem color_offsets_match_labels (d : list (string * list string)) :
  NoDup (map fst d) -> NoDup (label_names d) ->
  fst (color_labels_loop d)
  = combine (label_names d) (seq 0 (length (label_names d)))
  /\ snd (color_offsets_loop d) = length (label_names d)
  /\ forall shape colors,
       In (shape, colors) d ->
       exists offset,
         lookup shape (fst (color_offsets_loop d)) = Some offset
         /\ lookup (label_name shape (hd "none" colors))
                   (fst (color_labels_loop d))
            = Some offset.
Proof.
  intros Hshapes Hnames.
  destruct (color_offsets_loop_spec d Hshapes) as (Hidx & _ & Hlook).
  rewrite (color_labels_loop_spec d Hnames); cbn [fst].
  split; [reflexivity |]; split; [exact Hidx |].
  intros shape colors Hin.
  apply In_nth_error in Hin as (i & Hi).
  exists (length (label_names (firstn i d))); split;
    [exact (Hlook i shape colors Hi) |].
  assert (Hsplit : d = firstn i d ++ (shape, colors) :: skipn (S i) d).
  { rewrite <- (firstn_skipn i d) at 1; f_equal.
    clear -Hi; revert i Hi; induction d as [| x d IH]; intros [| i] Hi;
      try discriminate Hi.
    - injection Hi as ->; reflexivity.
    - simpl in Hi; exact (IH i Hi). }
  assert (Hnames_split :
            label_names d
            = label_names (firstn i d)
              ++ label_name shape (hd "none" colors)
                 :: (tl (names_of_shape (shape, colors))
                     ++ label_names (skipn (S i) d))).
  { rewrite Hsplit at 1; unfold label_names.
    rewrite flat_map_app; cbn [flat_map]; f_equal.
    unfold names_of_shape; cbn [fst snd].
    destruct colors as [| c colors]; reflexivity. }
  rewrite Hnames_split; apply lookup_numbered.
  rewrite Hnames_split in Hnames.
  apply NoDup_remove_2 in Hnames.
  intros H; apply Hnames, in_or_app; left; exact H.
Qed.

(** The table of the module: 17 classes for 12 shapes. *)
Lemma color_offsets_match_labels_witness :
  TS_COLOR_LABEL_DICT
  = combine (label_names TS_COLOR_DICT)
            (seq 0 (length (label_names TS_COLOR_DICT)))
  /\ snd (color_offsets_loop TS_COLOR_DICT)
     = length (label_names TS_COLOR_DICT)
  /\ forall shape colors,
       In (shape, colors) TS_COLOR_DICT ->
       exists offset,
         lookup shape TS_COLOR_OFFSET_DICT = Some offset
         /\ lookup (label_name shape (hd "none" colors))
                   TS_COLOR_LABEL_DICT
            = Some offset.
Proof.
  apply (color_offsets_match_labels TS_COLOR_DICT).
  - repeat (constructor; [simpl; intuition discriminate |]); constructor.
  - repeat (constructor; [simpl; intuition discriminate |]); constructor.
Defined.

End ColorLabels.

(** ** Average precision at the two ends *)

Section ApRecallExtremes.
Import QTensor ApRecall.
Open Scope Q_scope.

Lemma cumsum_from_true (count n : nat) :
  cumsum_from count (repeat true n) = seq (S count) n.
Proof.
  revert count; induction n as [| n IH]; intros count; [reflexivity |].
  simpl; rewrite Nat.add_1_r, IH; reflexivity.
Qed.

Lemma cumsum_from_false (count n : nat) :
  cumsum_from count (repeat false n) = repeat count n.
Proof.
  revert count; induction n as [| n IH]; intros count; [reflexivity |].
  simpl; rewrite Nat.add_0_r, IH; reflexivity.
Qed.

(** Sorting a constant array of flags leaves it as it is. *)
Lemma gather_constant (flag : bool) (scores : list Q) :
  map_result (index (repeat flag (length scores)))
             (argsort_descending scores)
  = Ok (repeat flag (length scores)).
Proof.
  assert (Hinds : Permutation (argsort_descending scores)
                              (seq 0 (length scores))).
  { unfold argsort_descending; rewrite <- enumerate_fst.
    apply Permutation_map, sort_by_perm. }
  rewrite (map_result_total _ (fun _ => flag)).
  - f_equal.
    assert (Hlen : length (argsort_descending scores) = length scores)
      by (rewrite (Permutation_length Hinds); apply length_seq).
    rewrite <- Hlen; clear.
    generalize (argsort_descending scores) as inds.
    induction inds; simpl; congruence.
  - intros i Hi; apply (Permutation_in _ Hinds), in_seq in Hi.
    unfold index; rewrite nth_error_repeat by lia; reflexivity.
Qed.

Lemma accumulate_from_constant (c highest : Q) (values : list Q) :
  highest == c -> Forall (fun v => v == c) values ->
  Forall (fun v => v == c) (accumulate_from highest values).
Proof.
  intros Hh Hvalues; revert highest Hh.
  induction Hvalues as [| v rest Hv _ IH]; intros highest Hh;
    [constructor |].
  cbn [accumulate_from].
  assert (Hmax : Qmax highest v == c).
  { rewrite Q.max_l by (rewrite Hh, Hv; apply Qle_refl); exact Hh. }
  constructor; [exact Hmax | apply IH; exact Hmax].
Qed.

Lemma maximum_accumulate_constant (c : Q) (values : list Q) :
  Forall (fun v => v == c) values ->
  Forall (fun v => v == c) (maximum_accumulate values).
Proof.
  destruct 1 as [| v rest Hv Hrest]; [constructor |].
  cbn [maximum_accumulate]; constructor; [exact Hv |].
  apply accumulate_from_constant; assumption.
Qed.

Lemma maximum_accumulate_length (values : list Q) :
  length (maximum_accumulate values) = length values.
Proof.
  destruct values as [| v rest]; [reflexivity |].
  cbn [maximum_accumulate length]; f_equal.
  generalize v; induction rest as [| w rest IH]; intros h; [reflexivity |].
  cbn [accumulate_from length]; f_equal; apply IH.
Qed.

Lemma searchsorted_left_found (rc : list Q) (threshold : Q) :
  (exists r, In r rc /\ threshold <= r) ->
  (searchsorted_left rc threshold < length rc)%nat.
Proof.
  induction rc as [| r0 rest IH]; intros (r & Hin & Hr); [destruct Hin |].
  cbn [searchsorted_left length].
  destruct (Qle_bool threshold r0) eqn:E; [lia |].
  destruct Hin as [-> | Hin].
  - apply Qle_bool_iff in Hr; congruence.
  - apply Nat.succ_lt_mono with (n := searchsorted_left rest threshold).
    apply IH; exists r; split; assumption.
Qed.

Lemma qsum_constant (c : Q) (values : list Q) :
  Forall (fun v => v == c) values ->
  qsum values == of_nat (length values) * c.
Proof.
  induction 1 as [| v rest Hv _ IH].
  - unfold of_nat; simpl; ring.
  - cbn [qsum fold_right length]; fold (qsum rest).
    replace (S (length rest)) with (length rest + 1)%nat by lia.
    rewrite of_nat_succ, IH, Hv; ring.
Qed.

(** The mean of the interpolated precisions when they all equal [c]. *)
Lemma mean_constant (c : Q) (values : list Q) :
  length values = 101%nat -> Forall (fun v => v == c) values ->
  exists ap, mean values = fin ap /\ ap == c.
Proof.
  intros Hlen Hall; unfold mean.
  destruct values as [| v rest] eqn:E; [discriminate Hlen |].
  rewrite <- E in *; eexists; split; [reflexivity |].
  rewrite (qsum_constant c values Hall), Hlen.
  unfold of_nat; simpl; field.
Qed.

Lemma thresholds_length (A : Type) (f : nat -> A) (rc : list Q) :
  length (map f (map (searchsorted_left rc) recall_thresholds)) = 101%nat.
Proof.
  unfold recall_thresholds; rewrite !length_map; apply length_seq.
Qed.

(** X27: the two ends of the average precision.  When every detection is
    matched and the detections are as many as the ground-truth objects,
    every interpolated precision and the AP equal 1; when no detection is
    matched they equal 0. *)
Theorem average_precision_extremes (scores : list Q) :
  scores <> [] ->
  (exists r ap,
     _compute_ap_recall scores (repeat true (length scores))
                        (of_nat (length scores)) = Ok r
     /\ AP r = fin ap /\ ap == 1
     /\ Forall (fun v => v == 1) (interpolated_precision r))
  /\ (forall NP, 0 < NP ->
        exists r ap,
          _compute_ap_recall scores (repeat false (length scores)) NP
          = Ok r
          /\ AP r = fin ap /\ ap == 0
          /\ Forall (fun v => v == 0) (interpolated_precision r)).
Proof.
  intros Hne.
  assert (Hn : (1 <= length scores)%nat)
    by (destruct scores; [congruence | simpl; lia]).
  split; [| intros NP _]; unfold _compute_ap_recall;
    rewrite gather_constant; cbn [bind];
    set (n := length scores) in *.
  - unfold cumsum.
    replace (map negb (repeat true n)) with (repeat false n)
      by (clear; induction n; simpl; congruence).
    rewrite cumsum_from_true, cumsum_from_false.
    set (pr := map (fun '(t, f) => of_nat t / (of_nat t + of_nat f))
                   (combine (seq 1 n) (repeat 0%nat n))).
    assert (Hpr : Forall (fun v => v == 1) pr).
    { apply Forall_forall; intros v Hv.
      apply in_map_iff in Hv as ([t f] & <- & Hin).
      pose proof (in_combine_l _ _ _ _ Hin) as Ht; apply in_seq in Ht.
      apply in_combine_r, repeat_spec in Hin; subst f.
      assert (Hpos : 0 < of_nat t).
      { unfold of_nat; rewrite <- (Zlt_Qlt 0); lia. }
      unfold of_nat at 3; simpl; field.
      apply Qnot_eq_sym, Qlt_not_eq; lra. }
    set (i_pr := rev (maximum_accumulate (rev pr))).
    assert (Hi_pr : Forall (fun v => v == 1) i_pr)
      by (apply Forall_rev, maximum_accumulate_constant, Forall_rev;
          exact Hpr).
    assert (Hlen : length i_pr = n).
    { unfold i_pr, pr.
      rewrite length_rev, maximum_accumulate_length, length_rev, length_map,
        length_combine, length_seq, repeat_length; lia. }
    set (rc := map (fun t => of_nat t / of_nat n) (seq 1 n)).
    assert (Hvalues :
              Forall (fun v => v == 1)
                     (map (fun r => if Nat.ltb r (length i_pr)
                                    then nth r i_pr 0 else 0)
                          (map (searchsorted_left rc) recall_thresholds))).
    { rewrite map_map; apply Forall_forall; intros v Hv.
      apply in_map_iff in Hv as (t & <- & Ht).
      assert (Hfound : (searchsorted_left rc t < length rc)%nat).
      { apply searchsorted_left_found.
        exists (of_nat n / of_nat n); split.
        - unfold rc; apply (in_map (fun t => of_nat t / of_nat n)).
          apply in_seq; lia.
        - unfold recall_thresholds in Ht.
          apply in_map_iff in Ht as (k & <- & Hk); apply in_seq in Hk.
          assert (Hnpos : 0 < of_nat n).
          { unfold of_nat; rewrite <- (Zlt_Qlt 0); lia. }
          assert (E : of_nat n / of_nat n == 1)
            by (field; apply Qnot_eq_sym, Qlt_not_eq; exact Hnpos).
          rewrite E; apply Qle_shift_div_r; [reflexivity |].
          rewrite Qmult_1_l; apply (of_nat_le k 100); lia. }
      unfold rc in Hfound; rewrite length_map, length_seq in Hfound.
      rewrite Hlen.
      destruct (Nat.ltb_spec (searchsorted_left rc t) n) as [Hlt | Hge];
        [| unfold rc in Hge; lia].
      rewrite Forall_forall in Hi_pr; apply Hi_pr, nth_In; lia. }
    destruct (mean_constant 1 _ (thresholds_length _ _ _) Hvalues)
      as (ap & Hap & Hone).
    eexists; exists ap; split; [reflexivity |].
    cbn [AP interpolated_precision].
    split; [exact Hap |]; split; [exact Hone | exact Hvalues].
  - unfold cumsum.
    rewrite cumsum_from_false.
    set (fp := cumsum_from 0 (map negb (repeat false n))).
    set (pr := map (fun '(t, f) => of_nat t / (of_nat t + of_nat f))
                   (combine (repeat 0%nat n) fp)).
    assert (Hpr : Forall (fun v => v == 0) pr).
    { apply Forall_forall; intros v Hv.
      apply in_map_iff in Hv as ([t f] & <- & Hin).
      apply in_combine_l, repeat_spec in Hin; subst t.
      unfold Qdiv, of_nat at 1; simpl; ring. }
    set (i_pr := rev (maximum_accumulate (rev pr))).
    assert (Hi_pr : Forall (fun v => v == 0) i_pr)
      by (apply Forall_rev, maximum_accumulate_constant, Forall_rev;
          exact Hpr).
    set (rc := map (fun t => of_nat t / NP) (repeat 0%nat n)).
    assert (Hvalues :
              Forall (fun v => v == 0)
                     (map (fun r => if Nat.ltb r (length i_pr)
                                    then nth r i_pr 0 else 0)
                          (map (searchsorted_left rc) recall_thresholds))).
    { rewrite map_map; apply Forall_forall; intros v Hv.
      apply in_map_iff in Hv as (t & <- & _).
      destruct (Nat.ltb_spec (searchsorted_left rc t) (length i_pr))
        as [Hlt | _]; [| reflexivity].
      rewrite Forall_forall in Hi_pr; apply Hi_pr, nth_In; exact Hlt. }
    destruct (mean_constant 0 _ (thresholds_length _ _ _) Hvalues)
      as (ap & Hap & Hzero).
    eexists; exists ap; split; [reflexivity |].
    cbn [AP interpolated_precision].
    split; [exact Hap |]; split; [exact Hzero | exact Hvalues].
Qed.

Lemma average_precision_extremes_witness :
  (exists r ap,
     _compute_ap_recall [9 # 10; 7 # 10]
                        (repeat true (length [9 # 10; 7 # 10]))
                        (of_nat (length [9 # 10; 7 # 10])) = Ok r
     /\ AP r = fin ap /\ ap == 1
     /\ Forall (fun v => v == 1) (interpolated_precision r))
  /\ (forall NP, 0 < NP ->
        exists r ap,
          _compute_ap_recall [9 # 10; 7 # 10]
                             (repeat false (length [9 # 10; 7 # 10])) NP
          = Ok r
          /\ AP r = fin ap /\ ap == 0
          /\ Forall (fun v => v == 0) (interpolated_precision r)).
Proof.
  apply (average_precision_extremes [9 # 10; 7 # 10]); discriminate.
Defined.

End ApRecallExtremes.
